(** * arcadejogos: level simulation and progression engine

  A shallow embedding of the TypeScript sources of the game
  (GameState, the level schema, loader and table, the event bus, the
  per-frame logic of MainScene and the state of the Hud overlay), with
  the properties of the specification, and further properties of the
  code, stated and proved over it.

  Conventions of the embedding.
  - A JavaScript [number] is modelled by [Z].  Counters (coins, deaths)
    are integers in the source; times are milliseconds.  The one
    non-finite value the modelled code can produce, [NaN] (from [x % 0]),
    is modelled by [None] in [option Z].
  - A JavaScript [Map] is a [gmap].  A JavaScript [Set] is the list of
    its entries in insertion order, as ECMA-262 describes it, because
    [forEach] on a set that changes under it is observable.
  - An object whose identity matters (a loaded level, an event payload, a
    callback) carries a name for that identity.
  - A method that both changes the scene and calls into the sprite
    returns the new scene together with the log of the calls made.
  - Code of the Phaser library is not part of the sources.  The scene
    sees it through the sprite fields it reads and writes, the keys, the
    frame's delta and the overlap callbacks, which are inputs of each
    frame. *)

From Stdlib Require Import ZArith List Bool Lia Ascii.
From stdpp Require Import base option list gmap strings pretty.

Open Scope Z_scope.

(* ===================================================================== *)
(** ** schema.ts: level documents, their validation, progress records *)
(* ===================================================================== *)

Module Schema.

(** A parsed JSON document, the [unknown] that [validateLevelData]
    inspects.  An object lists its own properties; a property is read by
    name, the first entry of that name being the object's value for it. *)
#[local] Unset Elimination Schemes.
Inductive json :=
| JNull
| JBool (b : bool)
| JNum (n : Z)
| JStr (s : string)
| JArr (items : list json)
| JObj (props : list (string * json)).
#[local] Set Elimination Schemes.

(** [obj.key] on a value known to be an object or array; [None] is
    [undefined].  None of the names read by the validators is a property
    of an array. *)
Fixpoint lookupProp (key : string) (props : list (string * json)) : option json :=
  match props with
  | [] => None
  | (k, v) :: rest => if String.eqb k key then Some v else lookupProp key rest
  end.

Definition prop (obj : json) (key : string) : option json :=
  match obj with
  | JObj props => lookupProp key props
  | _ => None
  end.

(** [typeof v === 'number'] and [typeof v === 'string'] *)
Definition isNumber (v : option json) : bool :=
  match v with Some (JNum _) => true | _ => false end.

Definition isString (v : option json) : bool :=
  match v with Some (JStr _) => true | _ => false end.

(** [v === s] for a string literal [s] *)
Definition isLiteral (v : option json) (s : string) : bool :=
  match v with Some (JStr t) => String.eqb t s | _ => false end.

(** The negation of [!obj || typeof obj !== 'object']: [null] has type
    ['object'] but is falsy; arrays have type ['object']. *)
Definition isObject (v : option json) : bool :=
  match v with Some (JObj _) | Some (JArr _) => true | _ => false end.

(** [Array.isArray(v)] *)
Definition isArray (v : option json) : bool :=
  match v with Some (JArr _) => true | _ => false end.

(** [arr.every(p)] on a value for which [Array.isArray] holds *)
Definition every (p : option json → bool) (v : option json) : bool :=
  match v with
  | Some (JArr items) => forallb (λ item, p (Some item)) items
  | _ => false
  end.

Definition field (obj : option json) (key : string) : option json :=
  match obj with Some o => prop o key | None => None end.

Definition isVector2 (obj : option json) : bool :=
  if negb (isObject obj) then false
  else isNumber (field obj "x") && isNumber (field obj "y").

Definition isGoal (obj : option json) : bool :=
  if negb (isObject obj) then false
  else isNumber (field obj "x") && isNumber (field obj "y") &&
       isNumber (field obj "radius").

Definition isPlatform (obj : option json) : bool :=
  if negb (isObject obj) then false
  else isNumber (field obj "x") && isNumber (field obj "y") &&
       isNumber (field obj "width") && isNumber (field obj "height").

Definition isHazard (obj : option json) : bool :=
  if negb (isObject obj) then false
  else (isLiteral (field obj "type") "spikes" || isLiteral (field obj "type") "lava"
          || isLiteral (field obj "type") "void") &&
       isNumber (field obj "x") && isNumber (field obj "y") &&
       isNumber (field obj "width") && isNumber (field obj "height").

Definition isCollectible (obj : option json) : bool :=
  if negb (isObject obj) then false
  else isNumber (field obj "x") && isNumber (field obj "y") &&
       isString (field obj "id").

Definition isWindZone (obj : option json) : bool :=
  if negb (isObject obj) then false
  else
    let isValid :=
      isNumber (field obj "x") && isNumber (field obj "y") &&
      isNumber (field obj "width") && isNumber (field obj "height") &&
      isNumber (field obj "forceX") && isNumber (field obj "forceY") &&
      (isLiteral (field obj "type") "constant" || isLiteral (field obj "type") "pulsed") in
    if negb isValid then false
    else if isLiteral (field obj "type") "pulsed" &&
            negb (isNumber (field obj "pulseDuration")) then false
    else true.

Definition isMovingPlatform (obj : option json) : bool :=
  if negb (isObject obj) then false
  else isNumber (field obj "x") && isNumber (field obj "y") &&
       isNumber (field obj "width") && isNumber (field obj "height") &&
       isNumber (field obj "targetX") && isNumber (field obj "targetY") &&
       isNumber (field obj "speed").

Definition isCheckpoint (obj : option json) : bool :=
  if negb (isObject obj) then false
  else isNumber (field obj "x") && isNumber (field obj "y") &&
       isNumber (field obj "radius").

(** [validateLevelData(data)] *)
Definition validateLevelData (data : json) : bool :=
  let level := Some data in
  if negb (isObject level) then false
  else if negb (isString (field level "id")) ||
          negb (isString (field level "name")) ||
          negb (isString (field level "description")) ||
          negb (isNumber (field level "difficulty")) ||
          negb (isNumber (field level "timeGoalSeconds")) then false
  else if negb (isVector2 (field level "playerSpawn")) ||
          negb (isGoal (field level "goal")) ||
          negb (isArray (field level "platforms")) ||
          negb (isArray (field level "hazards")) ||
          negb (isArray (field level "collectibles")) ||
          negb (isArray (field level "windZones")) ||
          negb (isArray (field level "movingPlatforms")) ||
          negb (isArray (field level "checkpoints")) ||
          negb (isArray (field level "hints")) then false
  else if negb (every isPlatform (field level "platforms")) ||
          negb (every isHazard (field level "hazards")) ||
          negb (every isCollectible (field level "collectibles")) ||
          negb (every isWindZone (field level "windZones")) ||
          negb (every isMovingPlatform (field level "movingPlatforms")) ||
          negb (every isCheckpoint (field level "checkpoints")) ||
          negb (every isString (field level "hints")) then false
  else true.

(** The [collectibles] array of a document, and the [id] of each entry
    ([None] for an entry without a string [id]). *)
Definition collectiblesOf (data : json) : list json :=
  match prop data "collectibles" with
  | Some (JArr items) => items
  | _ => []
  end.

Definition collectibleId (c : json) : option string :=
  match prop c "id" with
  | Some (JStr s) => Some s
  | _ => None
  end.

Definition collectibleIds (data : json) : list (option string) :=
  map collectibleId (collectiblesOf data).

(** What [isCollectible] establishes of an entry. *)
Definition wellTypedCollectible (c : json) : Prop :=
  ∃ cx cy cid,
    prop c "x" = Some (JNum cx) ∧ prop c "y" = Some (JNum cy) ∧
    prop c "id" = Some (JStr cid).

(** [interface LevelProgress] *)
Record LevelProgress := mkLevelProgress {
  levelId : string;
  completed : bool;
  bestTimeMs : option Z;          (* number | null *)
  bestCollectibles : Z;
  totalDeaths : Z
}.

(** [interface LevelCompletionData] *)
Record LevelCompletionData := mkLevelCompletionData {
  id : string;
  timeMs : Z;
  picked : Z;
  deaths : Z
}.

(** *** Notions used to state further properties *)

(** The document in which every number [n] is replaced by [f n]. *)
Fixpoint renumber (f : Z → Z) (data : json) : json :=
  match data with
  | JNum n => JNum (f n)
  | JArr items => JArr (map (renumber f) items)
  | JObj props => JObj (map (λ kv, (fst kv, renumber f (snd kv))) props)
  | JNull | JBool _ | JStr _ => data
  end.

End Schema.

(* ===================================================================== *)
(** ** GameState.ts: the progress store *)
(* ===================================================================== *)

Module GameState.
Import Schema.

(** [interface GameStateData] *)
Record GameStateData := mkGameStateData {
  selectedLevelId : option string;
  levelProgress : gmap string LevelProgress;
  totalCoinsCollected : Z;
  totalDeaths : Z
}.

(** The initial value of the [state] field of [GameStateManager]. *)
Definition initialState : GameStateData :=
  {| selectedLevelId := None;
     levelProgress := ∅;
     totalCoinsCollected := 0;
     totalDeaths := 0 |}.

(** The record literal on the right of [||] in [updateLevelProgress] and
    [completeLevel]. *)
Definition freshProgress (lid : string) : LevelProgress :=
  {| levelId := lid;
     completed := false;
     bestTimeMs := None;
     bestCollectibles := 0;
     Schema.totalDeaths := 0 |}.

(** [this.state.levelProgress.get(levelId) || { ... }]: a stored record is
    an object, hence truthy, so [||] only replaces [undefined]. *)
Definition currentProgress (lid : string) (st : GameStateData) : LevelProgress :=
  default (freshProgress lid) (levelProgress st !! lid).

(** [completeLevel(levelId, data)].  [saveToStorage] and [notifyListeners]
    read the state and do not change it. *)
Definition completeLevel (lid : string) (data : LevelCompletionData)
    (st : GameStateData) : GameStateData :=
  let current := currentProgress lid st in
  let updated :=
    {| levelId := lid;
       completed := true;
       bestTimeMs :=
         match bestTimeMs current with
         | None => Some (timeMs data)
         | Some best => Some (Z.min best (timeMs data))
         end;
       bestCollectibles := Z.max (bestCollectibles current) (picked data);
       Schema.totalDeaths := Schema.totalDeaths current + deaths data |} in
  {| selectedLevelId := selectedLevelId st;
     levelProgress := <[lid := updated]> (levelProgress st);
     totalCoinsCollected := totalCoinsCollected st + picked data;
     totalDeaths := totalDeaths st + deaths data |}.

(** [Partial<LevelProgress>]: each field present or not. *)
Record PartialProgress := mkPartialProgress {
  p_levelId : option string;
  p_completed : option bool;
  p_bestTimeMs : option (option Z);
  p_bestCollectibles : option Z;
  p_totalDeaths : option Z
}.

(** [updateLevelProgress(levelId, progress)]: the spread
    [{ ...current, ...progress }] takes every field present in
    [progress] and the others from [current]. *)
Definition updateLevelProgress (lid : string) (progress : PartialProgress)
    (st : GameStateData) : GameStateData :=
  let current := currentProgress lid st in
  let updated :=
    {| levelId := default (levelId current) (p_levelId progress);
       completed := default (completed current) (p_completed progress);
       bestTimeMs := default (bestTimeMs current) (p_bestTimeMs progress);
       bestCollectibles := default (bestCollectibles current) (p_bestCollectibles progress);
       Schema.totalDeaths := default (Schema.totalDeaths current) (p_totalDeaths progress) |} in
  {| selectedLevelId := selectedLevelId st;
     levelProgress := <[lid := updated]> (levelProgress st);
     totalCoinsCollected := totalCoinsCollected st;
     totalDeaths := totalDeaths st |}.

(** [setSelectedLevel(levelId)] *)
Definition setSelectedLevel (lid : option string) (st : GameStateData) : GameStateData :=
  {| selectedLevelId := lid;
     levelProgress := levelProgress st;
     totalCoinsCollected := totalCoinsCollected st;
     totalDeaths := totalDeaths st |}.

(** [resetProgress()] *)
Definition resetProgress (st : GameStateData) : GameStateData :=
  {| selectedLevelId := None;
     levelProgress := ∅;
     totalCoinsCollected := 0;
     totalDeaths := 0 |}.

(** [getLevelProgress], [getBestTime], [getBestCollectibles],
    [isLevelCompleted], [getTotalCoinsCollected], [getTotalDeaths]. *)
Definition getLevelProgress (lid : string) (st : GameStateData) : option LevelProgress :=
  levelProgress st !! lid.

Definition isLevelCompleted (lid : string) (st : GameStateData) : bool :=
  match levelProgress st !! lid with
  | Some p => completed p
  | None => false
  end.

Definition getBestTime (lid : string) (st : GameStateData) : option Z :=
  match levelProgress st !! lid with
  | Some p => bestTimeMs p
  | None => None
  end.

Definition getBestCollectibles (lid : string) (st : GameStateData) : Z :=
  match levelProgress st !! lid with
  | Some p => bestCollectibles p
  | None => 0
  end.

Definition getTotalCoinsCollected (st : GameStateData) : Z := totalCoinsCollected st.
Definition getTotalDeaths (st : GameStateData) : Z := totalDeaths st.

(** The cumulative death count stored for one level (0 without a record). *)
Definition levelDeaths (lid : string) (st : GameStateData) : Z :=
  Schema.totalDeaths (currentProgress lid st).

(** A history of calls [completeLevel(id, d)], oldest first. *)
Definition completeAll (calls : list (string * LevelCompletionData))
    (st : GameStateData) : GameStateData :=
  fold_left (fun s c => completeLevel (fst c) (snd c) s) calls st.

(** The order on best times in which [null] is +infinity. *)
Definition time_le (a b : option Z) : Prop :=
  match a, b with
  | _, None => True
  | None, Some _ => False
  | Some x, Some y => x <= y
  end.

(** [min(existing ?? +infinity, t)] *)
Definition min_with_null (existing : option Z) (t : Z) : Z :=
  match existing with
  | None => t
  | Some b => Z.min b t
  end.

(** Sums over the calls of a history that name level [lid]. *)
Fixpoint deathsFor (lid : string) (calls : list (string * LevelCompletionData)) : Z :=
  match calls with
  | [] => 0
  | (i, d) :: rest =>
      (if decide (i = lid) then deaths d else 0) + deathsFor lid rest
  end.

Definition sumPicked (calls : list (string * LevelCompletionData)) : Z :=
  foldr (fun c acc => picked (snd c) + acc) 0 calls.

Definition sumDeaths (calls : list (string * LevelCompletionData)) : Z :=
  foldr (fun c acc => deaths (snd c) + acc) 0 calls.



(** *** Persistence *)








(** *** Notions used to state further properties *)

(** The completion data a history passed for one level. *)
Definition dataFor (lid : string) (calls : list (string * LevelCompletionData))
    : list LevelCompletionData :=
  omap (λ c, if decide (fst c = lid) then Some (snd c) else None) calls.

(** The sum of the death counts of all stored records. *)
Definition storedDeaths (st : GameStateData) : Z :=
  map_fold (λ _ p acc, Schema.totalDeaths p + acc) 0 (levelProgress st).

(** A partial update without any field. *)
Definition noFields : PartialProgress := mkPartialProgress None None None None None.

(** A history used as an example: wind_01 completed twice. *)
Definition twoCompletions : list (string * LevelCompletionData) :=
  [("wind_01"%string, mkLevelCompletionData "wind_01" 42000 2 1);
   ("wind_01"%string, mkLevelCompletionData "wind_01" 39500 1 4)].


End GameState.

(* ===================================================================== *)
(** ** JavaScript number operations used by the scene *)
(* ===================================================================== *)

Module JS.

(** [a % b]: the remainder takes the sign of the dividend; [a % 0] is
    [NaN], modelled by [None]. *)
Definition rem (a b : Z) : option Z :=
  if b =? 0 then None else Some (Z.rem a b).

(** [c < p] where [c] may be [NaN]: every comparison with [NaN] is false. *)
Definition lt (c : option Z) (p : Z) : bool :=
  match c with
  | Some v => v <? p
  | None => false
  end.

(** Truthiness of a number-or-undefined value: [undefined] and [0] are
    falsy. *)
Definition truthy (n : option Z) : bool :=
  match n with
  | Some v => negb (v =? 0)
  | None => false
  end.

(** Truthiness of a string-or-undefined value: [undefined] and the empty
    string are falsy. *)
Definition truthy_string (s : option string) : bool :=
  match s with
  | Some EmptyString => false
  | Some _ => true
  | None => false
  end.

(** [arr[i]] for a number [i]: [undefined] outside [0 .. length-1]. *)
Definition index {A} (arr : list A) (i : Z) : option A :=
  if i <? 0 then None else arr !! Z.to_nat i.

End JS.

(* ===================================================================== *)
(** ** MainScene.ts: the per-frame simulation *)
(* ===================================================================== *)

Module MainScene.

(** [WindZone] of schema.ts, as typed by the scene. *)
Inductive WindType := constant | pulsed.

Record WindZone := mkWindZone {
  zx : Z; zy : Z;                (* x and y of the zone's centre *)
  width : Z; height : Z;
  forceX : Z; forceY : Z;
  type : WindType;
  pulseDuration : option Z       (* optional field *)
}.

(** [interface WindZoneData] *)
Record WindZoneData := mkWindZoneData {
  zone : WindZone;
  active : bool;
  pulseTimer : Z
}.

(** The fields of the arcade sprite that the scene reads or writes. *)
Record Sprite := mkSprite {
  x : Z; y : Z;
  velocityX : Z; velocityY : Z;
  accelerationX : Z; accelerationY : Z;
  touchingDown : bool            (* body.touching.down *)
}.

(** A keyboard key.  Phaser keeps [isUp] the negation of [isDown]. *)
Record Key := mkKey { isDown : bool }.
Definition isUp (k : Key) : bool := negb (isDown k).

Record CursorKeys := mkCursorKeys { left : Key; right : Key; up : Key }.

(** [hintText] *)
Record HintText := mkHintText { text : string; visible : bool }.

(** The scene's own fields, with the hints and spawn point of
    [currentLevelData]. *)
Record Scene := mkScene {
  player : Sprite;
  canJump : bool;
  coinCount : Z;
  deaths : Z;
  windZones : list WindZoneData;   (* Map keyed wind_0, wind_1, ... in order *)
  hints : list string;
  spawnX : Z; spawnY : Z;
  hintText : HintText
}.

Definition PLAYER_SPEED : Z := 280.
Definition JUMP_VELOCITY : Z := -450.
Definition GRAVITY : Z := 800.
Definition WIND_FORCE_MULTIPLIER : Z := 1.

(** The calls the scene makes on the sprite and on the hint text. *)
Inductive Call :=
| SetVelocityX (v : Z)
| SetVelocityY (v : Z)
| SetVelocity (vx vy : Z)
| SetPosition (px py : Z)
| SetAccelerationX (a : Z)
| SetAccelerationY (a : Z)
| SetText (s : string)
| SetVisible (b : bool).

Definition onSprite (c : Call) (p : Sprite) : Sprite :=
  match c with
  | SetVelocityX v =>
      mkSprite (x p) (y p) v (velocityY p) (accelerationX p) (accelerationY p) (touchingDown p)
  | SetVelocityY v =>
      mkSprite (x p) (y p) (velocityX p) v (accelerationX p) (accelerationY p) (touchingDown p)
  | SetVelocity vx vy =>
      mkSprite (x p) (y p) vx vy (accelerationX p) (accelerationY p) (touchingDown p)
  | SetPosition px py =>
      mkSprite px py (velocityX p) (velocityY p) (accelerationX p) (accelerationY p)
        (touchingDown p)
  | SetAccelerationX a =>
      mkSprite (x p) (y p) (velocityX p) (velocityY p) a (accelerationY p) (touchingDown p)
  | SetAccelerationY a =>
      mkSprite (x p) (y p) (velocityX p) (velocityY p) (accelerationX p) a (touchingDown p)
  | SetText _ | SetVisible _ => p
  end.

Definition onHintText (c : Call) (h : HintText) : HintText :=
  match c with
  | SetText s => mkHintText s (visible h)
  | SetVisible b => mkHintText (text h) b
  | _ => h
  end.

Definition withPlayer (p : Sprite) (sc : Scene) : Scene :=
  mkScene p (canJump sc) (coinCount sc) (deaths sc) (windZones sc) (hints sc)
    (spawnX sc) (spawnY sc) (hintText sc).

Definition withHintText (h : HintText) (sc : Scene) : Scene :=
  mkScene (player sc) (canJump sc) (coinCount sc) (deaths sc) (windZones sc) (hints sc)
    (spawnX sc) (spawnY sc) h.

Definition withCanJump (b : bool) (sc : Scene) : Scene :=
  mkScene (player sc) b (coinCount sc) (deaths sc) (windZones sc) (hints sc)
    (spawnX sc) (spawnY sc) (hintText sc).

Definition withCoinCount (n : Z) (sc : Scene) : Scene :=
  mkScene (player sc) (canJump sc) n (deaths sc) (windZones sc) (hints sc)
    (spawnX sc) (spawnY sc) (hintText sc).

Definition withDeaths (n : Z) (sc : Scene) : Scene :=
  mkScene (player sc) (canJump sc) (coinCount sc) n (windZones sc) (hints sc)
    (spawnX sc) (spawnY sc) (hintText sc).

Definition withWindZones (zs : list WindZoneData) (sc : Scene) : Scene :=
  mkScene (player sc) (canJump sc) (coinCount sc) (deaths sc) zs (hints sc)
    (spawnX sc) (spawnY sc) (hintText sc).

(** *** Scene methods: state passing with a log of the calls made *)

Definition Method (A : Type) : Type := Scene → A * Scene * list Call.

#[export] Instance method_ret : MRet Method := λ A a sc, (a, sc, []).

#[export] Instance method_bind : MBind Method := λ A B f m sc,
  match m sc with
  | (a, sc1, log1) =>
      match f a sc1 with
      | (b, sc2, log2) => (b, sc2, log1 ++ log2)
      end
  end.

Definition get {A} (field : Scene → A) : Method A := λ sc, (field sc, sc, []).
Definition set (upd : Scene → Scene) : Method unit := λ sc, (tt, upd sc, []).

(** A call on [this.player] or [this.hintText]. *)
Definition call (c : Call) : Method unit := λ sc,
  (tt, withHintText (onHintText c (hintText sc)) (withPlayer (onSprite c (player sc)) sc), [c]).

Definition when (b : bool) (m : Method unit) : Method unit :=
  if b then m else mret tt.

(** Several calls in a row. *)
Definition callAll (cs : list Call) : Method unit :=
  foldr (λ c m, call c ;; m) (mret tt) cs.

Definition sceneAfter {A} (m : Method A) (sc : Scene) : Scene := snd (fst (m sc)).
Definition callsOf {A} (m : Method A) (sc : Scene) : list Call := snd (m sc).

(** [handlePlayerMovement()].  The squash tween and the [setScale] on
    landing only touch the display scale of the sprite, which nothing
    else reads; they are left out. *)
Definition handlePlayerMovement (cursors : CursorKeys) : Method unit :=
  (if isDown (left cursors) then call (SetVelocityX (- PLAYER_SPEED))
   else if isDown (right cursors) then call (SetVelocityX PLAYER_SPEED)
   else call (SetVelocityX 0)) ;;
  onGround ← get (λ sc, touchingDown (player sc));
  jumpFree ← get canJump;
  when (isDown (up cursors) && onGround && jumpFree)
    (call (SetVelocityY JUMP_VELOCITY) ;; set (withCanJump false)) ;;
  when (isUp (up cursors) && onGround)
    (set (withCanJump true)).

(** The containment test of [updateWindZones].  The source compares
    [playerX >= zone.x - zone.width / 2] and so on; both sides are doubled
    here so that [width / 2] stays exact for odd widths. *)
Definition inZone (z : WindZone) (playerX playerY : Z) : bool :=
  (2 * zx z - width z <=? 2 * playerX) &&
  (2 * playerX <=? 2 * zx z + width z) &&
  (2 * zy z - height z <=? 2 * playerY) &&
  (2 * playerY <=? 2 * zy z + height z).

(** The callback of [this.windZones.forEach] for one entry: the entry as
    the callback leaves it, and the calls made on the player. *)
Definition windZoneCallback (delta playerX playerY : Z) (windData : WindZoneData)
    : WindZoneData * list Call :=
  let z := zone windData in
  if negb (inZone z playerX playerY) then (windData, [])
  else
    match type z with
    | constant =>
        (windData,
         [SetAccelerationX (forceX z * WIND_FORCE_MULTIPLIER);
          SetAccelerationY (forceY z * WIND_FORCE_MULTIPLIER)])
    | pulsed =>
        if JS.truthy (pulseDuration z) then
          let p := default 0 (pulseDuration z) in
          let timer := pulseTimer windData + delta in
          let windData' := mkWindZoneData z (active windData) timer in
          let cycle := JS.rem timer (p * 2) in
          if JS.lt cycle p then
            (windData',
             [SetAccelerationX (forceX z * WIND_FORCE_MULTIPLIER);
              SetAccelerationY (forceY z * WIND_FORCE_MULTIPLIER)])
          else (windData', [])
        else (windData, [])
    end.

Fixpoint forEachWindZone (delta : Z) (zs : list WindZoneData) : Method (list WindZoneData) :=
  match zs with
  | [] => mret []
  | windData :: rest =>
      px ← get (λ sc, x (player sc));
      py ← get (λ sc, y (player sc));
      let r := windZoneCallback delta px py windData in
      callAll (snd r) ;;
      rest' ← forEachWindZone delta rest;
      mret (fst r :: rest')
  end.

(** [updateWindZones()], with [this.game.loop.delta] as argument. *)
Definition updateWindZones (delta : Z) : Method unit :=
  zs ← get windZones;
  zs' ← forEachWindZone delta zs;
  set (withWindZones zs').

(** [checkHints()] *)
Definition checkHints : Method unit :=
  d ← get deaths;
  hs ← get hints;
  if (3 <=? d) && (0 <? Z.of_nat (length hs)) then
    let hintIndex := Z.min (d / 3 - 1) (Z.of_nat (length hs) - 1) in
    let hint := JS.index hs hintIndex in
    if JS.truthy_string hint then
      call (SetText (default EmptyString hint)) ;;
      call (SetVisible true)
    else mret tt
  else call (SetVisible false).

(** [update()], for a scene whose level is loaded. *)
Definition update (cursors : CursorKeys) (delta : Z) : Method unit :=
  handlePlayerMovement cursors ;;
  updateWindZones delta ;;
  checkHints.

(** [respawnPlayer()], [hitHazard] and [collectCoin]; the events they emit
    and the coin's tween are left to the event bus and the renderer. *)
Definition respawnPlayer : Method unit :=
  sx ← get spawnX;
  sy ← get spawnY;
  call (SetPosition sx sy) ;;
  call (SetVelocity 0 0).

Definition hitHazard : Method unit :=
  d ← get deaths;
  set (withDeaths (d + 1)) ;;
  respawnPlayer.

Definition collectCoin : Method unit :=
  n ← get coinCount;
  set (withCoinCount (n + 1)).

(** *** Frames *)

(** What the arcade physics step reports to the scene in one frame. *)
Inductive Overlap := CoinOverlap | HazardOverlap.

Definition onOverlap (o : Overlap) : Method unit :=
  match o with
  | CoinOverlap => collectCoin
  | HazardOverlap => hitHazard
  end.

(** One frame of the game loop: the physics step leaves the sprite as
    [body] and runs the overlap callbacks, then the scene's [update]
    runs with the keys and the frame's [delta]. *)
Record Frame := mkFrame {
  body : Sprite;
  overlaps : list Overlap;
  cursors : CursorKeys;
  delta : Z
}.

Definition overlapCallbacks (os : list Overlap) : Method unit :=
  foldr (λ o m, onOverlap o ;; m) (mret tt) os.

Definition frame (f : Frame) : Method unit :=
  set (withPlayer (body f)) ;;
  overlapCallbacks (overlaps f) ;;
  update (cursors f) (delta f).

(** The scenes after each frame of a session, and the calls of each. *)
Fixpoint run (frames : list Frame) (sc : Scene) : list (Scene * list Call) :=
  match frames with
  | [] => []
  | f :: rest =>
      let sc' := sceneAfter (frame f) sc in
      (sc', callsOf (frame f) sc) :: run rest sc'
  end.

Definition finalScene (frames : list Frame) (sc : Scene) : Scene :=
  fold_left (λ s f, sceneAfter (frame f) s) frames sc.

(** A scene as [create()] and [mountLevel()] leave it. *)
Definition createScene (spawn : Z * Z) (zones : list WindZone) (hs : list string) : Scene :=
  {| player := mkSprite (fst spawn) (snd spawn) 0 0 0 0 false;
     canJump := true;
     coinCount := 0;
     deaths := 0;
     windZones := map (λ z, mkWindZoneData z true 0) zones;
     hints := hs;
     spawnX := fst spawn; spawnY := snd spawn;
     hintText := mkHintText EmptyString false |}.

(** *** Notions used to state the properties *)

Definition valueOf {A} (m : Method A) (sc : Scene) : A := fst (fst (m sc)).

(** The jump branch is taken exactly under this condition. *)
Definition jumpCondition (cur : CursorKeys) (sc : Scene) : bool :=
  isDown (up cur) && touchingDown (player sc) && canJump sc.

Definition isSetVelocityY (c : Call) : bool :=
  match c with
  | SetVelocityY _ => true
  | _ => false
  end.

Definition forceCalls (z : WindZone) : list Call :=
  [SetAccelerationX (forceX z * WIND_FORCE_MULTIPLIER);
   SetAccelerationY (forceY z * WIND_FORCE_MULTIPLIER)].

(** The position at which the wind callbacks test containment. *)
Definition zoneStep (delta : Z) (sc : Scene) (windData : WindZoneData)
    : WindZoneData * list Call :=
  windZoneCallback delta (x (player sc)) (y (player sc)) windData.

Definition withAcceleration (ax ay : Z) (sc : Scene) : Scene :=
  withPlayer
    (mkSprite (x (player sc)) (y (player sc)) (velocityX (player sc))
       (velocityY (player sc)) ax ay (touchingDown (player sc))) sc.

(** [sc'] is [sc] up to the acceleration of the sprite. *)
Definition accelOnly (sc sc' : Scene) : Prop :=
  ∃ ax ay, sc' = withAcceleration ax ay sc.

Definition hazardHit (os : list Overlap) : bool :=
  existsb (λ o, match o with HazardOverlap => true | CoinOverlap => false end) os.

Definition afterPhysics (f : Frame) (sc : Scene) : Scene :=
  sceneAfter (overlapCallbacks (overlaps f)) (withPlayer (body f) sc).

Definition afterMovement (f : Frame) (sc : Scene) : Scene :=
  sceneAfter (handlePlayerMovement (cursors f)) (afterPhysics f sc).

Definition afterWind (f : Frame) (sc : Scene) : Scene :=
  sceneAfter (updateWindZones (delta f)) (afterMovement f sc).

(** Where the player stands when [update] runs: a hazard overlap has
    moved it to the spawn point. *)
Definition frameX (f : Frame) (sc : Scene) : Z :=
  if hazardHit (overlaps f) then spawnX sc else x (body f).
Definition frameY (f : Frame) (sc : Scene) : Z :=
  if hazardHit (overlaps f) then spawnY sc else y (body f).

(** The jump fires in frame [f]. *)
Definition jumpFires (f : Frame) (sc : Scene) : bool :=
  isDown (up (cursors f)) && touchingDown (body f) && canJump sc.

(** The number of vertical-velocity changes in a log of calls, and over
    the frames of a session. *)
Definition jumpsIn (log : list Call) : nat := length (filter isSetVelocityY log).

Definition jumpsPerFrame (frames : list Frame) (sc : Scene) : list nat :=
  map (λ r, jumpsIn (snd r)) (run frames sc).

Definition totalJumps (frames : list Frame) (sc : Scene) : nat :=
  sum_list (jumpsPerFrame frames sc).

(** The jump key is down in every frame. *)
Definition heldThroughout (frames : list Frame) : Prop :=
  Forall (λ f, isDown (up (cursors f)) = true) frames.

Definition grounded (f : Frame) : bool := touchingDown (body f).

(** The number of ground contacts of a session: the maximal runs of
    consecutive grounded frames ([before] tells whether the frame before
    the first one was grounded). *)
Fixpoint contactsFrom (before : bool) (frames : list Frame) : nat :=
  match frames with
  | [] => 0
  | f :: rest =>
      ((if grounded f && negb before then 1 else 0) + contactsFrom (grounded f) rest)%nat
  end.

Definition groundContacts (frames : list Frame) : nat := contactsFrom false frames.

(** The force of a pulsed zone of pulse duration [p] is on at timer
    value [t]: the test [cycle < zone.pulseDuration] of the source. *)
Definition windActive (p t : Z) : bool := JS.lt (JS.rem t (p * 2)) p.

(** The time the player spends inside zone [z] over the frames of a
    session: the sum of the [delta] of the frames whose [update] finds
    the player inside. *)
Fixpoint timeInside (z : WindZone) (frames : list Frame) (sc : Scene) : Z :=
  match frames with
  | [] => 0
  | f :: rest =>
      (if inZone z (frameX f sc) (frameY f sc) then delta f else 0)
      + timeInside z rest sc
  end.

(** The index [checkHints] computes. *)
Definition hintIndexFor (d : Z) (hs : list string) : Z :=
  Z.min (d / 3 - 1) (Z.of_nat (length hs) - 1).

(** *** Sessions used as examples *)

(** The session in which the key is held through a jump and the landing
    that follows it. *)
Definition heldKeys : CursorKeys := mkCursorKeys (mkKey false) (mkKey false) (mkKey true).
Definition onFloor : Sprite := mkSprite 100 500 0 0 0 0 true.
Definition inAir : Sprite := mkSprite 100 420 0 (-200) 0 0 false.
Definition heldThroughLanding : list Frame :=
  [mkFrame onFloor [] heldKeys 16; mkFrame inAir [] heldKeys 16;
   mkFrame onFloor [] heldKeys 16].

(** A gust: a pulsed zone of pulse duration 500 around (400, 300), and a
    scene whose player stands in its middle. *)
Definition gust : WindZone := mkWindZone 400 300 200 100 150 0 pulsed (Some 500).
Definition gustScene : Scene := createScene (400, 300) [gust] [].
Definition gustData : WindZoneData := mkWindZoneData gust true 0.
Definition noKeys : CursorKeys := mkCursorKeys (mkKey false) (mkKey false) (mkKey false).
Definition standingInGust : Frame := mkFrame (mkSprite 400 300 0 0 0 0 true) [] noKeys 16.

(** Six deaths in a level whose second hint is the empty string. *)
Definition threeDeaths : Frame :=
  mkFrame (mkSprite 0 0 0 0 0 0 true) [HazardOverlap; HazardOverlap; HazardOverlap] noKeys 16.
Definition afterSixDeaths : Scene :=
  finalScene [threeDeaths; threeDeaths] (createScene (0, 0) [] ["a"%string; EmptyString]).

End MainScene.
(* ===================================================================== *)
(** ** MainScene.ts: a validated document as the scene reads it *)
(* ===================================================================== *)

Module MountLevel.
Import Schema MainScene.

(** A validated document is used at the type [LevelData].  These are the
    typed readings of the parts the scene uses: a property that is not
    of the type its interface declares has no typed reading. *)
Definition numberOf (v : option json) : option Z :=
  match v with Some (JNum n) => Some n | _ => None end.

Definition stringOf (v : option json) : option string :=
  match v with Some (JStr s) => Some s | _ => None end.

Definition arrayOf {A} (item : json → option A) (v : option json) : option (list A) :=
  match v with
  | Some (JArr items) => mapM item items
  | _ => None
  end.

(** [interface Vector2] *)
Definition vector2Of (obj : json) : option (Z * Z) :=
  vx ← numberOf (prop obj "x");
  vy ← numberOf (prop obj "y");
  Some (vx, vy).

(** ['constant' | 'pulsed'] *)
Definition windTypeOf (v : option json) : option WindType :=
  match stringOf v with
  | Some s =>
      if String.eqb s "constant" then Some constant
      else if String.eqb s "pulsed" then Some pulsed
      else None
  | None => None
  end.

(** [interface WindZone]; [pulseDuration] is optional. *)
Definition windZoneOf (obj : json) : option WindZone :=
  wx ← numberOf (prop obj "x");
  wy ← numberOf (prop obj "y");
  w ← numberOf (prop obj "width");
  h ← numberOf (prop obj "height");
  fx ← numberOf (prop obj "forceX");
  fy ← numberOf (prop obj "forceY");
  t ← windTypeOf (prop obj "type");
  Some (mkWindZone wx wy w h fx fy t (numberOf (prop obj "pulseDuration"))).

(** The scene that [create()] builds from [currentLevelData]:
    [createPlayer] puts the player at [playerSpawn], [mountLevel] makes
    one [WindZoneData] per entry of [windZones], and [checkHints] reads
    [hints]. *)
Definition sceneOf (levelData : json) : option Scene :=
  spawn ← (prop levelData "playerSpawn" ≫= vector2Of);
  zones ← arrayOf windZoneOf (prop levelData "windZones");
  hs ← arrayOf (λ h, stringOf (Some h)) (prop levelData "hints");
  Some (createScene spawn zones hs).

End MountLevel.

(* ===================================================================== *)
(** ** MainScene.ts: what a session adds up to *)
(* ===================================================================== *)

Module Play.
Import MainScene.

Definition isHazardOverlap (o : Overlap) : bool :=
  match o with HazardOverlap => true | CoinOverlap => false end.

Definition isCoinOverlap (o : Overlap) : bool :=
  match o with CoinOverlap => true | HazardOverlap => false end.

(** The overlaps the physics reports over a session, and how many of
    them are with a hazard or with a coin. *)
Definition overlapsIn (frames : list Frame) : list Overlap :=
  concat (map overlaps frames).

Definition hazardsIn (frames : list Frame) : Z :=
  Z.of_nat (length (filter isHazardOverlap (overlapsIn frames))).

Definition coinsIn (frames : list Frame) : Z :=
  Z.of_nat (length (filter isCoinOverlap (overlapsIn frames))).

(** The conditions under which the callback of [updateWindZones] reaches
    the two [setAcceleration] calls for an entry, with the player at
    [(px, py)]: inside the zone, and either a constant zone or a pulsed
    one with a truthy pulse duration in the first half of its cycle. *)
Definition blows (delta px py : Z) (windData : WindZoneData) : bool :=
  inZone (zone windData) px py &&
  match type (zone windData), pulseDuration (zone windData) with
  | constant, _ => true
  | pulsed, Some p => negb (p =? 0) && windActive p (pulseTimer windData + delta)
  | pulsed, None => false
  end.

Definition blowing (delta px py : Z) (zs : list WindZoneData) : list WindZoneData :=
  filter (λ windData, blows delta px py windData = true) zs.

Definition force (z : WindZone) : Z * Z :=
  (forceX z * WIND_FORCE_MULTIPLIER, forceY z * WIND_FORCE_MULTIPLIER).

Definition acceleration (p : Sprite) : Z * Z := (accelerationX p, accelerationY p).

Definition isSetAcceleration (c : Call) : bool :=
  match c with
  | SetAccelerationX _ | SetAccelerationY _ => true
  | _ => false
  end.

(** A zone that can never blow: a negative width or height, or a pulsed
    zone without a pulse duration or with one that is not positive. *)
Definition inert (z : WindZone) : bool :=
  (width z <? 0) || (height z <? 0) ||
  match type z, pulseDuration z with
  | pulsed, Some p => p <=? 0
  | pulsed, None => true
  | constant, _ => false
  end.

(** Every zone of the scene is inert and its timer is not negative. *)
Definition quietZones (sc : Scene) : Prop :=
  Forall (λ wd, inert (zone wd) = true ∧ 0 <= pulseTimer wd) (windZones sc).

(** A frame in which the player stands still with no key pressed: the
    physics step hands the sprite over as the scene left it.  (The step
    integrates velocity and position; the acceleration is the scene's to
    set, and the step never changes it.) *)
Definition resting (delta : Z) (sc : Scene) : Frame :=
  mkFrame (player sc) [] noKeys delta.

(** The scene after [n] such frames. *)
Fixpoint standStill (n : nat) (delta : Z) (sc : Scene) : Scene :=
  match n with
  | O => sc
  | S n' => standStill n' delta (sceneAfter (frame (resting delta sc)) sc)
  end.

(** *** Sessions used as examples *)

(** A steady breeze over the gust, pushing the other way. *)
Definition breeze : WindZone := mkWindZone 400 300 400 200 (-60) 0 constant None.
Definition crossWinds : Scene := createScene (400, 300) [breeze; gust] [].

(** A pulsed zone whose pulse duration is negative. *)
Definition backwards : WindZone := mkWindZone 400 300 200 100 150 0 pulsed (Some (-500)).

Definition stillAir : Scene := createScene (400, 300) [backwards] [].

(** The gust after 31 frames of 16 ms with the player standing in it:
    the timer reads 496, the last tick of the first on half. *)
Definition endOfFirstPulse : Scene := standStill 31 16 gustScene.

Definition bothKeys : CursorKeys := mkCursorKeys (mkKey true) (mkKey true) (mkKey false).

(** Two coins and a hazard in one frame, then a quiet frame. *)
Definition shortSession : list Frame :=
  [mkFrame onFloor [CoinOverlap; HazardOverlap; CoinOverlap] bothKeys 16;
   mkFrame inAir [] noKeys 16].

End Play.

(* ===================================================================== *)
(** ** MainScene.ts: reaching the goal *)
(* ===================================================================== *)

Module Playthrough.
Import Schema GameState MainScene Play.

(** [getSelectedLevel()] of the progress store. *)
Definition getSelectedLevel (st : GameStateData) : option string := selectedLevelId st.

(** [reachGoal], for a scene whose level is loaded, with the fields
    [levelId] and [startTime] of the scene and [this.time.now]: the store
    after the call and the payload of the level-completed event, if one
    is emitted.  A [levelId] that is [null] or the empty string is falsy
    and ends the callback at once. *)
Definition reachGoal (levelId : option string) (startTime now : Z) (sc : Scene)
    (st : GameStateData) : GameStateData * option LevelCompletionData :=
  match levelId with
  | Some (String c rest) =>
      let data :=
        mkLevelCompletionData (String c rest) (now - startTime)
          (coinCount sc) (MainScene.deaths sc) in
      (completeLevel (String c rest) data st, Some data)
  | Some EmptyString | None => (st, None)
  end.

(** The scene when the goal callback runs in the physics step of frame
    [f], after the frames [frames]: the callbacks for coins and hazards
    are registered before the one for the goal. *)
Definition atGoal (frames : list Frame) (f : Frame) (sc : Scene) : Scene :=
  afterPhysics f (finalScene frames sc).

(** A playthrough: the level is selected in the menu
    ([App.handleLevelSelected]), [create] reads the selection and builds
    the scene, the frames are played and the goal is reached in the
    physics step of [f]. *)
Definition playthrough (lid : string) (spawn : Z * Z) (zones : list WindZone)
    (hs : list string) (startTime now : Z) (frames : list Frame) (f : Frame)
    (st : GameStateData) : GameStateData * option LevelCompletionData :=
  let st1 := setSelectedLevel (Some lid) st in
  reachGoal (getSelectedLevel st1) startTime now
    (atGoal frames f (createScene spawn zones hs)) st1.

(** The frame in which the example session reaches the goal. *)
Definition lastStep : Frame := mkFrame onFloor [CoinOverlap] noKeys 16.

End Playthrough.

(* ===================================================================== *)
(** ** loadLevel.ts: the level cache and loader *)
(* ===================================================================== *)

Module LoadLevel.
Import Schema.

(** A level object living in the JavaScript heap: [ref] is its identity,
    [doc] its content.  Two values of this type are the same object
    exactly when they are equal. *)
Record LevelData := mkLevelData { ref : positive; doc : json }.

(** The level source: what [import(`./wind/${levelId}.json`)] settles
    to, [None] for a rejected import and otherwise the [default] export
    of the module.  The module system gives one module object per
    specifier, so this is a function of the identifier. *)
Definition Source := string → option LevelData.

(** [levelCache] *)
Abbreviation Cache := (gmap string LevelData).

(** What a call does besides touching the cache. *)
Inductive Effect :=
| Import (levelId : string)
| Validate (data : LevelData)
| ConsoleError (levelId : string).

(** How the promise returned by [loadLevel] settles. *)
Inductive Outcome :=
| Resolved (data : LevelData)
| Rejected (message : string).

(** [`Could not load level ${levelId}`] *)
Definition couldNotLoad (levelId : string) : string :=
  String.append "Could not load level " levelId.

(** [loadLevel] up to its [await]: a cached level is returned at once,
    otherwise the import is issued and the call suspends. *)
Definition loadLevel_begin (levelId : string) (cache : Cache)
    : option LevelData * list Effect :=
  match cache !! levelId with
  | Some data => (Some data, [])
  | None => (None, [Import levelId])
  end.

(** [loadLevel] from its [await] on, given what the import settled to.
    Both a rejected import and the [throw] on invalid data end in the
    [catch] block, which logs and throws the error naming [levelId]. *)
Definition loadLevel_resume (levelId : string) (imported : option LevelData)
    (cache : Cache) : Outcome * Cache * list Effect :=
  match imported with
  | None => (Rejected (couldNotLoad levelId), cache, [ConsoleError levelId])
  | Some levelData =>
      if negb (validateLevelData (doc levelData)) then
        (Rejected (couldNotLoad levelId), cache,
         [Validate levelData; ConsoleError levelId])
      else
        (Resolved levelData, <[levelId := levelData]> cache, [Validate levelData])
  end.

(** A call of [loadLevel] that runs to completion with nothing in
    between. *)
Definition loadLevel (source : Source) (levelId : string) (cache : Cache)
    : Outcome * Cache * list Effect :=
  match loadLevel_begin levelId cache with
  | (Some data, effects) => (Resolved data, cache, effects)
  | (None, effects) =>
      match loadLevel_resume levelId (source levelId) cache with
      | (outcome, cache', effects') => (outcome, cache', effects ++ effects')
      end
  end.

(** [clearLevelCache] *)
Definition clearLevelCache (cache : Cache) : Cache := ∅.

(** [getCachedLevel] *)
Definition getCachedLevel (levelId : string) (cache : Cache) : option LevelData :=
  cache !! levelId.

(** *** Calls in flight

    Several calls may be suspended at their [await] at once (as under
    [preloadLevels]).  The loader's state is the cache together with the
    identifiers of the suspended calls; an action either starts a call or
    lets the import of one suspended call settle. *)
Record Loader := mkLoader { cache : Cache; inFlight : list string }.

Inductive Action :=
| Call (levelId : string)
| Settle (n : nat).              (* the n-th suspended call resumes *)

(** What an action reports: the settled outcome of a call, with the
    identifier it was called with, or nothing yet. *)
Definition Report : Type := option (string * Outcome) * list Effect.

Definition step (source : Source) (a : Action) (l : Loader) : Loader * Report :=
  match a with
  | Call levelId =>
      match loadLevel_begin levelId (cache l) with
      | (Some data, effects) => (l, (Some (levelId, Resolved data), effects))
      | (None, effects) =>
          (mkLoader (cache l) (inFlight l ++ [levelId]), (None, effects))
      end
  | Settle n =>
      match inFlight l !! n with
      | None => (l, (None, []))
      | Some levelId =>
          match loadLevel_resume levelId (source levelId) (cache l) with
          | (outcome, cache', effects) =>
              (mkLoader cache' (delete n (inFlight l)),
               (Some (levelId, outcome), effects))
          end
      end
  end.

Fixpoint steps (source : Source) (actions : list Action) (l : Loader)
    : Loader * list Report :=
  match actions with
  | [] => (l, [])
  | a :: rest =>
      match step source a l with
      | (l1, r) =>
          match steps source rest l1 with
          | (l2, rs) => (l2, r :: rs)
          end
      end
  end.

Definition emptyLoader : Loader := mkLoader ∅ [].

(** Every cached level is the source's object for its identifier and has
    passed validation. *)
Definition cacheSound (source : Source) (c : Cache) : Prop :=
  ∀ levelId data, c !! levelId = Some data →
    source levelId = Some data ∧ validateLevelData (doc data) = true.

(** *** Level documents used as examples *)

Definition coin (cid : string) (cx cy : Z) : json :=
  JObj [("x", JNum cx); ("y", JNum cy); ("id", JStr cid)]%string.

Definition levelDocument (lid : string) (coins : list json) : json :=
  JObj [("id", JStr lid); ("name", JStr "Brisa Suave");
        ("description", JStr "Sua primeira aventura no Mundo do Vento.");
        ("difficulty", JNum 1); ("timeGoalSeconds", JNum 60);
        ("playerSpawn", JObj [("x", JNum 100); ("y", JNum 500)]);
        ("goal", JObj [("x", JNum 700); ("y", JNum 500); ("radius", JNum 32)]);
        ("platforms",
         JArr [JObj [("x", JNum 400); ("y", JNum 568);
                     ("width", JNum 800); ("height", JNum 64)]]);
        ("hazards", JArr []);
        ("collectibles", JArr coins);
        ("windZones",
         JArr [JObj [("x", JNum 400); ("y", JNum 300); ("width", JNum 200);
                     ("height", JNum 100); ("forceX", JNum 150); ("forceY", JNum 0);
                     ("type", JStr "pulsed"); ("pulseDuration", JNum 500)]]);
        ("movingPlatforms", JArr []);
        ("checkpoints", JArr []);
        ("hints", JArr [JStr "h0"; JStr "h1"])]%string.

(** A level with three coins, and one whose two coins share an id. *)
Definition wind_01 : LevelData :=
  mkLevelData 1 (levelDocument "wind_01"
                   [coin "c1" 200 450; coin "c2" 400 250; coin "c3" 600 450]).
Definition twinCoins : LevelData :=
  mkLevelData 2 (levelDocument "wind_02" [coin "c1" 200 450; coin "c1" 600 450]).

(** A level without a goal: validation rejects it. *)
Definition noGoal : LevelData :=
  mkLevelData 3 (JObj [("id", JStr "wind_03"); ("name", JStr "Redemoinhos")]%string).

Definition windSource : Source := λ levelId,
  if String.eqb levelId "wind_01" then Some wind_01
  else if String.eqb levelId "wind_02" then Some twinCoins
  else if String.eqb levelId "wind_03" then Some noGoal
  else None.

(** *** preloadLevels *)

(** [preloadLevels(levelIds)]: [levelIds.map(loadLevel)] starts one call
    per identifier, each running up to its [await]; the calls then
    resume in whatever order their imports settle, given by [schedule]. *)
Definition preloadLevels (source : Source) (levelIds : list string)
    (schedule : list nat) (l : Loader) : Loader * list Report :=
  steps source (map Call levelIds ++ map Settle schedule) l.

(** [Promise.all] over calls that have all settled resolves exactly when
    none of them was rejected. *)
Definition isRejection (r : Report) : bool :=
  match fst r with
  | Some (_, Rejected _) => true
  | _ => false
  end.

Definition preloadResolves (reports : list Report) : bool :=
  forallb (λ r, negb (isRejection r)) reports.

(** The level a call for [levelId] ends up caching: the source's object,
    if there is one and it passes validation. *)
Definition loadable (source : Source) (levelId : string) : option LevelData :=
  match source levelId with
  | Some data => if validateLevelData (doc data) then Some data else None
  | None => None
  end.

End LoadLevel.

(* ===================================================================== *)
(** ** events.ts: the event bus *)
(* ===================================================================== *)

Module EventBus.

(** A callback is a function object, named by its identity. *)
Abbreviation Callback := nat.

(** A payload is passed as the reference it is. *)
Abbreviation Payload := positive.

(** A JavaScript [Set] of callbacks, as ECMA-262 keeps it: the list of
    entries in insertion order, in which a deleted entry leaves an empty
    slot ([None]) so that a running [forEach] keeps its position. *)
Abbreviation CallbackSet := (list (option Callback)).

Definition members (s : CallbackSet) : list Callback := omap id s.

(** [Set.prototype.add]: nothing happens when the value is present,
    otherwise it is appended. *)
Definition add (cb : Callback) (s : CallbackSet) : CallbackSet :=
  if decide (cb ∈ members s) then s else s ++ [Some cb].

(** [Set.prototype.delete]: the entry holding the value is emptied. *)
Definition remove (cb : Callback) (s : CallbackSet) : CallbackSet :=
  map (λ e, if decide (e = Some cb) then None else e) s.

(** [EventBus.events] *)
Abbreviation Events := (gmap string CallbackSet).

(** [on(event, callback)] *)
Definition on (event : string) (callback : Callback) (events : Events) : Events :=
  let events1 :=
    match events !! event with
    | Some _ => events
    | None => <[event := []]> events
    end in
  match events1 !! event with
  | Some callbacks => <[event := add callback callbacks]> events1
  | None => events1
  end.

(** [off(event, callback)] *)
Definition off (event : string) (callback : Callback) (events : Events) : Events :=
  match events !! event with
  | Some callbacks => <[event := remove callback callbacks]> events
  | None => events
  end.

(** [removeAllListeners(event?)]: an absent or empty [event] is falsy and
    clears every key. *)
Definition removeAllListeners (event : option string) (events : Events) : Events :=
  match event with
  | Some (String c rest) => delete (String c rest) events
  | Some EmptyString | None => ∅
  end.

(** The callbacks registered for a key, in registration order. *)
Definition registered (event : string) (events : Events) : list Callback :=
  members (default [] (events !! event)).

(** What a callback may do while it runs, as far as the bus can tell:
    register or remove a callback, emit an event itself, or throw.  A
    [Program] gives the body of every callback, a sequence of such
    steps; a body that comes to its end returns normally.  (A callback
    that calls [removeAllListeners] or assigns to [events] detaches the
    set a running [forEach] walks; such callbacks are not among the
    programs.) *)
Inductive Reentry :=
| DoOn (event : string) (callback : Callback)
| DoOff (event : string) (callback : Callback)
| DoEmit (event : string) (data : Payload)
| DoThrow.

Definition Program := Callback → list Reentry.

(** How a call ends: it returns, or an exception leaves it. *)
Inductive Completion := Returned | Threw.

(** An invocation [callback(data)], with the invocations made by the
    emissions of the callback itself while it ran. *)
#[local] Unset Elimination Schemes.
Inductive Invocation :=
| Invoked (callback : Callback) (data : Payload) (during : list Invocation).
#[local] Set Elimination Schemes.

(** What a call of [emit] does: the bus it leaves, the invocations its
    [forEach] made, in order, and how it ended. *)
Record Emission := mkEmission {
  busAfter : Events;
  invoked : list Invocation;
  completion : Completion
}.

(** The callbacks a [forEach] invoked and the payload each was given. *)
Definition calls (log : list Invocation) : list (Callback * Payload) :=
  map (λ i, match i with Invoked callback data _ => (callback, data) end) log.

(** The body of a callback, run on the bus: its steps in order; [emitNow]
    is the bus's [emit].  Nothing catches an exception, so a step that
    throws, or an emission that does, ends the body. *)
Fixpoint runBody (emitNow : string → Payload → Events → option Emission)
    (body : list Reentry) (events : Events) : option Emission :=
  match body with
  | [] => Some (mkEmission events [] Returned)
  | DoOn event callback :: rest => runBody emitNow rest (on event callback events)
  | DoOff event callback :: rest => runBody emitNow rest (off event callback events)
  | DoEmit event data :: rest =>
      match emitNow event data events with
      | Some (mkEmission events1 log1 Returned) =>
          match runBody emitNow rest events1 with
          | Some (mkEmission events2 log2 c) => Some (mkEmission events2 (log1 ++ log2) c)
          | None => None
          end
      | Some (mkEmission events1 log1 Threw) => Some (mkEmission events1 log1 Threw)
      | None => None
      end
  | DoThrow :: _ => Some (mkEmission events [] Threw)
  end.

(** [callbacks.forEach((callback) => callback(data))] on the set stored
    under [event], from position [index] on.  The loop reads the set as
    it is at each step: entries appended by a callback are reached,
    entries emptied before they are reached are skipped.  [emit] has no
    [try], so a callback that throws ends the loop and the exception
    leaves [emit]: the entries after it are not reached.  [None] when
    [fuel] steps do not finish the loop. *)
Fixpoint forEach (fuel : nat) (program : Program) (event : string) (data : Payload)
    (index : nat) (events : Events) : option Emission :=
  match fuel with
  | O => None
  | S fuel' =>
      match default [] (events !! event) !! index with
      | None => Some (mkEmission events [] Returned)
      | Some None => forEach fuel' program event data (S index) events
      | Some (Some callback) =>
          let emitNow e d ev :=
            match ev !! e with
            | Some _ => forEach fuel' program e d 0 ev
            | None => Some (mkEmission ev [] Returned)
            end in
          match runBody emitNow (program callback) events with
          | Some (mkEmission events1 during Returned) =>
              match forEach fuel' program event data (S index) events1 with
              | Some (mkEmission events2 log c) =>
                  Some (mkEmission events2 (Invoked callback data during :: log) c)
              | None => None
              end
          | Some (mkEmission events1 during Threw) =>
              Some (mkEmission events1 [Invoked callback data during] Threw)
          | None => None
          end
      end
  end.

(** [emit(event, data)] *)
Definition emit (fuel : nat) (program : Program) (event : string) (data : Payload)
    (events : Events) : option Emission :=
  match events !! event with
  | Some _ => forEach fuel program event data 0 events
  | None => Some (mkEmission events [] Returned)
  end.

(** A step that registers or removes a callback, and the event it does
    it for. *)
Definition registers (r : Reentry) : option string :=
  match r with
  | DoOn e _ | DoOff e _ => Some e
  | DoEmit _ _ | DoThrow => None
  end.

(** The bus after a body that only registers and removes callbacks. *)
Definition afterBody (body : list Reentry) (events : Events) : Events :=
  fold_left (λ ev r,
               match r with
               | DoOn e cb => on e cb ev
               | DoOff e cb => off e cb ev
               | DoEmit _ _ | DoThrow => ev
               end) body events.

(** No set holds a callback twice. *)
Definition wellFormed (events : Events) : Prop :=
  ∀ event callbacks, events !! event = Some callbacks → NoDup (members callbacks).

(** A callback that returns normally and, while it runs, neither
    registers or removes a callback for [event] nor emits an event. *)
Definition quiet (program : Program) (event : string) (callback : Callback) : Prop :=
  Forall (λ r, ∃ e, registers r = Some e ∧ e ≠ event) (program callback).

(** The number of slots of the set stored under [event]. *)
Definition slots (event : string) (events : Events) : nat :=
  length (default [] (events !! event)).

(** *** Buses and callbacks used as examples *)

(** Callback 1 registers callback 2 for the event being emitted. *)
Definition lateSubscriber : Program := λ cb,
  match cb with
  | 1%nat => [DoOn "level-completed" 2%nat]
  | _ => []
  end.

(** Callback 1 removes callback 2 from the event being emitted. *)
Definition unsubscriber : Program := λ cb,
  match cb with
  | 1%nat => [DoOff "level-completed" 2%nat]
  | _ => []
  end.

(** Callback 1 removes itself and registers itself again. *)
Definition selfRenewing : Program := λ cb,
  match cb with
  | 1%nat => [DoOff "level-completed" 1%nat; DoOn "level-completed" 1%nat]
  | _ => []
  end.

(** Callback 1 throws. *)
Definition thrower : Program := λ cb,
  match cb with
  | 1%nat => [DoThrow]
  | _ => []
  end.

(** Callback 1 answers a completed level with a game-ready event. *)
Definition announcer : Program := λ cb,
  match cb with
  | 1%nat => [DoEmit "game-ready" 9%positive]
  | _ => []
  end.

(** Callbacks that leave the bus alone. *)
Definition listeners : Program := λ _, [].

Definition oneListener : Events := on "level-completed" 1%nat ∅.
Definition twoListeners : Events :=
  on "level-completed" 2%nat (on "level-completed" 1%nat (on "level-completed" 1%nat ∅)).

(** Callback 1 listens for completed levels, callbacks 2 and 3 for the
    game being ready. *)
Definition twoEvents : Events :=
  on "game-ready" 3%nat (on "game-ready" 2%nat (on "level-completed" 1%nat ∅)).

End EventBus.

(* ===================================================================== *)
(** ** levels/index.ts: the table of levels *)
(* ===================================================================== *)

Module LevelIndex.

(** [interface LevelMetadata] of schema.ts *)
Record LevelMetadata := mkLevelMetadata {
  id : string;
  name : string;
  description : string;
  difficulty : Z;
  timeGoalSeconds : Z
}.

(** [LEVELS_METADATA] *)
Definition LEVELS_METADATA : list LevelMetadata :=
  [ mkLevelMetadata "wind_01" "Brisa Suave"
      "Sua primeira aventura no Mundo do Vento. Aprenda a controlar o personagem." 1 60;
    mkLevelMetadata "wind_02" "Vento Crescente"
      "O vento fica mais forte. Aprenda a lidar com a força do ar." 2 75;
    mkLevelMetadata "wind_03" "Redemoinhos"
      "Redemoinhos de ar criam padrões complexos. Navegue com cuidado." 3 90;
    mkLevelMetadata "wind_04" "Plataformas Flutuantes"
      "Plataformas que flutuam no ar. Não há chão seguro." 4 105;
    mkLevelMetadata "wind_05" "Vórtice Ascendente"
      "Um grande vórtice te puxa para cima. Controle sua subida." 5 120;
    mkLevelMetadata "wind_06" "Tempestade Dupla"
      "Dois ventos opostos criam um padrão caótico." 6 135;
    mkLevelMetadata "wind_07" "Labirinto Aéreo"
      "Navegue por um labirinto suspenso no ar." 7 150;
    mkLevelMetadata "wind_08" "Correntes de Ar"
      "Correntes de ar invisíveis guiam seu caminho." 8 165;
    mkLevelMetadata "wind_09" "Furacão"
      "Um furacão poderoso testa seus limites." 9 180;
    mkLevelMetadata "wind_10" "Dimensão Invertida"
      "A gravidade se comporta de forma estranha aqui." 10 195;
    mkLevelMetadata "wind_11" "Convergência"
      "Todos os ventos convergem em um único ponto." 11 210;
    mkLevelMetadata "wind_12" "Coração do Vento"
      "O desafio final: enfrente o coração do Mundo do Vento." 12 240 ]%string.

(** [arr.findIndex(p)]: the first position at which [p] holds, -1 when
    there is none. *)
Fixpoint findIndexFrom {A} (p : A → bool) (arr : list A) (i : Z) : Z :=
  match arr with
  | [] => -1
  | a :: rest => if p a then i else findIndexFrom p rest (i + 1)
  end.

Definition findIndex {A} (p : A → bool) (arr : list A) : Z := findIndexFrom p arr 0.

(** The functions of index.ts close over [LEVELS_METADATA]; each is given
    here over any table, and then at the table of the source. *)
Section Table.
Variable levels : list LevelMetadata.

Definition hasId (levelId : string) (level : LevelMetadata) : bool :=
  String.eqb (id level) levelId.

(** [getLevelMetadata]: [find] returns the first match. *)
Definition getLevelMetadataIn (levelId : string) : option LevelMetadata :=
  find (hasId levelId) levels.

(** [getLevelsByWorld] *)
Definition getLevelsByWorldIn (world : string) : list LevelMetadata :=
  List.filter (λ level, String.prefix world (id level)) levels.

(** [getTotalLevels] *)
Definition getTotalLevelsIn : Z := Z.of_nat (length levels).

(** [getNextLevel] *)
Definition getNextLevelIn (currentLevelId : string) : option LevelMetadata :=
  let currentIndex := findIndex (hasId currentLevelId) levels in
  if (currentIndex =? -1) || (currentIndex =? Z.of_nat (length levels) - 1) then None
  else JS.index levels (currentIndex + 1).

(** [getPreviousLevel] *)
Definition getPreviousLevelIn (currentLevelId : string) : option LevelMetadata :=
  let currentIndex := findIndex (hasId currentLevelId) levels in
  if currentIndex <=? 0 then None
  else JS.index levels (currentIndex - 1).
End Table.

Definition getLevelMetadata := getLevelMetadataIn LEVELS_METADATA.
Definition getLevelsByWorld := getLevelsByWorldIn LEVELS_METADATA.
Definition getTotalLevels := getTotalLevelsIn LEVELS_METADATA.
Definition getNextLevel := getNextLevelIn LEVELS_METADATA.
Definition getPreviousLevel := getPreviousLevelIn LEVELS_METADATA.

(** The identifiers of a table, in order. *)
Definition idsOf (levels : list LevelMetadata) : list string := map id levels.

(** The first, second and last entries of the source's table. *)
Definition brisaSuave : LevelMetadata :=
  mkLevelMetadata "wind_01" "Brisa Suave"
    "Sua primeira aventura no Mundo do Vento. Aprenda a controlar o personagem." 1 60.
Definition ventoCrescente : LevelMetadata :=
  mkLevelMetadata "wind_02" "Vento Crescente"
    "O vento fica mais forte. Aprenda a lidar com a força do ar." 2 75.
Definition coracaoDoVento : LevelMetadata :=
  mkLevelMetadata "wind_12" "Coração do Vento"
    "O desafio final: enfrente o coração do Mundo do Vento." 12 240.

End LevelIndex.

(* ===================================================================== *)
(** ** Listeners that unsubscribe while the bus emits *)
(* ===================================================================== *)

Module Listeners.
Import EventBus.

#[export] Instance reentry_eq_dec : EqDecision Reentry.
Proof. solve_decision. Defined.

(** [callback] returns normally, emits nothing and, while it runs, does
    nothing to the registrations of [event] but remove itself
    ([EventBus.off(event, callback)]). *)
Definition removesOnlyItself (program : Program) (event : string)
    (callback : Callback) : Prop :=
  Forall (λ r, r = DoOff event callback ∨ ∃ e, registers r = Some e ∧ e ≠ event)
    (program callback).

(** [callback] does not remove itself from [event]. *)
Definition staysOn (program : Program) (event : string) (callback : Callback) : bool :=
  bool_decide (DoOff event callback ∉ program callback).

(** The slot of a callback after the callback has run. *)
Definition slotAfter (program : Program) (event : string)
    (slot : option Callback) : option Callback :=
  match slot with
  | Some callback => if staysOn program event callback then Some callback else None
  | None => None
  end.

(** Callback 1 listens once: it removes itself when it is called. *)
Definition once : Program := λ cb,
  match cb with
  | 1%nat => [DoOff "level-completed" 1%nat]
  | _ => []
  end.

End Listeners.

(* ===================================================================== *)
(** ** Hud.tsx: the overlay that listens to the scene *)
(* ===================================================================== *)

Module Hud.
Import Schema MainScene Play.

(** [interface GameEvents]: an event with its payload. *)
Inductive GameEvent :=
| LevelStarted (id name : string) (totalCollectibles : Z)
| CollectiblePicked (picked total : Z)
| PlayerDied (deaths : Z)
| LevelCompleted (data : LevelCompletionData)
| GameReady
| GamePaused (paused : bool).

(** The state variables of the component. *)
Record HudState := mkHudState {
  coins : Z;
  totalCoins : Z;
  deaths : Z;
  timeMs : Z;
  gameReady : bool;
  levelName : string;
  levelCompleted : bool
}.


Definition handleLevelStarted (name : string) (totalCollectibles : Z)
    (h : HudState) : HudState :=
  mkHudState 0 totalCollectibles 0 0 (gameReady h) name false.

Definition handleCollectiblePicked (picked : Z) (h : HudState) : HudState :=
  mkHudState picked (totalCoins h) (deaths h) (timeMs h) (gameReady h) (levelName h)
    (levelCompleted h).

Definition handlePlayerDied (d : Z) (h : HudState) : HudState :=
  mkHudState (coins h) (totalCoins h) d (timeMs h) (gameReady h) (levelName h)
    (levelCompleted h).

Definition handleLevelCompleted (t : Z) (h : HudState) : HudState :=
  mkHudState (coins h) (totalCoins h) (deaths h) t (gameReady h) (levelName h) true.

Definition handleGameReady (h : HudState) : HudState :=
  mkHudState (coins h) (totalCoins h) (deaths h) (timeMs h) true (levelName h)
    (levelCompleted h).

(** An event reaching the handlers the first effect registers; nothing
    is registered for game-paused. *)
Definition deliver (e : GameEvent) (h : HudState) : HudState :=
  match e with
  | LevelStarted _ name total => handleLevelStarted name total h
  | CollectiblePicked picked _ => handleCollectiblePicked picked h
  | PlayerDied d => handlePlayerDied d h
  | LevelCompleted data => handleLevelCompleted (Schema.timeMs data) h
  | GameReady => handleGameReady h
  | GamePaused _ => h
  end.

(** A firing of the interval of the second effect, which runs only
    while [levelCompleted] is false. *)
Definition tick (h : HudState) : HudState :=
  if levelCompleted h then h
  else mkHudState (coins h) (totalCoins h) (deaths h) (timeMs h + 16) (gameReady h)
         (levelName h) (levelCompleted h).

(** What happens to the mounted component: events and timer firings, in
    the order in which they come. *)
Inductive Input :=
| Event (e : GameEvent)
| Tick.

Definition step (i : Input) (h : HudState) : HudState :=
  match i with
  | Event e => deliver e h
  | Tick => tick h
  end.



(** [s.padStart(targetLength, fill)] for a one-character [fill]. *)
Definition padStart (targetLength : nat) (fill : Ascii.ascii) (s : string) : string :=
  String.string_of_list_ascii (replicate (targetLength - String.length s) fill) +:+ s.

(** [formatTime(ms)] for a whole number of milliseconds: [Math.floor] of
    a quotient is [Z.div], [%] is [Z.rem], and a whole number is printed
    in decimal. *)
Definition formatTime (ms : Z) : string :=
  let seconds := ms / 1000 in
  let minutes := seconds / 60 in
  let secs := Z.rem seconds 60 in
  pretty minutes +:+ ":" +:+ padStart 2 "0"%char (pretty secs).

(** *** The events of the scene *)





(** *** Notions used to state the properties *)





(** The whole seconds a two-character seconds field stands for. *)
Definition readSeconds (field : string) : Z :=
  match field with
  | String a (String b EmptyString) =>
      10 * (Z.of_nat (Ascii.nat_of_ascii a) - 48) + (Z.of_nat (Ascii.nat_of_ascii b) - 48)
  | _ => -1
  end.


End Hud.

(* ===================================================================== *)
(** ** Properties of the progress store *)
(* ===================================================================== *)

Module GameStateProps.
Import Schema GameState.

(** *** Single calls *)

Lemma completeLevel_lookup lid d st :
  getLevelProgress lid (completeLevel lid d st) =
    Some {| levelId := lid;
            completed := true;
            bestTimeMs := Some (min_with_null (getBestTime lid st) (timeMs d));
            bestCollectibles := Z.max (getBestCollectibles lid st) (picked d);
            Schema.totalDeaths := levelDeaths lid st + deaths d |}.
Proof.
  unfold getLevelProgress, completeLevel, getBestTime, getBestCollectibles,
    levelDeaths, currentProgress; simpl.
  rewrite lookup_insert_eq.
  destruct (levelProgress st !! lid) as [p|]; simpl; [|reflexivity].
  destruct (bestTimeMs p); reflexivity.
Qed.

Lemma completeLevel_lookup_ne lid lid' d st :
  lid ≠ lid' →
  getLevelProgress lid' (completeLevel lid d st) = getLevelProgress lid' st.
Proof.
  intros Hne. unfold getLevelProgress, completeLevel; simpl.
  by rewrite lookup_insert_ne.
Qed.

Lemma time_le_refl a : time_le a a.
Proof. destruct a; simpl; [lia | exact I]. Qed.

Lemma time_le_trans a b c : time_le a b → time_le b c → time_le a c.
Proof. destruct a, b, c; simpl; try tauto; lia. Qed.

(** One call never worsens the stored results of any level. *)
Lemma completeLevel_step lid lid' d st :
  time_le (getBestTime lid' (completeLevel lid d st)) (getBestTime lid' st)
  ∧ getBestCollectibles lid' st <= getBestCollectibles lid' (completeLevel lid d st)
  ∧ levelDeaths lid' (completeLevel lid d st) =
      levelDeaths lid' st + (if decide (lid = lid') then deaths d else 0).
Proof.
  destruct (decide (lid = lid')) as [->|Hne].
  - pose proof (completeLevel_lookup lid' d st) as H.
    unfold getLevelProgress in H.
    unfold getBestTime at 1, getBestCollectibles at 2, levelDeaths at 1, currentProgress.
    rewrite H; simpl.
    repeat split; [|lia].
    destruct (getBestTime lid' st); simpl; [lia | exact I].
  - pose proof (completeLevel_lookup_ne lid lid' d st Hne) as H.
    unfold getLevelProgress in H.
    unfold getBestTime, getBestCollectibles, levelDeaths, currentProgress.
    rewrite H. repeat split; [apply time_le_refl | lia | lia].
Qed.

(** *** Histories *)

Lemma completeAll_app l1 l2 st :
  completeAll (l1 ++ l2) st = completeAll l2 (completeAll l1 st).
Proof. apply fold_left_app. Qed.

Lemma completeAll_monotone lid calls : ∀ st,
  time_le (getBestTime lid (completeAll calls st)) (getBestTime lid st)
  ∧ getBestCollectibles lid st <= getBestCollectibles lid (completeAll calls st)
  ∧ levelDeaths lid (completeAll calls st) = levelDeaths lid st + deathsFor lid calls.
Proof.
  induction calls as [|[i d] rest IH]; intros st; simpl.
  - repeat split; [apply time_le_refl | lia | lia].
  - destruct (IH (completeLevel i d st)) as (Ht & Hc & Hd).
    destruct (completeLevel_step i lid d st) as (Ht1 & Hc1 & Hd1).
    repeat split.
    + eapply time_le_trans; eassumption.
    + lia.
    + rewrite Hd, Hd1. lia.
Qed.

Lemma completeAll_totals calls : ∀ st,
  getTotalCoinsCollected (completeAll calls st) =
    getTotalCoinsCollected st + sumPicked calls
  ∧ getTotalDeaths (completeAll calls st) = getTotalDeaths st + sumDeaths calls.
Proof.
  induction calls as [|[i d] rest IH]; intros st; simpl.
  - unfold getTotalCoinsCollected, getTotalDeaths. lia.
  - destruct (IH (completeLevel i d st)) as [Hc Hd].
    rewrite Hc, Hd. unfold getTotalCoinsCollected, getTotalDeaths; simpl. lia.
Qed.

(** Claim C1.  After [completeLevel(id, d)] the record stored for [id] is
    completed, its best time is the minimum of the previous best time
    (null read as +infinity) and [d.timeMs], its best collectible count
    the maximum of the previous one and [d.picked], and its death count
    the previous one plus [d.deaths], with null/0/0 as previous values
    when there was no record.  Hence along any history of completions the
    best time of a level never increases, its best collectible count
    never decreases, and its death count grows by the sum of the
    [d.deaths] passed for that level (from the empty store: equals it). *)
Theorem completeLevel_merge_rule :
  (∀ lid d st,
      getLevelProgress lid (completeLevel lid d st) =
        Some {| levelId := lid;
                completed := true;
                bestTimeMs := Some (min_with_null (getBestTime lid st) (timeMs d));
                bestCollectibles := Z.max (getBestCollectibles lid st) (picked d);
                Schema.totalDeaths := levelDeaths lid st + deaths d |})
  ∧ (∀ lid, getLevelProgress lid initialState = None
            ∧ getBestTime lid initialState = None
            ∧ getBestCollectibles lid initialState = 0
            ∧ levelDeaths lid initialState = 0)
  ∧ (∀ lid earlier later st,
      time_le (getBestTime lid (completeAll (earlier ++ later) st))
              (getBestTime lid (completeAll earlier st))
      ∧ getBestCollectibles lid (completeAll earlier st)
          <= getBestCollectibles lid (completeAll (earlier ++ later) st))
  ∧ (∀ lid calls st,
      levelDeaths lid (completeAll calls st) = levelDeaths lid st + deathsFor lid calls)
  ∧ (∀ lid calls,
      levelDeaths lid (completeAll calls initialState) = deathsFor lid calls).
Proof.
  split; [exact completeLevel_lookup|].
  split; [intros lid; repeat split|].
  split.
  { intros lid earlier later st. rewrite completeAll_app.
    destruct (completeAll_monotone lid later (completeAll earlier st)) as (Ht & Hc & _).
    split; assumption. }
  split.
  { intros lid calls st. apply completeAll_monotone. }
  intros lid calls.
  destruct (completeAll_monotone lid calls initialState) as (_ & _ & Hd).
  rewrite Hd. reflexivity.
Qed.

(** Claim C10.  Every call [completeLevel(id, d)] adds [d.picked] to the
    store-wide coin total and [d.deaths] to the store-wide death total,
    whatever is already recorded for [id]; over a history the totals grow
    by the sums over all calls, so replaying a level adds its coins again
    although the level's best count stays a maximum. *)
Theorem completeLevel_global_totals :
  (∀ lid d st,
      getTotalCoinsCollected (completeLevel lid d st) =
        getTotalCoinsCollected st + picked d
      ∧ getTotalDeaths (completeLevel lid d st) = getTotalDeaths st + deaths d)
  ∧ (∀ calls st,
      getTotalCoinsCollected (completeAll calls st) =
        getTotalCoinsCollected st + sumPicked calls
      ∧ getTotalDeaths (completeAll calls st) = getTotalDeaths st + sumDeaths calls)
  ∧ (∀ lid d st,
      let twice := completeLevel lid d (completeLevel lid d st) in
      getTotalCoinsCollected twice = getTotalCoinsCollected st + 2 * picked d
      ∧ getBestCollectibles lid twice = Z.max (getBestCollectibles lid st) (picked d)).
Proof.
  split; [intros; split; reflexivity|].
  split; [exact completeAll_totals|].
  intros lid d st twice. split.
  - unfold twice, getTotalCoinsCollected; simpl. lia.
  - unfold twice.
    pose proof (completeLevel_lookup lid d (completeLevel lid d st)) as H2.
    pose proof (completeLevel_lookup lid d st) as H1.
    unfold getLevelProgress in *.
    unfold getBestCollectibles at 1. rewrite H2; simpl.
    unfold getBestCollectibles at 1. rewrite H1; simpl. lia.
Qed.

End GameStateProps.

(* ===================================================================== *)
(** ** Properties of validation and of the level loader *)
(* ===================================================================== *)

Module LoadLevelProps.
Import Schema LoadLevel.

(** *** What validation establishes of the collectibles *)

Lemma isNumber_inv v : isNumber v = true → ∃ n, v = Some (JNum n).
Proof. destruct v as [[]|]; try discriminate. eauto. Qed.

Lemma isString_inv v : isString v = true → ∃ s, v = Some (JStr s).
Proof. destruct v as [[]|]; try discriminate. eauto. Qed.

Lemma isCollectible_inv c :
  isCollectible (Some c) = true → wellTypedCollectible c.
Proof.
  unfold isCollectible, wellTypedCollectible.
  destruct (negb _); [discriminate|]. simpl.
  intros H. apply andb_true_iff in H as [H Hid]. apply andb_true_iff in H as [Hx Hy].
  destruct (isNumber_inv _ Hx) as [cx Hcx].
  destruct (isNumber_inv _ Hy) as [cy Hcy].
  destruct (isString_inv _ Hid) as [cid Hcid].
  exists cx, cy, cid. auto.
Qed.

Lemma every_inv p v :
  every p v = true →
  ∃ items, v = Some (JArr items) ∧ Forall (λ item, p (Some item) = true) items.
Proof.
  destruct v as [[]|]; try discriminate. simpl. intros H.
  eexists. split; [reflexivity|]. apply Forall_forall. intros item Hin.
  apply (proj1 (forallb_forall _ _) H). apply list_elem_of_In, Hin.
Qed.

Lemma validateLevelData_collectibles data :
  validateLevelData data = true →
  ∃ items, prop data "collectibles" = Some (JArr items)
           ∧ Forall wellTypedCollectible items.
Proof.
  unfold validateLevelData.
  destruct (negb _); [discriminate|].
  destruct (_ || _); [discriminate|].
  destruct (_ || _); [discriminate|].
  destruct (negb (every isPlatform _) || _ || _ || _ || _ || _ || _) eqn:E;
    [discriminate|]. intros _.
  repeat (apply orb_false_iff in E as [E ?]).
  match goal with
  | H : negb (every isCollectible _) = false |- _ => apply negb_false_iff in H;
      destruct (every_inv _ _ H) as (items & Hf & Hall)
  end.
  exists items. split; [exact Hf|].
  eapply Forall_impl; [exact Hall|]. intros c Hc. apply isCollectible_inv, Hc.
Qed.

(** *** The loader *)

Lemma loadLevel_hit source levelId c data :
  c !! levelId = Some data →
  loadLevel source levelId c = (Resolved data, c, []).
Proof. intros H. unfold loadLevel, loadLevel_begin. rewrite H. reflexivity. Qed.

Lemma loadLevel_resume_resolved levelId imported c data c' effects :
  loadLevel_resume levelId imported c = (Resolved data, c', effects) →
  imported = Some data ∧ validateLevelData (doc data) = true
  ∧ c' = <[levelId := data]> c ∧ effects = [Validate data].
Proof.
  unfold loadLevel_resume. destruct imported as [obj|]; [|discriminate].
  destruct (validateLevelData (doc obj)) eqn:E; simpl; [|discriminate].
  intros H. injection H as <- <- <-. repeat split. exact E.
Qed.

Lemma loadLevel_resume_rejected levelId imported c message c' effects :
  loadLevel_resume levelId imported c = (Rejected message, c', effects) →
  message = couldNotLoad levelId ∧ c' = c
  ∧ (imported = None
     ∨ ∃ obj, imported = Some obj ∧ validateLevelData (doc obj) = false).
Proof.
  unfold loadLevel_resume. destruct imported as [obj|].
  - destruct (validateLevelData (doc obj)) eqn:E; simpl; [discriminate|].
    intros H. injection H as <- <- <-. repeat split. right. eauto.
  - intros H. injection H as <- <- <-. repeat split. left. reflexivity.
Qed.

Lemma loadLevel_resume_fails levelId imported c :
  imported = None ∨ (∃ obj, imported = Some obj ∧ validateLevelData (doc obj) = false) →
  ∃ effects,
    loadLevel_resume levelId imported c = (Rejected (couldNotLoad levelId), c, effects).
Proof.
  intros [-> | (obj & -> & Hv)]; unfold loadLevel_resume.
  - eauto.
  - rewrite Hv. simpl. eauto.
Qed.

Lemma loadLevel_resolved source levelId c data c' effects :
  loadLevel source levelId c = (Resolved data, c', effects) →
  c' !! levelId = Some data.
Proof.
  unfold loadLevel, loadLevel_begin.
  destruct (c !! levelId) as [d|] eqn:E.
  - intros H. injection H as <- <- <-. exact E.
  - destruct (loadLevel_resume levelId (source levelId) c) as [[o c1] e1] eqn:R.
    intros H. injection H as -> <- <-.
    apply loadLevel_resume_resolved in R as (_ & _ & -> & _).
    apply lookup_insert_eq.
Qed.

(** The message names the level: it determines the identifier. *)
Lemma couldNotLoad_inj a b : couldNotLoad a = couldNotLoad b → a = b.
Proof. unfold couldNotLoad. intros H. injection H as H. exact H. Qed.

(** *** Calls in flight *)

Lemma cacheSound_empty source : cacheSound source ∅.
Proof. intros levelId data H. rewrite lookup_empty in H. discriminate. Qed.

Lemma step_cache source a l l' r :
  cacheSound source (cache l) → step source a l = (l', r) →
  cacheSound source (cache l')
  ∧ (∀ levelId data, cache l !! levelId = Some data → cache l' !! levelId = Some data).
Proof.
  intros Hs. destruct a as [levelId | n]; simpl.
  - destruct (loadLevel_begin levelId (cache l)) as [[d|] e];
      intros H; injection H as <- <-; simpl; auto.
  - destruct (inFlight l !! n) as [levelId|]; [|intros H; injection H as <- <-; auto].
    destruct (loadLevel_resume levelId (source levelId) (cache l)) as [[o c1] e1] eqn:R.
    intros H. injection H as <- <-. simpl.
    destruct o as [data | message].
    + apply loadLevel_resume_resolved in R as (Hsrc & Hv & -> & _).
      split.
      * intros i d Hi. destruct (decide (levelId = i)) as [<-|Hne].
        -- rewrite lookup_insert_eq in Hi. injection Hi as <-. auto.
        -- rewrite lookup_insert_ne in Hi by exact Hne. apply Hs, Hi.
      * intros i d Hi. destruct (decide (levelId = i)) as [<-|Hne].
        -- rewrite lookup_insert_eq. destruct (Hs _ _ Hi) as [Hsrc' _]. congruence.
        -- rewrite lookup_insert_ne by exact Hne. exact Hi.
    + apply loadLevel_resume_rejected in R as (_ & -> & _). auto.
Qed.

Lemma steps_cache source actions : ∀ l l' rs,
  cacheSound source (cache l) → steps source actions l = (l', rs) →
  cacheSound source (cache l')
  ∧ (∀ levelId data, cache l !! levelId = Some data → cache l' !! levelId = Some data).
Proof.
  induction actions as [|a rest IH]; intros l l' rs Hs; simpl.
  - intros H. injection H as <- <-. auto.
  - destruct (step source a l) as [l1 r] eqn:E1.
    destruct (steps source rest l1) as [l2 rs'] eqn:E2.
    intros H. injection H as <- <-.
    destruct (step_cache _ _ _ _ _ Hs E1) as [Hs1 Hk1].
    destruct (IH _ _ _ Hs1 E2) as [Hs2 Hk2]. auto.
Qed.

Lemma step_resolved source a l l' levelId data effects :
  step source a l = (l', (Some (levelId, Resolved data), effects)) →
  cache l' !! levelId = Some data.
Proof.
  destruct a as [i | n]; simpl.
  - unfold loadLevel_begin. destruct (cache l !! i) as [d|] eqn:E; simpl.
    + intros H. injection H as <- <- <- <-. exact E.
    + discriminate.
  - destruct (inFlight l !! n) as [i|]; [|discriminate].
    destruct (loadLevel_resume i (source i) (cache l)) as [[o c1] e1] eqn:R.
    intros H. injection H as <- <- -> <-. simpl.
    apply loadLevel_resume_resolved in R as (_ & _ & -> & _).
    apply lookup_insert_eq.
Qed.

(** *** The claims on validation and loading *)

(** Claim C7, as stated, fails: the document whose two collectibles both
    have the id c1 passes validation and is what [loadLevel] returns. *)
Lemma duplicate_collectible_ids_accepted :
  validateLevelData (doc twinCoins) = true
  ∧ collectibleIds (doc twinCoins) = [Some "c1"; Some "c1"]%string
  ∧ ¬ NoDup (collectibleIds (doc twinCoins))
  ∧ fst (fst (loadLevel windSource "wind_02" ∅)) = Resolved twinCoins.
Proof.
  split; [reflexivity|]. split; [reflexivity|]. split; [|reflexivity].
  intros H. inversion H as [|? ? Hnin _]. apply Hnin. left.
Qed.

(** Claim C7, amended.  Every document accepted by [validateLevelData],
    and so every level [loadLevel] returns, has a [collectibles] array
    whose every entry has a numeric [x] and [y] and a string [id].  The
    ids are not compared with one another. *)
Theorem accepted_collectibles_are_typed :
  (∀ data,
      validateLevelData data = true →
      ∃ items, prop data "collectibles" = Some (JArr items)
               ∧ Forall wellTypedCollectible items)
  ∧ (∀ source levelId c data c' effects,
      cacheSound source c →
      loadLevel source levelId c = (Resolved data, c', effects) →
      validateLevelData (doc data) = true
      ∧ Forall wellTypedCollectible (collectiblesOf (doc data))).
Proof.
  split; [exact validateLevelData_collectibles|].
  intros source levelId c data c' effects Hs Hl.
  assert (Hv : validateLevelData (doc data) = true).
  { unfold loadLevel, loadLevel_begin in Hl.
    destruct (c !! levelId) as [d|] eqn:E.
    - injection Hl as <- <- <-. apply (Hs _ _ E).
    - destruct (loadLevel_resume levelId (source levelId) c) as [[o c1] e1] eqn:R.
      injection Hl as -> <- <-.
      apply loadLevel_resume_resolved in R as (_ & Hv & _). exact Hv. }
  split; [exact Hv|].
  destruct (validateLevelData_collectibles _ Hv) as (items & Hp & Hall).
  unfold collectiblesOf. rewrite Hp. exact Hall.
Qed.

(** The amended claim on the level with three coins. *)
Lemma accepted_collectibles_are_typed_witness :
  Forall wellTypedCollectible (collectiblesOf (doc wind_01)).
Proof.
  destruct accepted_collectibles_are_typed as [_ H].
  apply (H windSource "wind_01"%string ∅ wind_01
           (<["wind_01"%string := wind_01]> ∅) [Import "wind_01"; Validate wind_01]).
  - apply cacheSound_empty.
  - reflexivity.
Defined.

(** Claim C5.  Once a call [loadLevel(id)] has resolved with a level, a
    later call for the same id resolves with the very same object (same
    reference) without importing and without validating: it has no
    effect besides reading the cache.  This holds for a call made right
    after the first one and for one made after any number of further
    calls have started or settled in between. *)
Theorem load_is_cached :
  (∀ source levelId c data c' effects,
      loadLevel source levelId c = (Resolved data, c', effects) →
      loadLevel source levelId c' = (Resolved data, c', []))
  ∧ (∀ source l first l1 effects levelId data between l2 reports,
      cacheSound source (cache l) →
      step source first l = (l1, (Some (levelId, Resolved data), effects)) →
      steps source between l1 = (l2, reports) →
      step source (Call levelId) l2 = (l2, (Some (levelId, Resolved data), []))).
Proof.
  split.
  - intros source levelId c data c' effects H.
    apply loadLevel_hit. eapply loadLevel_resolved, H.
  - intros source l first l1 effects levelId data between l2 reports Hs H1 H2.
    destruct (step_cache _ _ _ _ _ Hs H1) as [Hs1 _].
    destruct (steps_cache _ _ _ _ _ Hs1 H2) as [_ Hk].
    pose proof (Hk _ _ (step_resolved _ _ _ _ _ _ _ H1)) as Hc.
    simpl. unfold loadLevel_begin. rewrite Hc. reflexivity.
Qed.

(** A call made while an earlier call for the same level is still
    suspended does import again: the cache is filled on resumption. *)
Lemma call_in_flight_imports_again :
  step windSource (Call "wind_01") (mkLoader ∅ ["wind_01"%string]) =
    (mkLoader ∅ ["wind_01"; "wind_01"]%string, (None, [Import "wind_01"])).
Proof. reflexivity. Qed.

(** The claim on two loads of wind_01 from an empty cache. *)
Lemma load_is_cached_witness :
  loadLevel windSource "wind_01" (<["wind_01"%string := wind_01]> ∅) =
    (Resolved wind_01, <["wind_01"%string := wind_01]> ∅, []).
Proof.
  destruct load_is_cached as [H _].
  apply (H windSource "wind_01"%string ∅ wind_01 _
           [Import "wind_01"; Validate wind_01]).
  reflexivity.
Defined.

(** Claim C6.  When the import is rejected or the imported document fails
    validation, the call is rejected with the error whose message is
    [Could not load level] followed by the identifier (which the message
    determines); it yields no level, and the cache is left as it was,
    without an entry for the identifier. *)
Theorem failed_load_caches_nothing :
  (∀ levelId imported c,
      imported = None
      ∨ (∃ obj, imported = Some obj ∧ validateLevelData (doc obj) = false) →
      ∃ effects,
        loadLevel_resume levelId imported c =
          (Rejected (couldNotLoad levelId), c, effects))
  ∧ (∀ source levelId c,
      c !! levelId = None →
      source levelId = None
      ∨ (∃ obj, source levelId = Some obj ∧ validateLevelData (doc obj) = false) →
      ∃ effects,
        loadLevel source levelId c = (Rejected (couldNotLoad levelId), c, effects))
  ∧ (∀ source levelId c message c' effects,
      loadLevel source levelId c = (Rejected message, c', effects) →
      message = couldNotLoad levelId ∧ c' = c ∧ c' !! levelId = None)
  ∧ (∀ a b, couldNotLoad a = couldNotLoad b → a = b)
  ∧ (∀ source l n l' levelId message effects,
      cacheSound source (cache l) →
      step source (Settle n) l = (l', (Some (levelId, Rejected message), effects)) →
      message = couldNotLoad levelId ∧ cache l' = cache l
      ∧ cache l' !! levelId = None).
Proof.
  split; [exact loadLevel_resume_fails|].
  split.
  { intros source levelId c Hc Hfail.
    destruct (loadLevel_resume_fails levelId _ c Hfail) as [effects He].
    exists (Import levelId :: effects).
    unfold loadLevel, loadLevel_begin. rewrite Hc, He. reflexivity. }
  split.
  { intros source levelId c message c' effects.
    unfold loadLevel, loadLevel_begin.
    destruct (c !! levelId) as [d|] eqn:E; [discriminate|].
    destruct (loadLevel_resume levelId (source levelId) c) as [[o c1] e1] eqn:R.
    intros H. injection H as -> <- <-.
    apply loadLevel_resume_rejected in R as (-> & -> & _). auto. }
  split; [exact couldNotLoad_inj|].
  intros source l n l' levelId message effects Hs. simpl.
  destruct (inFlight l !! n) as [i|]; [|discriminate].
  destruct (loadLevel_resume i (source i) (cache l)) as [[o c1] e1] eqn:R.
  intros H. injection H as <- <- -> <-. simpl.
  apply loadLevel_resume_rejected in R as (-> & -> & Hwhy).
  repeat split.
  destruct (cache l !! i) as [d|] eqn:E; [|reflexivity].
  destruct (Hs _ _ E) as [Hsrc Hv].
  destruct Hwhy as [Hn | (obj & Ho & Hbad)]; congruence.
Qed.

(** The claim on a level that is not there and on one that fails
    validation. *)
Lemma failed_load_caches_nothing_witness :
  (∃ effects,
     loadLevel windSource "wind_99" ∅ = (Rejected (couldNotLoad "wind_99"), ∅, effects))
  ∧ (∃ effects,
       loadLevel windSource "wind_03" ∅ = (Rejected (couldNotLoad "wind_03"), ∅, effects)).
Proof.
  destruct failed_load_caches_nothing as (_ & H & _).
  split.
  - apply H; [reflexivity | left; reflexivity].
  - apply H; [reflexivity | right; exists noGoal; split; reflexivity].
Defined.

End LoadLevelProps.

(* ===================================================================== *)
(** ** Properties of the event bus *)
(* ===================================================================== *)

Module EventBusProps.
Import EventBus.

(** *** Sets of callbacks *)

Lemma members_app s t : members (s ++ t) = members s ++ members t.
Proof. apply omap_app. Qed.

Lemma members_add cb s :
  members (add cb s) = if decide (cb ∈ members s) then members s else members s ++ [cb].
Proof.
  unfold add. destruct (decide (cb ∈ members s)); [reflexivity|].
  rewrite members_app. reflexivity.
Qed.

Lemma members_remove cb s :
  members (remove cb s) = filter (λ c, c ≠ cb) (members s).
Proof.
  induction s as [|[c|] s IH]; simpl; [reflexivity| |exact IH].
  unfold members in *. simpl.
  destruct (decide (Some c = Some cb)) as [E|N]; simpl.
  - injection E as ->. rewrite filter_cons_False by (intros H; apply H; reflexivity).
    exact IH.
  - rewrite filter_cons_True by congruence. simpl. f_equal. exact IH.
Qed.

(** *** Registration *)

Lemma on_lookup event cb events :
  on event cb events !! event = Some (add cb (default [] (events !! event))).
Proof.
  unfold on. destruct (events !! event) as [s|] eqn:E.
  - rewrite E. apply lookup_insert_eq.
  - rewrite lookup_insert_eq. apply lookup_insert_eq.
Qed.

Lemma on_lookup_ne event event' cb events :
  event ≠ event' → on event cb events !! event' = events !! event'.
Proof.
  intros Hne. unfold on. destruct (events !! event) as [s|] eqn:E.
  - rewrite E. apply lookup_insert_ne, Hne.
  - rewrite lookup_insert_eq. rewrite !lookup_insert_ne by exact Hne. reflexivity.
Qed.

Lemma registered_on event cb events :
  registered event (on event cb events) =
    if decide (cb ∈ registered event events) then registered event events
    else registered event events ++ [cb].
Proof. unfold registered. rewrite on_lookup. simpl. apply members_add. Qed.

Lemma registered_on_ne event event' cb events :
  event ≠ event' → registered event' (on event cb events) = registered event' events.
Proof.
  intros Hne. unfold registered. rewrite on_lookup_ne by exact Hne. reflexivity.
Qed.

Lemma off_lookup event cb events :
  off event cb events !! event = remove cb <$> events !! event.
Proof.
  unfold off. destruct (events !! event) as [s|] eqn:E.
  - rewrite lookup_insert_eq. reflexivity.
  - exact E.
Qed.

Lemma registered_off event cb events :
  registered event (off event cb events) =
    filter (λ c, c ≠ cb) (registered event events).
Proof.
  unfold registered. rewrite off_lookup.
  destruct (events !! event) as [s|]; simpl; [apply members_remove | reflexivity].
Qed.

Lemma registered_off_ne event event' cb events :
  event ≠ event' → registered event' (off event cb events) = registered event' events.
Proof.
  intros Hne. unfold registered, off. destruct (events !! event) as [s|]; [|reflexivity].
  rewrite lookup_insert_ne by exact Hne. reflexivity.
Qed.

(** *** No callback is held twice *)

Lemma wellFormed_registered events event :
  wellFormed events → NoDup (registered event events).
Proof.
  intros Hwf. unfold registered. destruct (events !! event) as [s|] eqn:E; simpl.
  - apply (Hwf _ _ E).
  - constructor.
Qed.

Lemma wellFormed_by_registered events :
  (∀ event, NoDup (registered event events)) → wellFormed events.
Proof.
  intros H event s E. specialize (H event). unfold registered in H.
  rewrite E in H. exact H.
Qed.

Lemma wellFormed_empty : wellFormed ∅.
Proof. intros event s H. rewrite lookup_empty in H. discriminate. Qed.

Lemma wellFormed_on event cb events : wellFormed events → wellFormed (on event cb events).
Proof.
  intros Hwf. apply wellFormed_by_registered. intros e.
  destruct (decide (event = e)) as [<-|Hne].
  - rewrite registered_on. pose proof (wellFormed_registered events event Hwf) as Hnd.
    destruct (decide (cb ∈ registered event events)) as [Hin|Hnin]; [exact Hnd|].
    apply NoDup_app. split; [exact Hnd|]. split.
    + intros c Hc Hc'. apply list_elem_of_singleton in Hc'. subst. contradiction.
    + apply NoDup_singleton.
  - rewrite registered_on_ne by exact Hne. apply wellFormed_registered, Hwf.
Qed.

Lemma wellFormed_off event cb events : wellFormed events → wellFormed (off event cb events).
Proof.
  intros Hwf. apply wellFormed_by_registered. intros e.
  destruct (decide (event = e)) as [<-|Hne].
  - rewrite registered_off. apply NoDup_filter, wellFormed_registered, Hwf.
  - rewrite registered_off_ne by exact Hne. apply wellFormed_registered, Hwf.
Qed.

(** *** Emission *)

(** A body that only registers and removes callbacks runs to its end,
    whatever the bus's [emit] would do. *)
Lemma runBody_registers emitNow body : ∀ events,
  Forall (λ r, is_Some (registers r)) body →
  runBody emitNow body events = Some (mkEmission (afterBody body events) [] Returned).
Proof.
  induction body as [|r body IH]; intros events Hreg; [reflexivity|].
  inversion Hreg as [|? ? [e Hr] Hrest]; subst.
  destruct r; try discriminate; simpl; apply IH, Hrest.
Qed.

Lemma afterBody_other body event : ∀ events,
  Forall (λ r, ∃ e, registers r = Some e ∧ e ≠ event) body →
  afterBody body events !! event = events !! event.
Proof.
  induction body as [|r body IH]; intros events Hq; [reflexivity|].
  inversion Hq as [|? ? (e & Hr & Hne) Hrest]; subst. simpl.
  unfold afterBody in IH. rewrite IH by exact Hrest.
  destruct r; try discriminate; injection Hr as ->.
  - apply on_lookup_ne, Hne.
  - unfold off. destruct (events !! e) as [s|]; [|reflexivity].
    apply lookup_insert_ne, Hne.
Qed.

Lemma quiet_registers (body : list Reentry) event :
  Forall (λ r, ∃ e, registers r = Some e ∧ e ≠ event) body →
  Forall (λ r, is_Some (registers r)) body.
Proof.
  intros H. eapply Forall_impl; [exact H|]. intros r (e & Hr & _). eauto.
Qed.

Lemma forEach_quiet program event data fuel : ∀ index events,
  (∀ cb, cb ∈ registered event events → quiet program event cb) →
  (slots event events - index < fuel)%nat →
  ∃ events',
    forEach fuel program event data index events =
      Some (mkEmission events'
              (map (λ cb, Invoked cb data [])
                 (members (drop index (default [] (events !! event)))))
              Returned)
    ∧ events' !! event = events !! event.
Proof.
  induction fuel as [|fuel IH]; intros index events Hq Hfuel; [lia|].
  cbn [forEach]. unfold slots in Hfuel.
  destruct (default [] (events !! event) !! index) as [[cb|]|] eqn:E.
  - assert (Hin : cb ∈ registered event events).
    { unfold registered, members. apply list_elem_of_omap.
      exists (Some cb). split; [|reflexivity].
      apply list_elem_of_lookup. eauto. }
    pose proof (afterBody_other (program cb) event events (Hq cb Hin)) as Hsame.
    cbv zeta.
    rewrite (runBody_registers _ (program cb) events (quiet_registers _ _ (Hq cb Hin))).
    destruct (IH (S index) (afterBody (program cb) events)) as (events' & Hrun & Hev).
    { intros c Hc. apply Hq. unfold registered in *. rewrite Hsame in Hc. exact Hc. }
    { unfold slots. rewrite Hsame.
      pose proof (lookup_lt_Some _ _ _ E). lia. }
    exists events'. rewrite Hrun, Hsame. split; [|congruence].
    rewrite (drop_S _ _ _ E). reflexivity.
  - destruct (IH (S index) events Hq) as (events' & Hrun & Hev).
    { unfold slots. pose proof (lookup_lt_Some _ _ _ E). lia. }
    exists events'. rewrite Hrun. split; [|exact Hev].
    rewrite (drop_S _ _ _ E). reflexivity.
  - exists events. split; [|reflexivity].
    rewrite drop_ge by (apply lookup_ge_None, E). reflexivity.
Qed.

Lemma emit_quiet program event data fuel events :
  (∀ cb, cb ∈ registered event events → quiet program event cb) →
  (slots event events < fuel)%nat →
  ∃ events',
    emit fuel program event data events =
      Some (mkEmission events' (map (λ cb, Invoked cb data []) (registered event events))
              Returned)
    ∧ registered event events' = registered event events.
Proof.
  intros Hq Hfuel. unfold emit.
  destruct (events !! event) as [s|] eqn:E.
  - destruct (forEach_quiet program event data fuel 0 events Hq) as (events' & Hrun & Hev);
      [lia|].
    exists events'. rewrite Hrun. unfold registered. rewrite Hev, E. simpl.
    split; reflexivity.
  - exists events. unfold registered. rewrite E. split; reflexivity.
Qed.

(** *** Callbacks that touch the bus while it emits *)

Lemma remove_last k cb :
  remove cb (replicate k None ++ [Some cb]) = replicate (S k) None.
Proof.
  induction k as [|k IH]; simpl.
  - destruct (decide (Some cb = Some cb)); [reflexivity|contradiction].
  - destruct (decide (None = Some cb)); [discriminate|]. f_equal. exact IH.
Qed.

Lemma members_empty_slots k : members (replicate k None) = [].
Proof. induction k as [|k IH]; [reflexivity|exact IH]. Qed.

(** The set of a callback that renews itself only grows: the callback
    is always one slot ahead of the loop. *)
Lemma selfRenewing_forEach data fuel : ∀ k,
  forEach fuel selfRenewing "level-completed" data k
    (<["level-completed"%string := replicate k None ++ [Some 1%nat]]> ∅) = None.
Proof.
  induction fuel as [|fuel IH]; intros k; [reflexivity|].
  cbn [forEach]. rewrite lookup_insert_eq. simpl default.
  rewrite lookup_app_r by (rewrite length_replicate; lia).
  rewrite length_replicate, Nat.sub_diag. simpl lookup.
  assert (Hbody : afterBody (selfRenewing 1%nat)
                    (<["level-completed"%string := replicate k None ++ [Some 1%nat]]> ∅)
                  = <["level-completed"%string := replicate (S k) None ++ [Some 1%nat]]> ∅).
  { unfold afterBody. cbn [selfRenewing fold_left].
    unfold off. rewrite lookup_insert_eq. cbv iota.
    rewrite insert_insert_eq, remove_last.
    unfold on. rewrite lookup_insert_eq. cbv iota zeta.
    rewrite lookup_insert_eq, insert_insert_eq.
    unfold add. rewrite members_empty_slots.
    destruct (decide (1%nat ∈ [])) as [Hin|_]; [inversion Hin|reflexivity]. }
  cbv iota zeta.
  rewrite runBody_registers by (repeat constructor; eauto).
  rewrite Hbody, IH. reflexivity.
Qed.

(** *** The claim on emission *)

(** Claim C8, as stated, fails: [forEach] walks the live set, and [emit]
    catches nothing.  A callback registered by an earlier callback during
    the emission is invoked in that same emission although it was not
    registered when the emission began, and a callback removed by an
    earlier callback is not invoked although it was; a callback that
    removes and registers itself again is invoked over and over, and the
    emission never ends; and when a callback throws, the callbacks
    registered after it are not invoked. *)
Lemma emit_walks_the_live_set :
  registered "level-completed" oneListener = [1%nat]
  ∧ (λ r, calls (invoked r)) <$> emit 5 lateSubscriber "level-completed" 7%positive oneListener
      = Some [(1%nat, 7%positive); (2%nat, 7%positive)]
  ∧ registered "level-completed" twoListeners = [1%nat; 2%nat]
  ∧ (λ r, calls (invoked r)) <$> emit 5 unsubscriber "level-completed" 7%positive twoListeners
      = Some [(1%nat, 7%positive)]
  ∧ (∀ fuel, emit fuel selfRenewing "level-completed" 7%positive oneListener = None)
  ∧ emit 5 thrower "level-completed" 7%positive twoListeners
      = Some (mkEmission twoListeners [Invoked 1%nat 7%positive []] Threw).
Proof.
  split; [vm_compute; reflexivity|].
  split; [vm_compute; reflexivity|].
  split; [vm_compute; reflexivity|].
  split; [vm_compute; reflexivity|].
  split; [|vm_compute; reflexivity].
  intros fuel. unfold emit, oneListener. rewrite on_lookup.
  apply (selfRenewing_forEach 7%positive fuel 0).
Qed.

(** Claim C8, amended.  Provided the callbacks registered for [e] return
    normally and, while they run, neither register or remove callbacks
    for [e] nor emit events themselves, [emit(e, d)] terminates and
    returns normally, invokes exactly the callbacks registered for [e]
    when it is called, in registration order, each with the same payload
    reference [d], and leaves the registrations for [e] as they were.  No
    callback is registered twice for a key, so each is invoked once:
    registering a callback again changes nothing, registering a new one
    puts it last, [off] removes it, and registrations under other keys
    are not affected. *)
Theorem emit_fans_out :
  (∀ program event data fuel events,
      (∀ cb, cb ∈ registered event events → quiet program event cb) →
      (slots event events < fuel)%nat →
      ∃ events',
        emit fuel program event data events =
          Some (mkEmission events'
                  (map (λ cb, Invoked cb data []) (registered event events)) Returned)
        ∧ registered event events' = registered event events)
  ∧ (∀ events event, wellFormed events → NoDup (registered event events))
  ∧ wellFormed ∅
  ∧ (∀ events event cb,
      wellFormed events →
      wellFormed (on event cb events) ∧ wellFormed (off event cb events))
  ∧ (∀ events event cb,
      registered event (on event cb events) =
        (if decide (cb ∈ registered event events) then registered event events
         else registered event events ++ [cb])
      ∧ registered event (on event cb (on event cb events)) =
          registered event (on event cb events))
  ∧ (∀ events event cb,
      registered event (off event cb events) =
        filter (λ c, c ≠ cb) (registered event events)
      ∧ cb ∉ registered event (off event cb events))
  ∧ (∀ events event event' cb,
      event ≠ event' →
      registered event' (on event cb events) = registered event' events
      ∧ registered event' (off event cb events) = registered event' events).
Proof.
  split; [exact emit_quiet|].
  split; [intros events event; apply wellFormed_registered|].
  split; [exact wellFormed_empty|].
  split; [intros events event cb Hwf; split;
          [apply wellFormed_on | apply wellFormed_off]; exact Hwf|].
  split.
  { intros events event cb. split; [apply registered_on|].
    rewrite (registered_on event cb (on event cb events)).
    destruct (decide (cb ∈ registered event (on event cb events))) as [_|Hn];
      [reflexivity|].
    exfalso. apply Hn. rewrite registered_on.
    destruct (decide (cb ∈ registered event events)) as [Hin|_]; [exact Hin|].
    apply elem_of_app. right. apply list_elem_of_singleton. reflexivity. }
  split.
  { intros events event cb. split; [apply registered_off|].
    rewrite registered_off. intros Hin.
    apply list_elem_of_filter in Hin as [Hne _]. apply Hne. reflexivity. }
  intros events event event' cb Hne.
  split; [apply registered_on_ne | apply registered_off_ne]; exact Hne.
Qed.

(** The amended claim on two listeners, the first registered twice. *)
Lemma emit_fans_out_witness :
  ∃ events',
    emit 3 listeners "level-completed" 7%positive twoListeners =
      Some (mkEmission events'
              [Invoked 1%nat 7%positive []; Invoked 2%nat 7%positive []] Returned)
    ∧ registered "level-completed" events' = [1%nat; 2%nat].
Proof.
  destruct emit_fans_out as [H _].
  destruct (H listeners "level-completed"%string 7%positive 3%nat twoListeners)
    as (events' & Hrun & Hreg).
  - intros cb _. constructor.
  - vm_compute. lia.
  - exists events'. split; [exact Hrun | exact Hreg].
Defined.

End EventBusProps.

(* ===================================================================== *)
(** ** Properties of the per-frame simulation *)
(* ===================================================================== *)

Module MainSceneProps.
Import MainScene.

(** *** Sequencing of scene methods *)

Lemma sceneAfter_bind {A B} (m : Method A) (f : A → Method B) sc :
  sceneAfter (m ≫= f) sc = sceneAfter (f (valueOf m sc)) (sceneAfter m sc).
Proof.
  unfold sceneAfter, valueOf, mbind, method_bind.
  destruct (m sc) as [[a s1] l1]; simpl.
  destruct (f a s1) as [[b s2] l2]; reflexivity.
Qed.

Lemma callsOf_bind {A B} (m : Method A) (f : A → Method B) sc :
  callsOf (m ≫= f) sc =
    callsOf m sc ++ callsOf (f (valueOf m sc)) (sceneAfter m sc).
Proof.
  unfold callsOf, sceneAfter, valueOf, mbind, method_bind.
  destruct (m sc) as [[a s1] l1]; simpl.
  destruct (f a s1) as [[b s2] l2]; reflexivity.
Qed.

Lemma valueOf_bind {A B} (m : Method A) (f : A → Method B) sc :
  valueOf (m ≫= f) sc = valueOf (f (valueOf m sc)) (sceneAfter m sc).
Proof.
  unfold sceneAfter, valueOf, mbind, method_bind.
  destruct (m sc) as [[a s1] l1]; simpl.
  destruct (f a s1) as [[b s2] l2]; reflexivity.
Qed.

(** *** handlePlayerMovement *)

Lemma handlePlayerMovement_canJump cur sc :
  canJump (sceneAfter (handlePlayerMovement cur) sc) =
    if isUp (up cur) && touchingDown (player sc) then true
    else if jumpCondition cur sc then false
    else canJump sc.
Proof.
  unfold jumpCondition, isUp, handlePlayerMovement.
  destruct cur as [[l] [r] [u]]; destruct sc as [p cj cc d wz hs sx sy ht];
    destruct p as [px py vx vy ax ay td]; simpl.
  destruct l, r, u, td, cj; reflexivity.
Qed.

Lemma handlePlayerMovement_jumpCalls cur sc :
  filter isSetVelocityY (callsOf (handlePlayerMovement cur) sc) =
    if jumpCondition cur sc then [SetVelocityY JUMP_VELOCITY] else [].
Proof.
  unfold jumpCondition, isUp, handlePlayerMovement.
  destruct cur as [[l] [r] [u]]; destruct sc as [p cj cc d wz hs sx sy ht];
    destruct p as [px py vx vy ax ay td]; simpl.
  destruct l, r, u, td, cj; reflexivity.
Qed.

Lemma handlePlayerMovement_velocityY cur sc :
  velocityY (player (sceneAfter (handlePlayerMovement cur) sc)) =
    if jumpCondition cur sc then JUMP_VELOCITY else velocityY (player sc).
Proof.
  unfold jumpCondition, isUp, handlePlayerMovement.
  destruct cur as [[l] [r] [u]]; destruct sc as [p cj cc d wz hs sx sy ht];
    destruct p as [px py vx vy ax ay td]; simpl.
  destruct l, r, u, td, cj; reflexivity.
Qed.

(** What [handlePlayerMovement] leaves alone. *)
Lemma handlePlayerMovement_frame cur sc :
  let sc' := sceneAfter (handlePlayerMovement cur) sc in
  x (player sc') = x (player sc) ∧ y (player sc') = y (player sc)
  ∧ touchingDown (player sc') = touchingDown (player sc)
  ∧ coinCount sc' = coinCount sc ∧ deaths sc' = deaths sc
  ∧ windZones sc' = windZones sc ∧ hints sc' = hints sc
  ∧ spawnX sc' = spawnX sc ∧ spawnY sc' = spawnY sc
  ∧ hintText sc' = hintText sc.
Proof.
  unfold isUp, handlePlayerMovement.
  destruct cur as [[l] [r] [u]]; destruct sc as [p cj cc d wz hs sx sy ht];
    destruct p as [px py vx vy ax ay td]; destruct ht; simpl.
  destruct l, r, u, td, cj; simpl; repeat split; reflexivity.
Qed.

(** *** updateWindZones *)

Lemma accelOnly_refl sc : accelOnly sc sc.
Proof.
  exists (accelerationX (player sc)), (accelerationY (player sc)).
  destruct sc as [p cj cc d wz hs sx sy ht]; destruct p; reflexivity.
Qed.

Lemma accelOnly_trans sc1 sc2 sc3 :
  accelOnly sc1 sc2 → accelOnly sc2 sc3 → accelOnly sc1 sc3.
Proof.
  intros (a1 & b1 & ->) (a2 & b2 & ->). exists a2, b2. reflexivity.
Qed.

Lemma windZoneCallback_calls delta px py windData :
  snd (windZoneCallback delta px py windData) = []
  ∨ snd (windZoneCallback delta px py windData) = forceCalls (zone windData).
Proof.
  unfold windZoneCallback, forceCalls.
  destruct (inZone _ _ _); simpl; [|left; reflexivity].
  destruct (type _); [right; reflexivity|].
  destruct (JS.truthy _); [|left; reflexivity].
  destruct (JS.lt _ _); [right|left]; reflexivity.
Qed.

Lemma callAll_calls cs sc : callsOf (callAll cs) sc = cs.
Proof.
  revert sc. induction cs as [|c cs IH]; intros sc; [reflexivity|].
  cbn [callAll foldr]. fold (callAll cs). rewrite callsOf_bind.
  rewrite IH. reflexivity.
Qed.

Lemma callAll_forceCalls z sc :
  sceneAfter (callAll (forceCalls z)) sc =
    withAcceleration (forceX z * WIND_FORCE_MULTIPLIER)
      (forceY z * WIND_FORCE_MULTIPLIER) sc.
Proof.
  destruct sc as [p cj cc d wz hs sx sy ht]; destruct p; destruct ht; reflexivity.
Qed.

Lemma zoneStep_accelOnly delta sc sc' windData :
  accelOnly sc sc' → zoneStep delta sc' windData = zoneStep delta sc windData.
Proof. intros (ax & ay & ->). reflexivity. Qed.

Lemma forEachWindZone_spec delta zs : ∀ sc,
  valueOf (forEachWindZone delta zs) sc = map (λ wd, fst (zoneStep delta sc wd)) zs
  ∧ callsOf (forEachWindZone delta zs) sc =
      concat (map (λ wd, snd (zoneStep delta sc wd)) zs)
  ∧ accelOnly sc (sceneAfter (forEachWindZone delta zs) sc).
Proof.
  induction zs as [|wd rest IH]; intros sc.
  - repeat split; apply accelOnly_refl.
  - cbn [forEachWindZone].
    rewrite !valueOf_bind, !callsOf_bind, !sceneAfter_bind.
    change (valueOf (get (λ s, x (player s))) sc) with (x (player sc)).
    change (sceneAfter (get (λ s, x (player s))) sc) with sc.
    change (valueOf (get (λ s, y (player s))) sc) with (y (player sc)).
    change (sceneAfter (get (λ s, y (player s))) sc) with sc.
    change (callsOf (get (λ s, x (player s))) sc) with (@nil Call).
    change (callsOf (get (λ s, y (player s))) sc) with (@nil Call).
    fold (zoneStep delta sc wd).
    rewrite callAll_calls.
    set (sc1 := sceneAfter (callAll (snd (zoneStep delta sc wd))) sc).
    assert (Hacc : accelOnly sc sc1).
    { unfold sc1, zoneStep.
      destruct (windZoneCallback_calls delta (x (player sc)) (y (player sc)) wd)
        as [-> | ->].
      - apply accelOnly_refl.
      - rewrite callAll_forceCalls. eexists _, _. reflexivity. }
    destruct (IH sc1) as (Hv & Hc & Hs).
    repeat split.
    + change (fst (zoneStep delta sc wd) :: valueOf (forEachWindZone delta rest) sc1 =
              map (λ w, fst (zoneStep delta sc w)) (wd :: rest)).
      rewrite Hv. cbn [map]. f_equal. apply map_ext. intros w.
      f_equal. apply zoneStep_accelOnly, Hacc.
    + change (snd (zoneStep delta sc wd)
              ++ callsOf (forEachWindZone delta rest) sc1 ++ [] =
              concat (map (λ w, snd (zoneStep delta sc w)) (wd :: rest))).
      rewrite Hc, app_nil_r. cbn [map concat]. f_equal. f_equal.
      apply map_ext. intros w. f_equal. apply zoneStep_accelOnly, Hacc.
    + eapply accelOnly_trans; [exact Hacc | exact Hs].
Qed.

Lemma updateWindZones_spec delta sc :
  (∃ sc1, accelOnly sc sc1 ∧
     sceneAfter (updateWindZones delta) sc =
       withWindZones (map (λ wd, fst (zoneStep delta sc wd)) (windZones sc)) sc1)
  ∧ callsOf (updateWindZones delta) sc =
      concat (map (λ wd, snd (zoneStep delta sc wd)) (windZones sc)).
Proof.
  unfold updateWindZones.
  rewrite !sceneAfter_bind, !callsOf_bind.
  change (valueOf (get windZones) sc) with (windZones sc).
  change (sceneAfter (get windZones) sc) with sc.
  change (callsOf (get windZones) sc) with (@nil Call).
  destruct (forEachWindZone_spec delta (windZones sc) sc) as (Hv & Hc & Hs).
  rewrite Hv, Hc. split.
  - eexists; split; [exact Hs|reflexivity].
  - simpl. apply app_nil_r.
Qed.

(** *** checkHints *)

Lemma checkHints_frame sc :
  let sc' := sceneAfter checkHints sc in
  player sc' = player sc ∧ canJump sc' = canJump sc
  ∧ coinCount sc' = coinCount sc ∧ deaths sc' = deaths sc
  ∧ windZones sc' = windZones sc ∧ hints sc' = hints sc
  ∧ spawnX sc' = spawnX sc ∧ spawnY sc' = spawnY sc.
Proof.
  unfold checkHints, sceneAfter, mbind, method_bind, get; simpl.
  destruct sc as [p cj cc d wz hs sx sy ht]; destruct p; simpl.
  destruct (_ && _); [|repeat split].
  destruct (JS.truthy_string _); repeat split.
Qed.

Lemma checkHints_calls sc :
  filter isSetVelocityY (callsOf checkHints sc) = [].
Proof.
  unfold checkHints, callsOf, mbind, method_bind, get; simpl.
  destruct (_ && _); [|reflexivity].
  destruct (JS.truthy_string _); reflexivity.
Qed.

(** *** Overlap callbacks *)

Lemma onOverlap_frame o sc :
  let sc' := sceneAfter (onOverlap o) sc in
  touchingDown (player sc') = touchingDown (player sc)
  ∧ canJump sc' = canJump sc ∧ windZones sc' = windZones sc
  ∧ hints sc' = hints sc ∧ spawnX sc' = spawnX sc ∧ spawnY sc' = spawnY sc
  ∧ hintText sc' = hintText sc
  ∧ x (player sc') = (match o with HazardOverlap => spawnX sc | _ => x (player sc) end)
  ∧ y (player sc') = (match o with HazardOverlap => spawnY sc | _ => y (player sc) end)
  ∧ deaths sc' = (match o with HazardOverlap => deaths sc + 1 | _ => deaths sc end)
  ∧ filter isSetVelocityY (callsOf (onOverlap o) sc) = [].
Proof.
  destruct sc as [p cj cc d wz hs sx sy ht]; destruct p; destruct ht.
  destruct o; simpl; repeat split; reflexivity.
Qed.

Lemma overlapCallbacks_frame os : ∀ sc,
  let sc' := sceneAfter (overlapCallbacks os) sc in
  touchingDown (player sc') = touchingDown (player sc)
  ∧ canJump sc' = canJump sc ∧ windZones sc' = windZones sc
  ∧ hints sc' = hints sc ∧ spawnX sc' = spawnX sc ∧ spawnY sc' = spawnY sc
  ∧ hintText sc' = hintText sc
  ∧ x (player sc') = (if hazardHit os then spawnX sc else x (player sc))
  ∧ y (player sc') = (if hazardHit os then spawnY sc else y (player sc))
  ∧ filter isSetVelocityY (callsOf (overlapCallbacks os) sc) = [].
Proof.
  induction os as [|o os IH]; intros sc.
  - simpl. repeat split; reflexivity.
  - unfold overlapCallbacks. cbn [foldr]. fold (overlapCallbacks os).
    cbv zeta. rewrite sceneAfter_bind, callsOf_bind, filter_app.
    destruct (onOverlap_frame o sc) as (T & J & W & H & SX & SY & HT & X & Y & _ & C).
    specialize (IH (sceneAfter (onOverlap o) sc)).
    destruct IH as (T' & J' & W' & H' & SX' & SY' & HT' & X' & Y' & C').
    rewrite T', J', W', H', SX', SY', HT', X', Y', C', C.
    rewrite T, J, W, H, SX, SY, HT, X, Y.
    repeat split; destruct o; simpl; try reflexivity;
      destruct (hazardHit os); reflexivity.
Qed.

(** *** One frame *)

Lemma frame_scene f sc :
  sceneAfter (frame f) sc = sceneAfter checkHints (afterWind f sc).
Proof.
  unfold frame, update, afterWind, afterMovement, afterPhysics.
  rewrite !sceneAfter_bind. reflexivity.
Qed.

Lemma frame_calls f sc :
  callsOf (frame f) sc =
    callsOf (overlapCallbacks (overlaps f)) (withPlayer (body f) sc)
    ++ callsOf (handlePlayerMovement (cursors f)) (afterPhysics f sc)
    ++ callsOf (updateWindZones (delta f)) (afterMovement f sc)
    ++ callsOf checkHints (afterWind f sc).
Proof.
  unfold frame, update, afterWind, afterMovement, afterPhysics.
  rewrite !callsOf_bind. reflexivity.
Qed.

Lemma afterPhysics_facts f sc :
  touchingDown (player (afterPhysics f sc)) = touchingDown (body f)
  ∧ canJump (afterPhysics f sc) = canJump sc
  ∧ windZones (afterPhysics f sc) = windZones sc
  ∧ spawnX (afterPhysics f sc) = spawnX sc
  ∧ spawnY (afterPhysics f sc) = spawnY sc
  ∧ x (player (afterPhysics f sc)) = frameX f sc
  ∧ y (player (afterPhysics f sc)) = frameY f sc.
Proof.
  unfold afterPhysics, frameX, frameY.
  destruct (overlapCallbacks_frame (overlaps f) (withPlayer (body f) sc))
    as (T & J & W & _ & SX & SY & _ & X & Y & _).
  rewrite T, J, W, SX, SY, X, Y. repeat split.
Qed.

Lemma jumpCondition_frame f sc :
  jumpCondition (cursors f) (afterPhysics f sc) = jumpFires f sc.
Proof.
  unfold jumpCondition, jumpFires.
  destruct (afterPhysics_facts f sc) as (-> & -> & _). reflexivity.
Qed.

Lemma wind_calls_no_velocity delta sc :
  filter isSetVelocityY (callsOf (updateWindZones delta) sc) = [].
Proof.
  destruct (updateWindZones_spec delta sc) as [_ ->].
  induction (windZones sc) as [|wd rest IH]; [reflexivity|].
  simpl. rewrite filter_app, IH, app_nil_r.
  unfold zoneStep.
  destruct (windZoneCallback_calls delta (x (player sc)) (y (player sc)) wd)
    as [-> | ->]; reflexivity.
Qed.

Lemma frame_jumpCalls f sc :
  filter isSetVelocityY (callsOf (frame f) sc) =
    if jumpFires f sc then [SetVelocityY JUMP_VELOCITY] else [].
Proof.
  rewrite frame_calls, !filter_app.
  destruct (overlapCallbacks_frame (overlaps f) (withPlayer (body f) sc))
    as (_ & _ & _ & _ & _ & _ & _ & _ & _ & ->).
  rewrite wind_calls_no_velocity, checkHints_calls, handlePlayerMovement_jumpCalls.
  rewrite jumpCondition_frame. simpl. apply app_nil_r.
Qed.

Lemma afterWind_facts f sc :
  canJump (afterWind f sc) = canJump (afterMovement f sc)
  ∧ velocityY (player (afterWind f sc)) = velocityY (player (afterMovement f sc))
  ∧ spawnX (afterWind f sc) = spawnX sc
  ∧ spawnY (afterWind f sc) = spawnY sc
  ∧ windZones (afterWind f sc) =
      map (λ wd, fst (windZoneCallback (delta f) (frameX f sc) (frameY f sc) wd))
        (windZones sc).
Proof.
  unfold afterWind.
  destruct (updateWindZones_spec (delta f) (afterMovement f sc))
    as [(sc1 & (ax & ay & ->) & ->) _].
  unfold zoneStep, afterMovement.
  destruct (handlePlayerMovement_frame (cursors f) (afterPhysics f sc))
    as (X & Y & _ & _ & _ & W & _ & SX & SY & _).
  destruct (afterPhysics_facts f sc) as (_ & _ & W' & SX' & SY' & X' & Y').
  simpl. rewrite X, Y, W, SX, SY, X', Y', W', SX', SY'. repeat split.
Qed.

Lemma frame_canJump f sc :
  canJump (sceneAfter (frame f) sc) =
    if isUp (up (cursors f)) && touchingDown (body f) then true
    else if jumpFires f sc then false
    else canJump sc.
Proof.
  rewrite frame_scene.
  destruct (checkHints_frame (afterWind f sc)) as (_ & -> & _).
  destruct (afterWind_facts f sc) as (-> & _).
  unfold afterMovement. rewrite handlePlayerMovement_canJump, jumpCondition_frame.
  destruct (afterPhysics_facts f sc) as (-> & -> & _). reflexivity.
Qed.

Lemma frame_velocityY f sc :
  jumpFires f sc = true →
  velocityY (player (sceneAfter (frame f) sc)) = JUMP_VELOCITY.
Proof.
  intros Hj. rewrite frame_scene.
  destruct (checkHints_frame (afterWind f sc)) as (-> & _).
  destruct (afterWind_facts f sc) as (_ & -> & _).
  unfold afterMovement.
  rewrite handlePlayerMovement_velocityY, jumpCondition_frame, Hj. reflexivity.
Qed.

Lemma frame_windZones f sc :
  windZones (sceneAfter (frame f) sc) =
    map (λ wd, fst (windZoneCallback (delta f) (frameX f sc) (frameY f sc) wd))
      (windZones sc)
  ∧ spawnX (sceneAfter (frame f) sc) = spawnX sc
  ∧ spawnY (sceneAfter (frame f) sc) = spawnY sc.
Proof.
  rewrite frame_scene.
  destruct (checkHints_frame (afterWind f sc)) as (_ & _ & _ & _ & -> & _ & -> & ->).
  destruct (afterWind_facts f sc) as (_ & _ & -> & -> & ->). repeat split.
Qed.

(** *** Jump debounce over a session *)

Lemma frame_jumpsIn f sc :
  jumpsIn (callsOf (frame f) sc) = if jumpFires f sc then 1%nat else 0%nat.
Proof.
  unfold jumpsIn. rewrite frame_jumpCalls. destruct (jumpFires f sc); reflexivity.
Qed.

Lemma totalJumps_cons f rest sc :
  totalJumps (f :: rest) sc =
    (jumpsIn (callsOf (frame f) sc) + totalJumps rest (sceneAfter (frame f) sc))%nat.
Proof. reflexivity. Qed.

(** While the key stays down the flag, once cleared, stays cleared. *)
Lemma held_without_flag frames : ∀ sc,
  heldThroughout frames → canJump sc = false → totalJumps frames sc = 0%nat.
Proof.
  induction frames as [|f rest IH]; intros sc Hheld Hflag; [reflexivity|].
  inversion Hheld as [|? ? Hf Hrest]; subst.
  rewrite totalJumps_cons, frame_jumpsIn.
  assert (Hno : jumpFires f sc = false).
  { unfold jumpFires. rewrite Hflag. apply andb_false_r. }
  rewrite Hno. simpl. apply IH; [assumption|].
  rewrite frame_canJump, Hno. unfold isUp. rewrite Hf. simpl. exact Hflag.
Qed.

Lemma held_with_flag frames : ∀ sc,
  heldThroughout frames → canJump sc = true →
  totalJumps frames sc = if existsb grounded frames then 1%nat else 0%nat.
Proof.
  induction frames as [|f rest IH]; intros sc Hheld Hflag; [reflexivity|].
  inversion Hheld as [|? ? Hf Hrest]; subst.
  rewrite totalJumps_cons, frame_jumpsIn. cbn [existsb].
  assert (Hj : jumpFires f sc = grounded f).
  { unfold jumpFires, grounded. rewrite Hf, Hflag. simpl. apply andb_true_r. }
  rewrite Hj.
  destruct (grounded f) eqn:Hg; simpl.
  - rewrite held_without_flag; [reflexivity | assumption |].
    rewrite frame_canJump, Hj. unfold isUp. rewrite Hf. reflexivity.
  - apply IH; [assumption|].
    rewrite frame_canJump, Hj. unfold isUp. rewrite Hf. simpl. exact Hflag.
Qed.

(** Claim C3, as stated, fails: with the jump key held through a jump and
    the landing after it there are two ground contacts but a single
    velocity change; the second contact triggers none. *)
Lemma held_landing_does_not_jump :
  heldThroughout heldThroughLanding
  ∧ groundContacts heldThroughLanding = 2%nat
  ∧ jumpsPerFrame heldThroughLanding (createScene (100, 500) [] []) = [1; 0; 0]%nat
  ∧ totalJumps heldThroughLanding (createScene (100, 500) [] [])
      ≠ groundContacts heldThroughLanding.
Proof.
  split; [repeat constructor|].
  split; [reflexivity|].
  split; [reflexivity|].
  vm_compute. discriminate.
Qed.

(** Claim C3, amended.  A frame changes the vertical velocity only by the
    jump: the call is [setVelocityY(JUMP_VELOCITY)], it is made only when
    the jump key is down, the player is grounded and the availability
    flag is set, and it leaves the flag cleared; under these three
    conditions it is made, once.  A cleared flag is set again only in a
    frame where the key is up and the player grounded.  Hence while the
    key stays down there is at most one velocity change, however many
    frames and ground contacts pass: exactly one if the flag is set at
    the start and the player is grounded in some frame, none otherwise. *)
Theorem jump_debounce :
  (∀ f sc v,
      SetVelocityY v ∈ callsOf (frame f) sc →
      v = JUMP_VELOCITY
      ∧ isDown (up (cursors f)) = true ∧ grounded f = true ∧ canJump sc = true
      ∧ canJump (sceneAfter (frame f) sc) = false
      ∧ velocityY (player (sceneAfter (frame f) sc)) = JUMP_VELOCITY)
  ∧ (∀ f sc,
      isDown (up (cursors f)) = true → grounded f = true → canJump sc = true →
      jumpsIn (callsOf (frame f) sc) = 1%nat)
  ∧ (∀ f sc,
      canJump sc = false → canJump (sceneAfter (frame f) sc) = true →
      isUp (up (cursors f)) = true ∧ grounded f = true)
  ∧ (∀ frames sc,
      heldThroughout frames →
      totalJumps frames sc =
        if canJump sc && existsb grounded frames then 1%nat else 0%nat).
Proof.
  split.
  { intros f sc v Hin.
    assert (Hf : SetVelocityY v ∈ filter isSetVelocityY (callsOf (frame f) sc)).
    { apply list_elem_of_filter. split; [exact I | exact Hin]. }
    rewrite frame_jumpCalls in Hf.
    destruct (jumpFires f sc) eqn:Hj.
    - apply list_elem_of_singleton in Hf. injection Hf as ->.
      pose proof Hj as Hj'. unfold jumpFires in Hj'.
      apply andb_true_iff in Hj' as [Hj' Hc]. apply andb_true_iff in Hj' as [Hd Hg].
      repeat split; try assumption.
      + rewrite frame_canJump, Hj. unfold isUp. rewrite Hd. reflexivity.
      + apply frame_velocityY, Hj.
    - inversion Hf. }
  split.
  { intros f sc Hd Hg Hc. rewrite frame_jumpsIn. unfold jumpFires.
    unfold grounded in Hg. rewrite Hd, Hg, Hc. reflexivity. }
  split.
  { intros f sc Hc Hc'. rewrite frame_canJump in Hc'.
    unfold grounded.
    destruct (isUp (up (cursors f)) && touchingDown (body f)) eqn:E.
    - apply andb_true_iff in E. exact E.
    - destruct (jumpFires f sc); congruence. }
  intros frames sc Hheld.
  destruct (canJump sc) eqn:Hc; simpl.
  - apply held_with_flag; assumption.
  - apply held_without_flag; assumption.
Qed.

(** The amended claim on a session: the key held from the floor through
    a landing gives one velocity change. *)
Lemma jump_debounce_witness :
  totalJumps heldThroughLanding (createScene (100, 500) [] []) = 1%nat.
Proof.
  destruct jump_debounce as (_ & _ & _ & H).
  rewrite (H heldThroughLanding (createScene (100, 500) [] [])).
  - reflexivity.
  - repeat constructor.
Defined.

(** *** Pulsed wind zones *)

Lemma lookup_map {A B} (g : A → B) (l : list A) i a :
  l !! i = Some a → map g l !! i = Some (g a).
Proof.
  revert i. induction l as [|b l IH]; intros [|i] H; simpl in *;
    try discriminate.
  - injection H as ->. reflexivity.
  - apply IH, H.
Qed.

Lemma windZoneCallback_pulsed delta px py wd p :
  type (zone wd) = pulsed → pulseDuration (zone wd) = Some p →
  inZone (zone wd) px py = true →
  windZoneCallback delta px py wd =
    if p =? 0 then (wd, [])
    else (mkWindZoneData (zone wd) (active wd) (pulseTimer wd + delta),
          if windActive p (pulseTimer wd + delta) then forceCalls (zone wd) else []).
Proof.
  intros Ht Hp Hin. unfold windZoneCallback, windActive, forceCalls.
  rewrite Hin, Ht, Hp. simpl.
  destruct (p =? 0); simpl; [reflexivity|].
  destruct (JS.lt _ _); reflexivity.
Qed.

(** The callback keeps the zone and only ever adds [delta] to the timer. *)
Lemma windZoneCallback_timer delta px py wd :
  zone (fst (windZoneCallback delta px py wd)) = zone wd
  ∧ pulseTimer (fst (windZoneCallback delta px py wd)) =
      pulseTimer wd +
      (if inZone (zone wd) px py then
         match type (zone wd) with
         | pulsed => if JS.truthy (pulseDuration (zone wd)) then delta else 0
         | constant => 0
         end
       else 0).
Proof.
  unfold windZoneCallback.
  destruct (inZone _ _ _); simpl; [|split; [reflexivity|lia]].
  destruct (type _); [split; [reflexivity|simpl; lia]|].
  destruct (JS.truthy _); [|split; [reflexivity|simpl; lia]].
  destruct (JS.lt _ _); split; reflexivity.
Qed.

Lemma windActive_mod p t :
  0 < p → 0 <= t → (windActive p t = true ↔ t mod (2 * p) < p).
Proof.
  intros Hp Ht. unfold windActive, JS.rem, JS.lt.
  destruct (p * 2 =? 0) eqn:E; [apply Z.eqb_eq in E; lia|].
  rewrite Z.rem_mod_nonneg by lia.
  replace (p * 2) with (2 * p) by lia.
  apply Z.ltb_lt.
Qed.

Lemma windActive_500 t :
  0 <= t →
  (windActive 500 t = true ↔ ∃ k, 0 <= k ∧ 1000 * k <= t < 1000 * k + 500).
Proof.
  intros Ht. rewrite windActive_mod by lia. change (2 * 500) with 1000.
  pose proof (Z.div_mod t 1000 ltac:(lia)) as Hdm.
  pose proof (Z.mod_pos_bound t 1000 ltac:(lia)) as Hb.
  split.
  - intros Hlt. exists (t / 1000). split; [apply Z.div_pos; lia | lia].
  - intros (k & Hk & Hlo & Hhi).
    assert (Hr : t - 1000 * k = t mod 1000).
    { apply Z.mod_unique_pos with k; lia. }
    lia.
Qed.

(** Half a period later the force is in the other state: the duty cycle
    is one half. *)
Lemma windActive_shift p t :
  0 < p → 0 <= t → windActive p (t + p) = negb (windActive p t).
Proof.
  intros Hp Ht.
  pose proof (windActive_mod p t Hp Ht) as H1.
  pose proof (windActive_mod p (t + p) Hp ltac:(lia)) as H2.
  pose proof (Z.div_mod t (2 * p) ltac:(lia)) as Hdm.
  pose proof (Z.mod_pos_bound t (2 * p) ltac:(lia)) as Hb.
  destruct (Z_lt_dec (t mod (2 * p)) p) as [Hlt|Hge].
  - assert (Hr : t mod (2 * p) + p = (t + p) mod (2 * p)).
    { apply Z.mod_unique_pos with (t / (2 * p)); lia. }
    destruct (windActive p t); [|exfalso; apply H1 in Hlt; discriminate].
    destruct (windActive p (t + p)); [|reflexivity].
    exfalso. assert ((t + p) mod (2 * p) < p) by (apply H2; reflexivity). lia.
  - assert (Hr : t mod (2 * p) - p = (t + p) mod (2 * p)).
    { apply Z.mod_unique_pos with (t / (2 * p) + 1); lia. }
    destruct (windActive p t); [exfalso; apply Hge, H1; reflexivity|].
    destruct (windActive p (t + p)); [reflexivity|].
    exfalso. assert (Hd : false = true) by (apply H2; lia). discriminate.
Qed.

Lemma forceCalls_not_nil z : forceCalls z ≠ [].
Proof. discriminate. Qed.

(** When a pulsed zone makes its calls.  For a pulsed zone with pulse duration [p] and a tick that
    finds the player inside it, the callback of [updateWindZones] for the
    zone makes the two calls that set the player's acceleration to the
    zone's force exactly when [(pulseTimer % (2 * p)) < p], where
    [pulseTimer] is the timer the tick leaves stored (the previous value
    plus the frame's delta); it makes no other call.  For [p > 0] and a
    timer that is not negative this is [pulseTimer mod 2p < p]; for
    [p = 500] the force is on exactly for the timers in [1000k, 1000k+500);
    and half a period later the state is the opposite one, a duty cycle of
    one half.  A tick in the off half makes no call at all: the
    acceleration of the player is left as it was. *)
Theorem pulsed_wind_duty_cycle :
  (∀ delta sc i wd p,
      windZones sc !! i = Some wd →
      type (zone wd) = pulsed → pulseDuration (zone wd) = Some p →
      inZone (zone wd) (x (player sc)) (y (player sc)) = true →
      let wd' := fst (zoneStep delta sc wd) in
      let calls := snd (zoneStep delta sc wd) in
      windZones (sceneAfter (updateWindZones delta) sc) !! i = Some wd'
      ∧ zone wd' = zone wd
      ∧ (p ≠ 0 → pulseTimer wd' = pulseTimer wd + delta)
      ∧ (calls = forceCalls (zone wd) ∨ calls = [])
      ∧ (calls = forceCalls (zone wd) ↔
           JS.lt (JS.rem (pulseTimer wd') (p * 2)) p = true)
      ∧ (0 < p → 0 <= pulseTimer wd' →
           (calls = forceCalls (zone wd) ↔ pulseTimer wd' mod (2 * p) < p))
      ∧ (calls = forceCalls (zone wd) →
           accelerationX (player (sceneAfter (callAll calls) sc)) =
             forceX (zone wd) * WIND_FORCE_MULTIPLIER
           ∧ accelerationY (player (sceneAfter (callAll calls) sc)) =
               forceY (zone wd) * WIND_FORCE_MULTIPLIER)
      ∧ (calls = [] → sceneAfter (callAll calls) sc = sc))
  ∧ (∀ delta sc,
      callsOf (updateWindZones delta) sc =
        concat (map (λ wd, snd (zoneStep delta sc wd)) (windZones sc)))
  ∧ (∀ t, 0 <= t →
      (windActive 500 t = true ↔ ∃ k, 0 <= k ∧ 1000 * k <= t < 1000 * k + 500))
  ∧ (∀ p t, 0 < p → 0 <= t → windActive p (t + p) = negb (windActive p t)).
Proof.
  split; [|split; [|split]].
  - intros delta sc i wd p Hi Ht Hp Hin wd' calls.
    assert (Hlook : windZones (sceneAfter (updateWindZones delta) sc) !! i = Some wd').
    { destruct (updateWindZones_spec delta sc) as [(sc1 & _ & ->) _]. simpl.
      apply (lookup_map (λ w, fst (zoneStep delta sc w))), Hi. }
    assert (Hstep := windZoneCallback_pulsed delta _ _ wd p Ht Hp Hin).
    fold (zoneStep delta sc wd) in Hstep.
    assert (Hiff : calls = forceCalls (zone wd) ↔
                   JS.lt (JS.rem (pulseTimer wd') (p * 2)) p = true).
    { unfold calls, wd'. rewrite Hstep.
      destruct (p =? 0) eqn:E; simpl.
      - apply Z.eqb_eq in E. subst p. simpl. split; discriminate.
      - fold (windActive p (pulseTimer wd + delta)).
        destruct (windActive p (pulseTimer wd + delta)); split;
          try reflexivity; discriminate. }
    split; [exact Hlook|].
    split; [unfold wd'; rewrite Hstep; destruct (p =? 0); reflexivity|].
    split.
    { intros Hne. unfold wd'. rewrite Hstep.
      destruct (p =? 0) eqn:E; [apply Z.eqb_eq in E; contradiction|reflexivity]. }
    split.
    { unfold calls. rewrite Hstep. destruct (p =? 0); simpl; [right; reflexivity|].
      destruct (windActive _ _); [left|right]; reflexivity. }
    split; [exact Hiff|].
    split; [intros Hpos Hnn; rewrite Hiff; apply (windActive_mod p _ Hpos Hnn)|].
    split.
    { intros ->. rewrite callAll_forceCalls. split; reflexivity. }
    intros ->. reflexivity.
  - intros delta sc. apply updateWindZones_spec.
  - exact windActive_500.
  - exact windActive_shift.
Qed.

(** On the first tick in the gust the timer reads 16 and the calls are
    made. *)
Lemma pulsed_wind_duty_cycle_witness :
  snd (zoneStep 16 gustScene gustData) = forceCalls gust.
Proof.
  destruct pulsed_wind_duty_cycle as [H _].
  destruct (H 16 gustScene 0%nat gustData 500 eq_refl eq_refl eq_refl eq_refl)
    as (_ & _ & _ & _ & Hiff & _).
  apply Hiff. reflexivity.
Defined.

(** *** The stored pulse timer *)

Lemma finalScene_cons f rest sc :
  finalScene (f :: rest) sc = finalScene rest (sceneAfter (frame f) sc).
Proof. reflexivity. Qed.

Lemma timeInside_spawn z frames sc sc' :
  spawnX sc' = spawnX sc → spawnY sc' = spawnY sc →
  timeInside z frames sc' = timeInside z frames sc.
Proof.
  intros HX HY. induction frames as [|f rest IH]; [reflexivity|].
  simpl. unfold frameX, frameY. rewrite HX, HY, IH. reflexivity.
Qed.

Lemma pulseTimer_after frames : ∀ sc i wd,
  windZones sc !! i = Some wd →
  type (zone wd) = pulsed → JS.truthy (pulseDuration (zone wd)) = true →
  ∃ wd', windZones (finalScene frames sc) !! i = Some wd'
         ∧ zone wd' = zone wd
         ∧ pulseTimer wd' = pulseTimer wd + timeInside (zone wd) frames sc.
Proof.
  induction frames as [|f rest IH]; intros sc i wd Hi Ht Hp.
  - exists wd. simpl. repeat split; [assumption | lia].
  - rewrite finalScene_cons.
    destruct (frame_windZones f sc) as (HW & HX & HY).
    set (wd1 := fst (windZoneCallback (delta f) (frameX f sc) (frameY f sc) wd)).
    assert (Hi1 : windZones (sceneAfter (frame f) sc) !! i = Some wd1).
    { rewrite HW.
      apply (lookup_map
               (λ w, fst (windZoneCallback (delta f) (frameX f sc) (frameY f sc) w))), Hi. }
    destruct (windZoneCallback_timer (delta f) (frameX f sc) (frameY f sc) wd)
      as [Hz Htm].
    fold wd1 in Hz, Htm. rewrite Ht, Hp in Htm.
    destruct (IH (sceneAfter (frame f) sc) i wd1 Hi1) as (wd' & Hl & Hz' & Ht').
    { rewrite Hz. exact Ht. }
    { rewrite Hz. exact Hp. }
    exists wd'. split; [exact Hl|]. split; [congruence|].
    rewrite Ht', Htm, Hz. rewrite (timeInside_spawn _ _ _ _ HX HY).
    cbn [timeInside]. lia.
Qed.

Lemma timeInside_nonneg z frames sc :
  Forall (λ f, 0 <= delta f) frames → 0 <= timeInside z frames sc.
Proof.
  induction 1 as [|f rest Hf _ IH]; simpl; [lia|].
  destruct (inZone _ _ _); lia.
Qed.

(** Claim C9, as stated, fails: after 63 frames of 16 ms in a gust of
    pulse duration 500 the stored timer reads 1008, which is not below
    [2 * 500]. *)
Lemma pulse_timer_passes_two_periods :
  map pulseTimer (windZones (finalScene (repeat standingInGust 63) gustScene)) = [1008]
  ∧ map (λ w, pulseDuration (zone w))
      (windZones (finalScene (repeat standingInGust 63) gustScene)) = [Some 500]
  ∧ ¬ (1008 < 2 * 500).
Proof.
  split; [vm_compute; reflexivity|].
  split; [vm_compute; reflexivity|]. lia.
Qed.

(** Claim C9, amended.  The stored timer of a pulsed zone (with a pulse
    duration that is not 0) is never wrapped: after any number of frames
    it is its initial value plus the [delta] of every frame whose update
    found the player inside the zone, so with deltas that are not
    negative it never decreases.  What stays within [0, 2p) is the value
    [pulseTimer % (2 * p)] computed from it in each tick. *)
Theorem pulse_timer_accumulates :
  (∀ frames sc i wd,
      windZones sc !! i = Some wd →
      type (zone wd) = pulsed → JS.truthy (pulseDuration (zone wd)) = true →
      ∃ wd', windZones (finalScene frames sc) !! i = Some wd'
             ∧ zone wd' = zone wd
             ∧ pulseTimer wd' = pulseTimer wd + timeInside (zone wd) frames sc
             ∧ (Forall (λ f, 0 <= delta f) frames → pulseTimer wd <= pulseTimer wd'))
  ∧ (∀ p t, 0 < p → 0 <= t →
      ∃ cycle, JS.rem t (p * 2) = Some cycle ∧ cycle = t mod (2 * p)
               ∧ 0 <= cycle < 2 * p).
Proof.
  split.
  - intros frames sc i wd Hi Ht Hp.
    destruct (pulseTimer_after frames sc i wd Hi Ht Hp) as (wd' & Hl & Hz & Htm).
    exists wd'. repeat split; try assumption.
    intros Hd. pose proof (timeInside_nonneg (zone wd) frames sc Hd). lia.
  - intros p t Hp Ht. exists (t mod (2 * p)). unfold JS.rem.
    destruct (p * 2 =? 0) eqn:E; [apply Z.eqb_eq in E; lia|].
    rewrite Z.rem_mod_nonneg by lia. replace (p * 2) with (2 * p) by lia.
    split; [reflexivity|]. split; [reflexivity|].
    apply Z.mod_pos_bound. lia.
Qed.

(** The amended claim on the 63 frames in the gust: 63 * 16 = 1008. *)
Lemma pulse_timer_accumulates_witness :
  ∃ wd', windZones (finalScene (repeat standingInGust 63) gustScene) !! 0%nat = Some wd'
         ∧ pulseTimer wd' = 1008.
Proof.
  destruct pulse_timer_accumulates as [H _].
  destruct (H (repeat standingInGust 63) gustScene 0%nat gustData
              eq_refl eq_refl eq_refl) as (wd' & Hl & _ & Htm & _).
  exists wd'. split; [exact Hl|]. rewrite Htm. vm_compute. reflexivity.
Defined.

(** *** Hints *)

Lemma checkHints_result sc :
  (sceneAfter checkHints sc, callsOf checkHints sc) =
    if (3 <=? deaths sc) && (0 <? Z.of_nat (length (hints sc))) then
      match JS.index (hints sc) (hintIndexFor (deaths sc) (hints sc)) with
      | Some (String c rest) =>
          (withHintText (mkHintText (String c rest) true) sc,
           [SetText (String c rest); SetVisible true])
      | _ => (sc, [])
      end
    else (withHintText (mkHintText (text (hintText sc)) false) sc, [SetVisible false]).
Proof.
  unfold checkHints, sceneAfter, callsOf, mbind, method_bind, get, hintIndexFor.
  destruct sc as [p cj cc d wz hs sx sy ht]; destruct p; destruct ht; simpl.
  destruct (_ && _); [|reflexivity].
  destruct (JS.index _ _) as [[|c rest]|]; reflexivity.
Qed.

Lemma hintIndexFor_bounds d (hs : list string) :
  3 <= d → hs ≠ [] →
  0 <= hintIndexFor d hs < Z.of_nat (length hs).
Proof.
  intros Hd Hne. unfold hintIndexFor.
  assert (1 <= d / 3) by (apply Z.div_le_lower_bound; lia).
  destruct hs as [|h hs]; [contradiction|]. simpl length. lia.
Qed.

Lemma index_in_bounds {A} (l : list A) i :
  0 <= i < Z.of_nat (length l) →
  ∃ a, l !! Z.to_nat i = Some a ∧ JS.index l i = Some a.
Proof.
  intros Hi. destruct (lookup_lt_is_Some_2 l (Z.to_nat i)) as [a Ha]; [lia|].
  exists a. split; [exact Ha|]. unfold JS.index.
  destruct (i <? 0) eqn:E; [apply Z.ltb_lt in E; lia | exact Ha].
Qed.

(** Claim C4, as stated, fails.  A hints array made of the string a and
    the empty string passes the check validation applies to hints.  At
    six deaths the selected hint is the second one, the empty string,
    which the test [if (hint)] rejects, so the text shown is still the
    first hint. *)
Lemma empty_hint_is_not_shown :
  Schema.every Schema.isString
    (Some (Schema.JArr [Schema.JStr "a"; Schema.JStr EmptyString])) = true
  ∧ deaths afterSixDeaths = 6
  ∧ hints afterSixDeaths = ["a"%string; EmptyString]
  ∧ JS.index (hints afterSixDeaths) (hintIndexFor 6 (hints afterSixDeaths))
      = Some EmptyString
  ∧ hintText afterSixDeaths = mkHintText "a" true
  ∧ hintText (sceneAfter checkHints afterSixDeaths) = mkHintText "a" true.
Proof. repeat split; vm_compute; reflexivity. Qed.

(** Claim C4, amended.  With death count [d] and hints [h]: if [d < 3] or
    [h] is empty the hint text is hidden; if [d >= 3] and [h] is not empty
    the selected index [min(floor(d/3) - 1, length(h) - 1)] lies within
    the array, and when the hint at that index is not the empty string it
    is the text shown, visible, while an empty hint leaves the hint text
    as it was.  For [h = ["h0","h1"]]: no hint for 0 to 2 deaths, h0 for 3
    to 5, h1 from 6 on.  [checkHints] is total: no case raises. *)
Theorem hint_escalation :
  (∀ sc,
      deaths sc < 3 ∨ hints sc = [] →
      callsOf checkHints sc = [SetVisible false]
      ∧ visible (hintText (sceneAfter checkHints sc)) = false)
  ∧ (∀ sc,
      3 <= deaths sc → hints sc ≠ [] →
      0 <= hintIndexFor (deaths sc) (hints sc) < Z.of_nat (length (hints sc))
      ∧ ∃ s, hints sc !! Z.to_nat (hintIndexFor (deaths sc) (hints sc)) = Some s
             ∧ (s ≠ EmptyString →
                  callsOf checkHints sc = [SetText s; SetVisible true]
                  ∧ hintText (sceneAfter checkHints sc) = mkHintText s true)
             ∧ (s = EmptyString →
                  callsOf checkHints sc = []
                  ∧ hintText (sceneAfter checkHints sc) = hintText sc))
  ∧ (∀ sc,
      hints sc = ["h0"; "h1"]%string →
      (0 <= deaths sc <= 2 → visible (hintText (sceneAfter checkHints sc)) = false)
      ∧ (3 <= deaths sc <= 5 →
           hintText (sceneAfter checkHints sc) = mkHintText "h0" true)
      ∧ (6 <= deaths sc →
           hintText (sceneAfter checkHints sc) = mkHintText "h1" true)).
Proof.
  assert (Hshown : ∀ sc, 3 <= deaths sc → hints sc ≠ [] →
            0 <= hintIndexFor (deaths sc) (hints sc) < Z.of_nat (length (hints sc))
            ∧ ∃ s, hints sc !! Z.to_nat (hintIndexFor (deaths sc) (hints sc)) = Some s
                   ∧ (s ≠ EmptyString →
                        callsOf checkHints sc = [SetText s; SetVisible true]
                        ∧ hintText (sceneAfter checkHints sc) = mkHintText s true)
                   ∧ (s = EmptyString →
                        callsOf checkHints sc = []
                        ∧ hintText (sceneAfter checkHints sc) = hintText sc)).
  { intros sc Hd Hne.
    pose proof (hintIndexFor_bounds _ _ Hd Hne) as Hb.
    split; [exact Hb|].
    destruct (index_in_bounds _ _ Hb) as (s & Hs & Hidx).
    exists s. split; [exact Hs|].
    pose proof (checkHints_result sc) as Hr.
    assert (Hc : (3 <=? deaths sc) && (0 <? Z.of_nat (length (hints sc))) = true).
    { apply andb_true_iff. split; [apply Z.leb_le; lia | apply Z.ltb_lt; lia]. }
    rewrite Hc, Hidx in Hr.
    split.
    - intros Hs'. destruct s as [|c rest]; [contradiction|].
      injection Hr as -> ->. split; reflexivity.
    - intros ->. injection Hr as -> ->. split; reflexivity. }
  split.
  { intros sc Hcase.
    pose proof (checkHints_result sc) as Hr.
    assert (Hc : (3 <=? deaths sc) && (0 <? Z.of_nat (length (hints sc))) = false).
    { apply andb_false_iff. destruct Hcase as [Hd | Hh].
      - left. apply Z.leb_gt. exact Hd.
      - right. rewrite Hh. reflexivity. }
    rewrite Hc in Hr. injection Hr as -> ->. split; reflexivity. }
  split; [exact Hshown|].
  intros sc Hh. split; [|split].
  - intros Hd.
    pose proof (checkHints_result sc) as Hr.
    assert (Hc : (3 <=? deaths sc) = false) by (apply Z.leb_gt; lia).
    rewrite Hc in Hr. simpl in Hr. injection Hr as -> _. reflexivity.
  - intros Hd.
    destruct (Hshown sc) as (_ & s & Hs & Hyes & _); [lia | rewrite Hh; discriminate |].
    assert (Hi : hintIndexFor (deaths sc) (hints sc) = 0).
    { unfold hintIndexFor. rewrite Hh. simpl length.
      assert (deaths sc / 3 = 1).
      { symmetry. apply (Z.div_unique (deaths sc) 3 1 (deaths sc - 3)); lia. }
      lia. }
    rewrite Hi, Hh in Hs. injection Hs as <-.
    apply Hyes. discriminate.
  - intros Hd.
    destruct (Hshown sc) as (_ & s & Hs & Hyes & _); [lia | rewrite Hh; discriminate |].
    assert (Hi : hintIndexFor (deaths sc) (hints sc) = 1).
    { unfold hintIndexFor. rewrite Hh. simpl length.
      assert (2 <= deaths sc / 3) by (apply Z.div_le_lower_bound; lia).
      lia. }
    rewrite Hi, Hh in Hs. injection Hs as <-.
    apply Hyes. discriminate.
Qed.

(** The amended claim at four deaths with the hints of the example. *)
Lemma hint_escalation_witness :
  hintText (sceneAfter checkHints
              (withDeaths 4 (createScene (0, 0) [] ["h0"; "h1"]%string)))
    = mkHintText "h0" true.
Proof.
  destruct hint_escalation as (_ & _ & H).
  destruct (H (withDeaths 4 (createScene (0, 0) [] ["h0"; "h1"]%string)) eq_refl)
    as (_ & H35 & _).
  apply H35. simpl. lia.
Defined.

End MainSceneProps.
(* ===================================================================== *)
(** ** Further properties of the progress store *)
(* ===================================================================== *)

Module ProgressStoreProps.
Import Schema GameState GameStateProps.

(** *** What a history of completions leaves stored *)

Lemma dataFor_cons lid i d rest :
  dataFor lid ((i, d) :: rest) =
    (if decide (i = lid) then [d] else []) ++ dataFor lid rest.
Proof. unfold dataFor. simpl. destruct (decide (i = lid)); reflexivity. Qed.

Lemma getBestTime_completeLevel lid i d st :
  getBestTime lid (completeLevel i d st) =
    if decide (i = lid) then Some (min_with_null (getBestTime lid st) (timeMs d))
    else getBestTime lid st.
Proof.
  destruct (decide (i = lid)) as [->|Hne].
  - pose proof (completeLevel_lookup lid d st) as H. unfold getLevelProgress in H.
    unfold getBestTime at 1. rewrite H. reflexivity.
  - pose proof (completeLevel_lookup_ne i lid d st Hne) as H.
    unfold getLevelProgress in H. unfold getBestTime. rewrite H. reflexivity.
Qed.

Lemma getBestCollectibles_completeLevel lid i d st :
  getBestCollectibles lid (completeLevel i d st) =
    if decide (i = lid) then Z.max (getBestCollectibles lid st) (picked d)
    else getBestCollectibles lid st.
Proof.
  destruct (decide (i = lid)) as [->|Hne].
  - pose proof (completeLevel_lookup lid d st) as H. unfold getLevelProgress in H.
    unfold getBestCollectibles at 1. rewrite H. reflexivity.
  - pose proof (completeLevel_lookup_ne i lid d st Hne) as H.
    unfold getLevelProgress in H. unfold getBestCollectibles. rewrite H. reflexivity.
Qed.

Lemma isLevelCompleted_completeLevel lid i d st :
  isLevelCompleted lid (completeLevel i d st) =
    if decide (i = lid) then true else isLevelCompleted lid st.
Proof.
  destruct (decide (i = lid)) as [->|Hne].
  - pose proof (completeLevel_lookup lid d st) as H. unfold getLevelProgress in H.
    unfold isLevelCompleted at 1. rewrite H. reflexivity.
  - pose proof (completeLevel_lookup_ne i lid d st Hne) as H.
    unfold getLevelProgress in H. unfold isLevelCompleted. rewrite H. reflexivity.
Qed.

Lemma bestTime_history lid calls : ∀ st,
  (∀ d, d ∈ dataFor lid calls →
     time_le (getBestTime lid (completeAll calls st)) (Some (timeMs d)))
  ∧ (getBestTime lid (completeAll calls st) = getBestTime lid st
     ∨ ∃ d, d ∈ dataFor lid calls
            ∧ getBestTime lid (completeAll calls st) = Some (timeMs d)).
Proof.
  induction calls as [|[i d0] rest IH]; intros st.
  - split; [intros d Hd; inversion Hd | left; reflexivity].
  - change (completeAll ((i, d0) :: rest) st)
      with (completeAll rest (completeLevel i d0 st)).
    destruct (IH (completeLevel i d0 st)) as [Hle Hatt].
    destruct (completeAll_monotone lid rest (completeLevel i d0 st)) as (Hmono & _).
    rewrite dataFor_cons. rewrite getBestTime_completeLevel in Hatt, Hmono.
    destruct (decide (i = lid)) as [->|Hne]; simpl.
    + split.
      * intros d Hd. apply elem_of_cons in Hd as [->|Hd]; [|apply Hle, Hd].
        eapply time_le_trans; [exact Hmono|]. simpl.
        destruct (getBestTime lid st); simpl; lia.
      * destruct Hatt as [Heq | (d & Hd & Heq)].
        -- rewrite Heq. destruct (getBestTime lid st) as [b|] eqn:Hb; simpl.
           ++ destruct (Z.min_spec b (timeMs d0)) as [[_ ->] | [_ ->]].
              ** left. reflexivity.
              ** right. exists d0. split; [left|reflexivity].
           ++ right. exists d0. split; [left|reflexivity].
        -- right. exists d. split; [right; exact Hd | exact Heq].
    + split; [exact Hle | exact Hatt].
Qed.

Lemma bestCollectibles_history lid calls : ∀ st,
  (∀ d, d ∈ dataFor lid calls →
     picked d <= getBestCollectibles lid (completeAll calls st))
  ∧ (getBestCollectibles lid (completeAll calls st) = getBestCollectibles lid st
     ∨ ∃ d, d ∈ dataFor lid calls
            ∧ getBestCollectibles lid (completeAll calls st) = picked d).
Proof.
  induction calls as [|[i d0] rest IH]; intros st.
  - split; [intros d Hd; inversion Hd | left; reflexivity].
  - change (completeAll ((i, d0) :: rest) st)
      with (completeAll rest (completeLevel i d0 st)).
    destruct (IH (completeLevel i d0 st)) as [Hle Hatt].
    destruct (completeAll_monotone lid rest (completeLevel i d0 st)) as (_ & Hmono & _).
    rewrite dataFor_cons. rewrite getBestCollectibles_completeLevel in Hatt, Hmono.
    destruct (decide (i = lid)) as [->|Hne]; simpl.
    + split.
      * intros d Hd. apply elem_of_cons in Hd as [->|Hd]; [lia | apply Hle, Hd].
      * destruct Hatt as [Heq | (d & Hd & Heq)].
        -- rewrite Heq.
           destruct (Z.max_spec (getBestCollectibles lid st) (picked d0))
             as [[_ ->] | [_ ->]].
           ++ right. exists d0. split; [left|reflexivity].
           ++ left. reflexivity.
        -- right. exists d. split; [right; exact Hd | exact Heq].
    + split; [exact Hle | exact Hatt].
Qed.

Lemma completed_history lid calls : ∀ st,
  isLevelCompleted lid (completeAll calls st) =
    isLevelCompleted lid st || bool_decide (dataFor lid calls ≠ []).
Proof.
  induction calls as [|[i d0] rest IH]; intros st.
  - simpl. rewrite orb_false_r. reflexivity.
  - change (completeAll ((i, d0) :: rest) st)
      with (completeAll rest (completeLevel i d0 st)).
    rewrite IH, isLevelCompleted_completeLevel, dataFor_cons.
    destruct (decide (i = lid)) as [->|Hne]; simpl.
    + rewrite orb_true_r. reflexivity.
    + reflexivity.
Qed.

(** X1.  Starting from an empty store, after any history of completions
    the best time of a level is null exactly when the level was never
    completed, and otherwise it is the time of one of its completions and
    no completion of it was faster; its best collectible count is at
    least the count of each of its completions and is 0 or the count of
    one of them; and the level reads as completed exactly when it occurs
    in the history. *)
Theorem best_results_are_extremes :
  ∀ lid calls,
    (getBestTime lid (completeAll calls initialState) = None ↔ dataFor lid calls = [])
    ∧ (∀ t, getBestTime lid (completeAll calls initialState) = Some t →
         (∃ d, d ∈ dataFor lid calls ∧ timeMs d = t)
         ∧ ∀ d, d ∈ dataFor lid calls → t <= timeMs d)
    ∧ (∀ d, d ∈ dataFor lid calls →
         picked d <= getBestCollectibles lid (completeAll calls initialState))
    ∧ (getBestCollectibles lid (completeAll calls initialState) = 0
       ∨ ∃ d, d ∈ dataFor lid calls
              ∧ getBestCollectibles lid (completeAll calls initialState) = picked d)
    ∧ (isLevelCompleted lid (completeAll calls initialState) = true
       ↔ dataFor lid calls ≠ []).
Proof.
  intros lid calls.
  destruct (bestTime_history lid calls initialState) as [Hle Hatt].
  destruct (bestCollectibles_history lid calls initialState) as [Hcle Hcatt].
  change (getBestTime lid initialState) with (@None Z) in Hatt.
  change (getBestCollectibles lid initialState) with 0 in Hcatt.
  split; [|split; [|split; [exact Hcle | split; [exact Hcatt|]]]].
  - split.
    + intros Hnone. destruct (dataFor lid calls) as [|d ds] eqn:E; [reflexivity|].
      specialize (Hle d ltac:(left)). rewrite Hnone in Hle. contradiction.
    + intros Hnil. destruct Hatt as [H | (d & Hd & _)]; [exact H|].
      rewrite Hnil in Hd. inversion Hd.
  - intros t Ht. split.
    + destruct Hatt as [H | (d & Hd & H)]; [congruence|].
      exists d. split; [exact Hd | congruence].
    + intros d Hd. specialize (Hle d Hd). rewrite Ht in Hle. exact Hle.
  - rewrite completed_history.
    change (isLevelCompleted lid initialState) with false. cbn [orb].
    apply bool_decide_eq_true.
Qed.

(** The property on the two completions of wind_01: the best time is
    that of the second run. *)
Lemma best_results_are_extremes_witness :
  (∃ d, d ∈ dataFor "wind_01" twoCompletions ∧ timeMs d = 39500)
  ∧ ∀ d, d ∈ dataFor "wind_01" twoCompletions → 39500 <= timeMs d.
Proof.
  destruct (best_results_are_extremes "wind_01"%string twoCompletions) as (_ & H & _).
  apply (H 39500). reflexivity.
Defined.

(** *** The store-wide death total and the stored records *)

Lemma storedDeaths_insert (m : gmap string LevelProgress) i u :
  map_fold (λ _ p acc, Schema.totalDeaths p + acc) 0 (<[i := u]> m) =
    Schema.totalDeaths u
    + map_fold (λ _ p acc, Schema.totalDeaths p + acc) 0 m
    - match m !! i with Some y => Schema.totalDeaths y | None => 0 end.
Proof.
  destruct (m !! i) as [y|] eqn:E.
  - rewrite <- (insert_delete_eq m i u).
    rewrite map_fold_insert_L; [|intros; lia | apply lookup_delete_eq].
    rewrite <- (insert_delete_id m i y E) at 2.
    rewrite map_fold_insert_L; [|intros; lia | apply lookup_delete_eq].
    lia.
  - rewrite map_fold_insert_L; [lia | intros; lia | exact E].
Qed.

Lemma storedDeaths_completeLevel lid d st :
  storedDeaths (completeLevel lid d st) = storedDeaths st + deaths d.
Proof.
  unfold storedDeaths, completeLevel; simpl.
  rewrite storedDeaths_insert. unfold currentProgress.
  destruct (levelProgress st !! lid); simpl; lia.
Qed.

(** X2.  The store-wide death total and the per-level death counts stay
    in step under completions: if the total equals the sum over the stored
    records, it still does after any history of [completeLevel] calls; in
    particular it does in every store built from the empty one. *)
Theorem total_deaths_is_sum_of_levels :
  ∀ calls st,
    getTotalDeaths st = storedDeaths st →
    getTotalDeaths (completeAll calls st) = storedDeaths (completeAll calls st).
Proof.
  induction calls as [|[i d] rest IH]; intros st Hinv; [exact Hinv|].
  change (completeAll ((i, d) :: rest) st)
    with (completeAll rest (completeLevel i d st)).
  apply IH. rewrite storedDeaths_completeLevel.
  unfold getTotalDeaths in *. simpl. lia.
Qed.

(** The property on the store after two completions. *)
Lemma total_deaths_is_sum_of_levels_witness :
  getTotalDeaths (completeAll twoCompletions initialState)
    = storedDeaths (completeAll twoCompletions initialState).
Proof. apply total_deaths_is_sum_of_levels. reflexivity. Defined.

(** *** updateLevelProgress *)

(** X3.  [updateLevelProgress] never changes the two store-wide totals
    nor the record of another level.  Called without any field it leaves
    a store that has a record for the level exactly as it was, and for a
    level without a record it creates the default one (not completed, no
    best time, zero counts). *)
Theorem updateLevelProgress_merges :
  (∀ lid fields st,
      getTotalCoinsCollected (updateLevelProgress lid fields st)
        = getTotalCoinsCollected st
      ∧ getTotalDeaths (updateLevelProgress lid fields st) = getTotalDeaths st
      ∧ ∀ other, other ≠ lid →
          getLevelProgress other (updateLevelProgress lid fields st)
            = getLevelProgress other st)
  ∧ (∀ lid st,
      is_Some (getLevelProgress lid st) → updateLevelProgress lid noFields st = st)
  ∧ (∀ lid st,
      getLevelProgress lid st = None →
      getLevelProgress lid (updateLevelProgress lid noFields st)
        = Some (freshProgress lid)
      ∧ isLevelCompleted lid (updateLevelProgress lid noFields st) = false
      ∧ getBestTime lid (updateLevelProgress lid noFields st) = None).
Proof.
  split; [|split].
  - intros lid fields st. split; [reflexivity|]. split; [reflexivity|].
    intros other Hne. unfold getLevelProgress, updateLevelProgress; simpl.
    apply lookup_insert_ne. congruence.
  - intros lid st [p Hp]. unfold getLevelProgress in Hp.
    destruct st as [sel m coins dth]. simpl in Hp.
    unfold updateLevelProgress, currentProgress; simpl. rewrite Hp; simpl.
    f_equal. apply insert_id. rewrite Hp. destruct p; reflexivity.
  - intros lid st Hnone. unfold getLevelProgress in Hnone.
    assert (Hl : getLevelProgress lid (updateLevelProgress lid noFields st)
                 = Some (freshProgress lid)).
    { unfold getLevelProgress, updateLevelProgress, currentProgress; simpl.
      rewrite lookup_insert_eq, Hnone. reflexivity. }
    unfold getLevelProgress in Hl.
    split; [exact Hl|].
    unfold isLevelCompleted, getBestTime. rewrite Hl. split; reflexivity.
Qed.

(** The property on a store that has a record for wind_01. *)
Lemma updateLevelProgress_merges_witness :
  updateLevelProgress "wind_01" noFields (completeAll twoCompletions initialState)
    = completeAll twoCompletions initialState.
Proof.
  destruct updateLevelProgress_merges as (_ & H & _).
  apply H. vm_compute. eauto.
Defined.

(** *** Saving and loading *)






(** *** The order of completions *)









End ProgressStoreProps.

(* ===================================================================== *)
(** ** Properties of the table of levels *)
(* ===================================================================== *)

Module LevelIndexProps.
Import LevelIndex.

Lemma hasId_true levelId level : hasId levelId level = true ↔ id level = levelId.
Proof. unfold hasId. apply String.eqb_eq. Qed.

Lemma hasId_false levelId level : hasId levelId level = false ↔ id level ≠ levelId.
Proof. unfold hasId. apply String.eqb_neq. Qed.

Lemma findIndexFrom_at {A} (p : A → bool) (arr : list A) : ∀ (n : nat) a i,
  arr !! n = Some a → p a = true →
  (∀ (m : nat) b, (m < n)%nat → arr !! m = Some b → p b = false) →
  findIndexFrom p arr i = i + Z.of_nat n.
Proof.
  induction arr as [|x rest IH]; intros n a i Hn Hp Hbefore; [discriminate|].
  destruct n as [|n]; simpl in *.
  - injection Hn as ->. rewrite Hp. lia.
  - rewrite (Hbefore 0%nat x) by (reflexivity || lia).
    rewrite (IH n a (i + 1) Hn Hp); [lia|].
    intros m b Hm Hb. apply (Hbefore (S m) b); [lia | exact Hb].
Qed.

Lemma findIndexFrom_none {A} (p : A → bool) (arr : list A) : ∀ i,
  (∀ a, a ∈ arr → p a = false) → findIndexFrom p arr i = -1.
Proof.
  induction arr as [|x rest IH]; intros i Hall; [reflexivity|].
  simpl. rewrite (Hall x) by left. apply IH. intros a Ha. apply Hall. right. exact Ha.
Qed.

(** With distinct identifiers, the entry at position [n] is the first one
    carrying its identifier. *)
Lemma findIndex_of_entry levels (n : nat) a :
  NoDup (idsOf levels) → levels !! n = Some a →
  findIndex (hasId (id a)) levels = Z.of_nat n.
Proof.
  intros Hnd Hn. unfold findIndex.
  rewrite (findIndexFrom_at _ _ n a 0 Hn); [lia | apply hasId_true; reflexivity |].
  intros m b Hm Hb. apply hasId_false. intros Heq.
  assert (Hm' : idsOf levels !! m = Some (id b)).
  { unfold idsOf. change (map id levels) with (id <$> levels).
    rewrite list_lookup_fmap, Hb. reflexivity. }
  assert (Hn' : idsOf levels !! n = Some (id a)).
  { unfold idsOf. change (map id levels) with (id <$> levels).
    rewrite list_lookup_fmap, Hn. reflexivity. }
  rewrite <- Heq in Hn'.
  pose proof (NoDup_lookup _ _ _ _ Hnd Hm' Hn'). lia.
Qed.

Lemma findIndex_unknown levels levelId :
  levelId ∉ idsOf levels → findIndex (hasId levelId) levels = -1.
Proof.
  intros Hnot. apply findIndexFrom_none. intros a Ha. apply hasId_false.
  intros Heq. apply Hnot. unfold idsOf. change (map id levels) with (id <$> levels).
  apply list_elem_of_fmap. exists a. split; [congruence | exact Ha].
Qed.

Lemma index_of_nat {A} (l : list A) (n : nat) : JS.index l (Z.of_nat n) = l !! n.
Proof.
  unfold JS.index. destruct (Z.of_nat n <? 0) eqn:E; [apply Z.ltb_lt in E; lia|].
  rewrite Nat2Z.id. reflexivity.
Qed.

Lemma find_hasId levels levelId :
  match find (hasId levelId) levels with
  | Some level => id level = levelId ∧ level ∈ levels
  | None => levelId ∉ idsOf levels
  end.
Proof.
  induction levels as [|x rest IH]; simpl.
  - intros H. inversion H.
  - destruct (hasId levelId x) eqn:E.
    + split; [apply hasId_true, E | left].
    + destruct (find (hasId levelId) rest) as [level|].
      * destruct IH as [Hid Hin]. split; [exact Hid | right; exact Hin].
      * intros Hin. apply elem_of_cons in Hin as [Heq | Hin]; [|exact (IH Hin)].
        apply hasId_false in E. congruence.
Qed.

Lemma ids_distinct : NoDup (idsOf LEVELS_METADATA).
Proof. apply (bool_decide_unpack _). vm_compute. exact I. Qed.

(** X5.  In a table whose identifiers are distinct, looking a level up by
    the identifier of an entry returns that entry, and an identifier that
    is not in the table gives undefined; whatever the table, a returned
    entry carries the identifier asked for.  The table of the source has
    distinct identifiers. *)
Theorem getLevelMetadata_finds_the_entry :
  (∀ levels levelId level,
      getLevelMetadataIn levels levelId = Some level →
      id level = levelId ∧ level ∈ levels)
  ∧ (∀ levels levelId,
      getLevelMetadataIn levels levelId = None ↔ levelId ∉ idsOf levels)
  ∧ (∀ levels level,
      NoDup (idsOf levels) → level ∈ levels →
      getLevelMetadataIn levels (id level) = Some level)
  ∧ NoDup (idsOf LEVELS_METADATA)
  ∧ (∀ level, level ∈ LEVELS_METADATA → getLevelMetadata (id level) = Some level).
Proof.
  assert (Hround : ∀ levels level,
             NoDup (idsOf levels) → level ∈ levels →
             getLevelMetadataIn levels (id level) = Some level).
  { intros levels level Hnd Hin. unfold getLevelMetadataIn.
    pose proof (find_hasId levels (id level)) as Hf.
    destruct (find (hasId (id level)) levels) as [found|].
    - destruct Hf as [Hid Hfound]. f_equal.
      apply list_elem_of_lookup in Hin as [n Hn].
      apply list_elem_of_lookup in Hfound as [m Hm].
      pose proof (findIndex_of_entry levels n level Hnd Hn) as H1.
      pose proof (findIndex_of_entry levels m found Hnd Hm) as H2.
      rewrite Hid in H2. assert (m = n) by lia. subst. congruence.
    - exfalso. apply Hf. unfold idsOf. change (map id levels) with (id <$> levels).
      apply list_elem_of_fmap. exists level. split; [reflexivity | exact Hin]. }
  split.
  { intros levels levelId level H. unfold getLevelMetadataIn in H.
    pose proof (find_hasId levels levelId) as Hf. rewrite H in Hf. exact Hf. }
  split.
  { intros levels levelId. unfold getLevelMetadataIn.
    pose proof (find_hasId levels levelId) as Hf.
    destruct (find (hasId levelId) levels) as [found|].
    - destruct Hf as [Hid Hin]. split; [discriminate|].
      intros Hnot. exfalso. apply Hnot. unfold idsOf.
      change (map id levels) with (id <$> levels).
      apply list_elem_of_fmap. exists found. split; [congruence | exact Hin].
    - split; [intros _; exact Hf | reflexivity]. }
  split; [exact Hround|].
  split; [exact ids_distinct|].
  intros level Hin. apply Hround; [exact ids_distinct | exact Hin].
Qed.

(** The property on the first level of the source's table. *)
Lemma getLevelMetadata_finds_the_entry_witness :
  getLevelMetadata (id brisaSuave) = Some brisaSuave.
Proof.
  destruct getLevelMetadata_finds_the_entry as (_ & _ & _ & _ & H).
  apply H. apply list_elem_of_here.
Defined.

Lemma next_of_entry levels (n : nat) a :
  NoDup (idsOf levels) → levels !! n = Some a →
  getNextLevelIn levels (id a) = levels !! S n.
Proof.
  intros Hnd Hn. unfold getNextLevelIn.
  rewrite (findIndex_of_entry levels n a Hnd Hn).
  pose proof (lookup_lt_Some _ _ _ Hn) as Hlt.
  destruct (Z.of_nat n =? -1) eqn:E1; [apply Z.eqb_eq in E1; lia|].
  destruct (Z.of_nat n =? Z.of_nat (length levels) - 1) eqn:E2; simpl.
  - apply Z.eqb_eq in E2. symmetry. apply lookup_ge_None. lia.
  - replace (Z.of_nat n + 1) with (Z.of_nat (S n)) by lia. apply index_of_nat.
Qed.

Lemma previous_of_entry levels (n : nat) a :
  NoDup (idsOf levels) → levels !! n = Some a →
  getPreviousLevelIn levels (id a) =
    match n with O => None | S m => levels !! m end.
Proof.
  intros Hnd Hn. unfold getPreviousLevelIn.
  rewrite (findIndex_of_entry levels n a Hnd Hn).
  destruct n as [|m]; [reflexivity|].
  destruct (Z.of_nat (S m) <=? 0) eqn:E; [apply Z.leb_le in E; lia|].
  replace (Z.of_nat (S m) - 1) with (Z.of_nat m) by lia. apply index_of_nat.
Qed.

(** X6.  In a table with distinct identifiers [getNextLevel] and
    [getPreviousLevel] step through the table and undo each other: the
    next level of an entry is the entry after it, whose previous level is
    the entry itself.  The last entry has no next level, the first no
    previous one, and an identifier that is not in the table has
    neither. *)
Theorem next_and_previous_are_inverse :
  ∀ levels,
    NoDup (idsOf levels) →
    (∀ (n : nat) a b,
        levels !! n = Some a → levels !! S n = Some b →
        getNextLevelIn levels (id a) = Some b
        ∧ getPreviousLevelIn levels (id b) = Some a)
    ∧ (∀ a b, a ∈ levels →
         (getNextLevelIn levels (id a) = Some b
          ↔ b ∈ levels ∧ getPreviousLevelIn levels (id b) = Some a))
    ∧ (∀ a, last levels = Some a → getNextLevelIn levels (id a) = None)
    ∧ (∀ a, head levels = Some a → getPreviousLevelIn levels (id a) = None)
    ∧ (∀ levelId, levelId ∉ idsOf levels →
         getNextLevelIn levels levelId = None
         ∧ getPreviousLevelIn levels levelId = None).
Proof.
  intros levels Hnd.
  split; [|split; [|split; [|split]]].
  - intros n a b Ha Hb.
    rewrite (next_of_entry levels n a Hnd Ha), (previous_of_entry levels (S n) b Hnd Hb).
    split; assumption.
  - intros a b Hin. apply list_elem_of_lookup in Hin as [n Hn].
    rewrite (next_of_entry levels n a Hnd Hn). split.
    + intros Hb. split; [apply list_elem_of_lookup; eauto|].
      rewrite (previous_of_entry levels (S n) b Hnd Hb). exact Hn.
    + intros [Hbin Hprev]. apply list_elem_of_lookup in Hbin as [m Hm].
      rewrite (previous_of_entry levels m b Hnd Hm) in Hprev.
      destruct m as [|m]; [discriminate|].
      assert (Hidm : idsOf levels !! m = Some (id a)).
      { unfold idsOf. change (map id levels) with (id <$> levels).
        rewrite list_lookup_fmap, Hprev. reflexivity. }
      assert (Hidn : idsOf levels !! n = Some (id a)).
      { unfold idsOf. change (map id levels) with (id <$> levels).
        rewrite list_lookup_fmap, Hn. reflexivity. }
      pose proof (NoDup_lookup _ _ _ _ Hnd Hidm Hidn). subst. exact Hm.
  - intros a Hlast. rewrite last_lookup in Hlast.
    rewrite (next_of_entry levels _ a Hnd Hlast).
    apply lookup_ge_None. destruct levels; simpl in *; [discriminate | lia].
  - intros a Hhead. rewrite head_lookup in Hhead.
    apply (previous_of_entry levels 0 a Hnd Hhead).
  - intros levelId Hnot. unfold getNextLevelIn, getPreviousLevelIn.
    rewrite (findIndex_unknown levels levelId Hnot). split; reflexivity.
Qed.

(** The property on the source's table: from wind_01 to wind_02 and
    back, and the two ends. *)
Lemma next_and_previous_are_inverse_witness :
  getNextLevel (id brisaSuave) = Some ventoCrescente
  ∧ getPreviousLevel (id ventoCrescente) = Some brisaSuave
  ∧ getNextLevel (id coracaoDoVento) = None
  ∧ getPreviousLevel (id brisaSuave) = None.
Proof.
  destruct (next_and_previous_are_inverse LEVELS_METADATA ids_distinct)
    as (Hstep & _ & Hlast & Hfirst & _).
  split; [|split; [|split]].
  - apply (Hstep 0%nat brisaSuave ventoCrescente); reflexivity.
  - apply (Hstep 0%nat brisaSuave ventoCrescente); reflexivity.
  - apply Hlast. reflexivity.
  - apply Hfirst. reflexivity.
Defined.

End LevelIndexProps.

(* ===================================================================== *)
(** ** Further properties of validation *)
(* ===================================================================== *)

Module SchemaProps.
Import Schema MainScene MountLevel.

(** *** Validation does not look at numeric values *)

Lemma lookupProp_renumber f key props :
  lookupProp key (map (λ kv, (fst kv, renumber f (snd kv))) props) =
    renumber f <$> lookupProp key props.
Proof.
  induction props as [|[k v] rest IH]; [reflexivity|].
  simpl. destruct (String.eqb k key); [reflexivity | exact IH].
Qed.

Lemma field_renumber f v key :
  field (renumber f <$> v) key = renumber f <$> field v key.
Proof.
  destruct v as [[]|]; try reflexivity. simpl. apply lookupProp_renumber.
Qed.

Lemma isNumber_renumber f v : isNumber (renumber f <$> v) = isNumber v.
Proof. destruct v as [[]|]; reflexivity. Qed.

Lemma isString_renumber f v : isString (renumber f <$> v) = isString v.
Proof. destruct v as [[]|]; reflexivity. Qed.

Lemma isLiteral_renumber f v s : isLiteral (renumber f <$> v) s = isLiteral v s.
Proof. destruct v as [[]|]; reflexivity. Qed.

Lemma isObject_renumber f v : isObject (renumber f <$> v) = isObject v.
Proof. destruct v as [[]|]; reflexivity. Qed.

Lemma isArray_renumber f v : isArray (renumber f <$> v) = isArray v.
Proof. destruct v as [[]|]; reflexivity. Qed.

Lemma every_renumber f (p : option json → bool) v :
  (∀ w, p (renumber f <$> w) = p w) →
  every p (renumber f <$> v) = every p v.
Proof.
  intros Hp. destruct v as [[]|]; try reflexivity. simpl.
  induction items as [|item rest IH]; [reflexivity|].
  simpl. rewrite IH. f_equal. apply (Hp (Some item)).
Qed.

Ltac renumber_fields :=
  repeat first
    [ rewrite field_renumber | rewrite isNumber_renumber | rewrite isString_renumber
    | rewrite isLiteral_renumber | rewrite isObject_renumber | rewrite isArray_renumber ].

Lemma isVector2_renumber f v : isVector2 (renumber f <$> v) = isVector2 v.
Proof. unfold isVector2. renumber_fields. reflexivity. Qed.

Lemma isGoal_renumber f v : isGoal (renumber f <$> v) = isGoal v.
Proof. unfold isGoal. renumber_fields. reflexivity. Qed.

Lemma isPlatform_renumber f v : isPlatform (renumber f <$> v) = isPlatform v.
Proof. unfold isPlatform. renumber_fields. reflexivity. Qed.

Lemma isHazard_renumber f v : isHazard (renumber f <$> v) = isHazard v.
Proof. unfold isHazard. renumber_fields. reflexivity. Qed.

Lemma isCollectible_renumber f v : isCollectible (renumber f <$> v) = isCollectible v.
Proof. unfold isCollectible. renumber_fields. reflexivity. Qed.

Lemma isWindZone_renumber f v : isWindZone (renumber f <$> v) = isWindZone v.
Proof. unfold isWindZone. renumber_fields. reflexivity. Qed.

Lemma isMovingPlatform_renumber f v :
  isMovingPlatform (renumber f <$> v) = isMovingPlatform v.
Proof. unfold isMovingPlatform. renumber_fields. reflexivity. Qed.

Lemma isCheckpoint_renumber f v : isCheckpoint (renumber f <$> v) = isCheckpoint v.
Proof. unfold isCheckpoint. renumber_fields. reflexivity. Qed.

(** X7.  Validation is structural only: replacing the numbers of a
    document by any other numbers never changes whether it is accepted.
    A difficulty outside 1 to 12, a negative size or radius and a pulse
    duration of 0 are all accepted where a number is expected. *)
Theorem validation_ignores_numeric_values :
  ∀ f data, validateLevelData (renumber f data) = validateLevelData data.
Proof.
  intros f data. unfold validateLevelData.
  change (Some (renumber f data)) with (renumber f <$> Some data).
  renumber_fields.
  rewrite isVector2_renumber, isGoal_renumber.
  rewrite (every_renumber f isPlatform) by apply isPlatform_renumber.
  rewrite (every_renumber f isHazard) by apply isHazard_renumber.
  rewrite (every_renumber f isCollectible) by apply isCollectible_renumber.
  rewrite (every_renumber f isWindZone) by apply isWindZone_renumber.
  rewrite (every_renumber f isMovingPlatform) by apply isMovingPlatform_renumber.
  rewrite (every_renumber f isCheckpoint) by apply isCheckpoint_renumber.
  rewrite (every_renumber f isString) by apply isString_renumber.
  reflexivity.
Qed.

(** *** What an accepted document gives the scene *)

Lemma numberOf_isNumber v : isNumber v = true → ∃ n, numberOf v = Some n.
Proof. destruct v as [[]|]; try discriminate. eauto. Qed.

Lemma isVector2_reading v :
  isVector2 v = true → ∃ spawn, v ≫= vector2Of = Some spawn.
Proof.
  unfold isVector2. destruct v as [obj|]; [|discriminate].
  destruct (negb (isObject (Some obj))); [discriminate|]. simpl field.
  intros H. apply andb_true_iff in H as [Hx Hy].
  destruct (numberOf_isNumber _ Hx) as [vx Hvx].
  destruct (numberOf_isNumber _ Hy) as [vy Hvy].
  exists (vx, vy). simpl. unfold vector2Of. rewrite Hvx, Hvy. reflexivity.
Qed.

Lemma isWindZone_reading w :
  isWindZone (Some w) = true →
  ∃ z, windZoneOf w = Some z ∧ (type z = pulsed → is_Some (pulseDuration z)).
Proof.
  unfold isWindZone. destruct (negb (isObject (Some w))); [discriminate|].
  simpl field.
  destruct (isNumber (prop w "x")) eqn:Hx; [|discriminate].
  destruct (isNumber (prop w "y")) eqn:Hy; [|discriminate].
  destruct (isNumber (prop w "width")) eqn:Hw; [|discriminate].
  destruct (isNumber (prop w "height")) eqn:Hh; [|discriminate].
  destruct (isNumber (prop w "forceX")) eqn:Hfx; [|discriminate].
  destruct (isNumber (prop w "forceY")) eqn:Hfy; [|discriminate].
  destruct (numberOf_isNumber _ Hx) as [wx Hwx].
  destruct (numberOf_isNumber _ Hy) as [wy Hwy].
  destruct (numberOf_isNumber _ Hw) as [ww Hww].
  destruct (numberOf_isNumber _ Hh) as [wh Hwh].
  destruct (numberOf_isNumber _ Hfx) as [fx Hfx'].
  destruct (numberOf_isNumber _ Hfy) as [fy Hfy'].
  unfold windZoneOf. rewrite Hwx, Hwy, Hww, Hwh, Hfx', Hfy'. simpl.
  unfold windTypeOf, isLiteral, stringOf.
  destruct (prop w "type") as [[| | |s| |]|]; simpl; try discriminate.
  destruct (String.eqb s "constant") eqn:Ec; simpl.
  - intros _. eexists. split; [reflexivity|]. simpl. discriminate.
  - destruct (String.eqb s "pulsed") eqn:Ep; simpl; [|discriminate].
    destruct (isNumber (prop w "pulseDuration")) eqn:Hpd; simpl; [|discriminate].
    intros _. destruct (numberOf_isNumber _ Hpd) as [pd Hpd'].
    eexists. split; [reflexivity|]. simpl. intros _. rewrite Hpd'. eauto.
Qed.

Lemma every_reading {A} (p : option json → bool) (item : json → option A)
    (good : A → Prop) v :
  (∀ j, p (Some j) = true → ∃ a, item j = Some a ∧ good a) →
  every p v = true →
  ∃ l, arrayOf item v = Some l ∧ Forall good l.
Proof.
  intros Hp. destruct v as [[]|]; try discriminate. simpl.
  induction items as [|j rest IH]; simpl.
  - intros _. exists []. split; [reflexivity | constructor].
  - intros H. apply andb_true_iff in H as [Hj Hrest].
    destruct (Hp j Hj) as (a & Ha & Hgood).
    destruct (IH Hrest) as (l & Hl & Hall).
    exists (a :: l). split; [|constructor; assumption].
    change (mapM item (j :: rest)) with
      (item j ≫= λ y, mapM item rest ≫= λ k, mret (y :: k)).
    rewrite Ha, Hl. reflexivity.
Qed.

Lemma isString_reading j : isString (Some j) = true → ∃ s, stringOf (Some j) = Some s ∧ True.
Proof. destruct j; try discriminate. eauto. Qed.

Lemma validateLevelData_parts data :
  validateLevelData data = true →
  (∃ props, data = JObj props)
  ∧ isVector2 (prop data "playerSpawn") = true
  ∧ every isWindZone (prop data "windZones") = true
  ∧ every isString (prop data "hints") = true.
Proof.
  unfold validateLevelData.
  destruct (negb (isObject (Some data))) eqn:E0; [discriminate|].
  destruct (_ || _) eqn:E1; [discriminate|].
  destruct (negb (isVector2 _) || _ || _ || _ || _ || _ || _ || _ || _) eqn:E2;
    [discriminate|].
  destruct (negb (every isPlatform _) || _ || _ || _ || _ || _ || _) eqn:E3;
    [discriminate|]. intros _.
  repeat (apply orb_false_iff in E1 as [E1 ?]).
  repeat (apply orb_false_iff in E2 as [E2 ?]).
  repeat (apply orb_false_iff in E3 as [E3 ?]).
  simpl field in *.
  split.
  { destruct data; try discriminate. eauto. }
  repeat match goal with
         | H : negb _ = false |- _ => apply negb_false_iff in H
         end.
  repeat split; assumption.
Qed.

(** X8.  Every accepted document is an object (never null, an array or a
    primitive) from which the scene can be built: the player spawn reads
    as two numbers and is where the player starts, every entry of
    [windZones] reads as a wind zone and gets one runtime record with
    timer 0, every pulsed zone has a numeric pulse duration, and the
    hints read as strings.  The scene starts with the jump available and
    with no coin and no death counted. *)
Theorem accepted_document_builds_a_scene :
  ∀ data,
    validateLevelData data = true →
    (∃ props, data = JObj props)
    ∧ ∃ spawn zones hs,
        prop data "playerSpawn" ≫= vector2Of = Some spawn
        ∧ arrayOf windZoneOf (prop data "windZones") = Some zones
        ∧ arrayOf (λ h, stringOf (Some h)) (prop data "hints") = Some hs
        ∧ Forall (λ z, type z = pulsed → is_Some (pulseDuration z)) zones
        ∧ sceneOf data = Some (createScene spawn zones hs)
        ∧ (x (player (createScene spawn zones hs)),
           y (player (createScene spawn zones hs))) = spawn
        ∧ windZones (createScene spawn zones hs) =
            map (λ z, mkWindZoneData z true 0) zones
        ∧ hints (createScene spawn zones hs) = hs
        ∧ canJump (createScene spawn zones hs) = true
        ∧ coinCount (createScene spawn zones hs) = 0
        ∧ deaths (createScene spawn zones hs) = 0.
Proof.
  intros data Hv.
  destruct (validateLevelData_parts data Hv) as (Hobj & Hspawn & Hzones & Hhints).
  split; [exact Hobj|].
  destruct (isVector2_reading _ Hspawn) as [spawn Hs].
  destruct (every_reading isWindZone windZoneOf
              (λ z, type z = pulsed → is_Some (pulseDuration z)) _
              isWindZone_reading Hzones) as (zones & Hz & Hall).
  destruct (every_reading isString (λ h, stringOf (Some h)) (λ _, True) _
              isString_reading Hhints) as (hs & Hh & _).
  exists spawn, zones, hs.
  split; [exact Hs|]. split; [exact Hz|]. split; [exact Hh|]. split; [exact Hall|].
  split.
  { unfold sceneOf. rewrite Hs. cbn [mbind option_bind].
    rewrite Hz. cbn [mbind option_bind]. rewrite Hh. reflexivity. }
  destruct spawn. repeat split.
Qed.

(** The property on the document of wind_01. *)
Lemma accepted_document_builds_a_scene_witness :
  ∃ sc, sceneOf (LoadLevel.doc LoadLevel.wind_01) = Some sc.
Proof.
  destruct (accepted_document_builds_a_scene (LoadLevel.doc LoadLevel.wind_01) eq_refl)
    as (_ & spawn & zones & hs & _ & _ & _ & _ & H & _).
  eexists. exact H.
Defined.

End SchemaProps.

(* ===================================================================== *)
(** ** Further properties of the level loader *)
(* ===================================================================== *)

Module LoaderProps.
Import Schema LoadLevel LoadLevelProps.

(** *** One call *)

Lemma loadLevel_resume_loadable source levelId c :
  loadLevel_resume levelId (source levelId) c =
    match loadable source levelId with
    | Some data => (Resolved data, <[levelId := data]> c, [Validate data])
    | None =>
        (Rejected (couldNotLoad levelId), c,
         match source levelId with
         | Some data => [Validate data; ConsoleError levelId]
         | None => [ConsoleError levelId]
         end)
    end.
Proof.
  unfold loadLevel_resume, loadable. destruct (source levelId) as [data|]; [|reflexivity].
  destruct (validateLevelData (doc data)); reflexivity.
Qed.

(** X9.  [loadLevel] goes to the source exactly when the level is not in
    the cache: a cached level is returned with no effect at all, and any
    other call starts with the import.  A call never removes or changes
    an entry of the cache; it can only add the entry of its own level.
    After [clearLevelCache] nothing is cached and every call goes to the
    source again. *)
Theorem loadLevel_touches_only_its_entry :
  ∀ source levelId c,
    (snd (loadLevel source levelId c) = [] ↔ is_Some (getCachedLevel levelId c))
    ∧ (getCachedLevel levelId c = None →
         ∃ rest, snd (loadLevel source levelId c) = Import levelId :: rest)
    ∧ c ⊆ snd (fst (loadLevel source levelId c))
    ∧ (∀ other, other ≠ levelId →
         getCachedLevel other (snd (fst (loadLevel source levelId c)))
           = getCachedLevel other c)
    ∧ getCachedLevel levelId (clearLevelCache c) = None
    ∧ ∃ rest, snd (loadLevel source levelId (clearLevelCache c)) = Import levelId :: rest.
Proof.
  intros source levelId c.
  assert (Hmiss : ∀ c0 : Cache, c0 !! levelId = None →
            ∃ rest, snd (loadLevel source levelId c0) = Import levelId :: rest).
  { intros c0 H0. unfold loadLevel, loadLevel_begin. rewrite H0.
    destruct (loadLevel_resume levelId (source levelId) c0) as [[o c1] e1].
    simpl. eauto. }
  unfold getCachedLevel.
  split; [|split; [exact (Hmiss c) | split; [|split; [|split]]]].
  - destruct (c !! levelId) as [d|] eqn:E.
    + rewrite (loadLevel_hit source levelId c d E). simpl. split; eauto.
    + destruct (Hmiss c E) as [rest ->]. split; [discriminate|].
      intros [d Hd]. discriminate.
  - unfold loadLevel, loadLevel_begin.
    destruct (c !! levelId) as [d|] eqn:E; [reflexivity|].
    rewrite loadLevel_resume_loadable.
    destruct (loadable source levelId); simpl; [|reflexivity].
    apply insert_subseteq, E.
  - intros other Hne. unfold loadLevel, loadLevel_begin.
    destruct (c !! levelId) as [d|] eqn:E; [reflexivity|].
    rewrite loadLevel_resume_loadable.
    destruct (loadable source levelId); simpl; [|reflexivity].
    apply lookup_insert_ne. congruence.
  - apply lookup_empty.
  - apply Hmiss. apply lookup_empty.
Qed.

(** The property on the first call for wind_01. *)
Lemma loadLevel_touches_only_its_entry_witness :
  ∃ rest, snd (loadLevel windSource "wind_01" ∅) = Import "wind_01" :: rest.
Proof.
  destruct (loadLevel_touches_only_its_entry windSource "wind_01"%string ∅)
    as (_ & H & _).
  apply H. apply lookup_empty.
Defined.

(** *** Any number of calls *)

(** X10.  Whatever calls are started and resumed, in whatever order,
    beginning with an empty cache: every level found in the cache is the
    source's object for its identifier and has passed validation. *)
Theorem cache_holds_only_validated_levels :
  ∀ source actions l reports,
    steps source actions emptyLoader = (l, reports) →
    ∀ levelId data,
      getCachedLevel levelId (cache l) = Some data →
      source levelId = Some data ∧ validateLevelData (doc data) = true.
Proof.
  intros source actions l reports Hsteps levelId data Hc.
  destruct (steps_cache source actions emptyLoader l reports
              (cacheSound_empty source) Hsteps) as [Hsound _].
  apply (Hsound levelId data Hc).
Qed.

(** The property on three calls, one of them for a level that fails
    validation. *)
Lemma cache_holds_only_validated_levels_witness :
  validateLevelData (doc wind_01) = true.
Proof.
  apply (cache_holds_only_validated_levels windSource
           [Call "wind_01"; Call "wind_03"; Settle 1; Settle 0; Call "wind_01"]%string
           (mkLoader (<["wind_01"%string := wind_01]> ∅) [])
           [(None, [Import "wind_01"]); (None, [Import "wind_03"]);
            (Some ("wind_03", Rejected (couldNotLoad "wind_03")),
             [Validate noGoal; ConsoleError "wind_03"]);
            (Some ("wind_01", Resolved wind_01), [Validate wind_01]);
            (Some ("wind_01", Resolved wind_01), [])]%string
           eq_refl "wind_01"%string wind_01).
  reflexivity.
Defined.

(** *** preloadLevels *)

Lemma steps_app source a : ∀ b l,
  steps source (a ++ b) l =
    (fst (steps source b (fst (steps source a l))),
     snd (steps source a l) ++ snd (steps source b (fst (steps source a l)))).
Proof.
  induction a as [|x a IH]; intros b l; simpl.
  - destruct (steps source b l); reflexivity.
  - destruct (step source x l) as [l1 r]. rewrite IH.
    destruct (steps source a l1) as [l2 rs]. reflexivity.
Qed.

Lemma elem_of_delete_at {A} (l : list A) : ∀ (n : nat) x, x ∈ delete n l → x ∈ l.
Proof.
  induction l as [|a l IH]; intros n x H; [destruct n; exact H|].
  destruct n as [|n]; simpl in H.
  - right. exact H.
  - apply elem_of_cons in H as [->|H]; [left | right; eapply IH, H].
Qed.

Lemma elem_of_deleted {A} (l : list A) : ∀ (n : nat) i x,
  l !! n = Some i → x ∈ l → x ∉ delete n l → x = i.
Proof.
  induction l as [|a l IH]; intros n i x Hn Hx Hnot; [inversion Hx|].
  destruct n as [|n]; simpl in *.
  - injection Hn as ->. apply elem_of_cons in Hx as [->|Hx]; [reflexivity|contradiction].
  - apply not_elem_of_cons in Hnot as [Hne Hnot].
    apply elem_of_cons in Hx as [->|Hx]; [contradiction|].
    eapply IH; eassumption.
Qed.

(** Starting the calls: the cache is only read, and a call is suspended
    for every identifier that is not cached. *)
Lemma calls_spec source levelIds : ∀ l l1 rs,
  steps source (map Call levelIds) l = (l1, rs) →
  cache l1 = cache l
  ∧ (∀ levelId, levelId ∈ inFlight l1 ↔
       levelId ∈ inFlight l ∨ (levelId ∈ levelIds ∧ cache l !! levelId = None))
  ∧ preloadResolves rs = true.
Proof.
  induction levelIds as [|i rest IH]; intros l l1 rs; simpl.
  - intros H. injection H as <- <-. split; [reflexivity|]. split; [|reflexivity].
    intros levelId. split; [auto|]. intros [H | [H _]]; [exact H | inversion H].
  - unfold loadLevel_begin.
    destruct (cache l !! i) as [d|] eqn:E; simpl.
    + destruct (steps source (map Call rest) l) as [l2 rs'] eqn:E2.
      intros H. injection H as <- <-.
      destruct (IH _ _ _ E2) as (Hc & Hin & Hres).
      split; [exact Hc|]. split; [|exact Hres].
      intros levelId. rewrite Hin. split.
      * intros [H | [H Hn]]; [left; exact H | right; split; [right; exact H | exact Hn]].
      * intros [H | [H Hn]]; [left; exact H|].
        apply elem_of_cons in H as [->|H]; [congruence | right; split; assumption].
    + destruct (steps source (map Call rest) (mkLoader (cache l) (inFlight l ++ [i])))
        as [l2 rs'] eqn:E2.
      intros H. injection H as <- <-.
      destruct (IH _ _ _ E2) as (Hc & Hin & Hres). simpl in Hc, Hin.
      split; [exact Hc|]. split; [|exact Hres].
      intros levelId. rewrite Hin, elem_of_app, list_elem_of_singleton. split.
      * intros [[H | ->] | [H Hn]].
        -- left; exact H.
        -- right. split; [left | exact E].
        -- right. split; [right; exact H | exact Hn].
      * intros [H | [H Hn]]; [left; left; exact H|].
        apply elem_of_cons in H as [->|H]; [left; right; reflexivity|].
        right. split; assumption.
Qed.

(** Resuming suspended calls, in any order. *)
Lemma drain_spec source schedule : ∀ l l' rs,
  cacheSound source (cache l) →
  steps source (map Settle schedule) l = (l', rs) →
  (∀ levelId data, cache l' !! levelId = Some data →
     cache l !! levelId = Some data
     ∨ (levelId ∈ inFlight l ∧ loadable source levelId = Some data))
  ∧ (∀ levelId, levelId ∈ inFlight l' → levelId ∈ inFlight l)
  ∧ (∀ levelId, levelId ∈ inFlight l → levelId ∉ inFlight l' →
       match loadable source levelId with
       | Some data => cache l' !! levelId = Some data
       | None => ∃ e, (Some (levelId, Rejected (couldNotLoad levelId)), e) ∈ rs
       end)
  ∧ (∀ levelId message e, (Some (levelId, Rejected message), e) ∈ rs →
       levelId ∈ inFlight l ∧ loadable source levelId = None).
Proof.
  induction schedule as [|n rest IH]; intros l l' rs Hs; simpl.
  - intros H. injection H as <- <-.
    split; [auto|]. split; [auto|]. split; [intros; contradiction|].
    intros levelId message e Hin. inversion Hin.
  - destruct (inFlight l !! n) as [i|] eqn:En.
    + rewrite loadLevel_resume_loadable.
      assert (Hi : i ∈ inFlight l) by (apply list_elem_of_lookup; eauto).
      destruct (loadable source i) as [d0|] eqn:El.
      * destruct (steps source (map Settle rest)
                    (mkLoader (<[i := d0]> (cache l)) (delete n (inFlight l))))
          as [l2 rs'] eqn:E2.
        intros H. injection H as <- <-.
        assert (Hs1 : cacheSound source (<[i := d0]> (cache l))).
        { intros k d Hk. destruct (decide (i = k)) as [<-|Hne].
          - rewrite lookup_insert_eq in Hk. injection Hk as <-.
            unfold loadable in El. destruct (source i) as [d1|]; [|discriminate].
            destruct (validateLevelData (doc d1)) eqn:Ev; [|discriminate].
            injection El as <-. auto.
          - rewrite lookup_insert_ne in Hk by exact Hne. apply Hs, Hk. }
        destruct (IH (mkLoader _ _) _ _ Hs1 E2) as (HA & HB & HC & HD). simpl in HA, HB, HC, HD.
        destruct (steps_cache _ _ (mkLoader _ _) _ _ Hs1 E2) as [_ Hmono]. simpl in Hmono.
        split; [|split; [|split]].
        -- intros k d Hk. destruct (HA k d Hk) as [Hc | [Hin Hl]].
           ++ destruct (decide (i = k)) as [<-|Hne].
              ** rewrite lookup_insert_eq in Hc. injection Hc as <-. right. auto.
              ** rewrite lookup_insert_ne in Hc by exact Hne. left. exact Hc.
           ++ right. split; [eapply elem_of_delete_at, Hin | exact Hl].
        -- intros k Hk. eapply elem_of_delete_at, HB, Hk.
        -- intros k Hk Hnot.
           destruct (decide (k ∈ delete n (inFlight l))) as [Hin | Hout].
           ++ specialize (HC k Hin Hnot).
              destruct (loadable source k); [exact HC|].
              destruct HC as [e He]. exists e. right. exact He.
           ++ pose proof (elem_of_deleted _ _ _ _ En Hk Hout) as ->.
              rewrite El. apply Hmono. apply lookup_insert_eq.
        -- intros k message e Hin. apply elem_of_cons in Hin as [Heq | Hin].
           ++ discriminate.
           ++ destruct (HD k message e Hin) as [Hk Hl].
              split; [eapply elem_of_delete_at, Hk | exact Hl].
      * destruct (steps source (map Settle rest)
                    (mkLoader (cache l) (delete n (inFlight l))))
          as [l2 rs'] eqn:E2.
        intros H. injection H as <- <-.
        destruct (IH (mkLoader _ _) _ _ Hs E2) as (HA & HB & HC & HD). simpl in HA, HB, HC, HD.
        split; [|split; [|split]].
        -- intros k d Hk. destruct (HA k d Hk) as [Hc | [Hin Hl]]; [left; exact Hc|].
           right. split; [eapply elem_of_delete_at, Hin | exact Hl].
        -- intros k Hk. eapply elem_of_delete_at, HB, Hk.
        -- intros k Hk Hnot.
           destruct (decide (k ∈ delete n (inFlight l))) as [Hin | Hout].
           ++ specialize (HC k Hin Hnot).
              destruct (loadable source k); [exact HC|].
              destruct HC as [e He]. exists e. right. exact He.
           ++ pose proof (elem_of_deleted _ _ _ _ En Hk Hout) as ->.
              rewrite El. eexists. left.
        -- intros k message e Hin. apply elem_of_cons in Hin as [Heq | Hin].
           ++ injection Heq as -> _ _. auto.
           ++ destruct (HD k message e Hin) as [Hk Hl].
              split; [eapply elem_of_delete_at, Hk | exact Hl].
    + destruct (steps source (map Settle rest) l) as [l2 rs'] eqn:E2.
      intros H. injection H as <- <-.
      destruct (IH _ _ _ Hs E2) as (HA & HB & HC & HD).
      split; [exact HA|]. split; [exact HB|]. split.
      * intros k Hk Hnot. specialize (HC k Hk Hnot).
        destruct (loadable source k); [exact HC|].
        destruct HC as [e He]. exists e. right. exact He.
      * intros k message e Hin. apply elem_of_cons in Hin as [Heq | Hin];
          [discriminate | exact (HD k message e Hin)].
Qed.

(** X11.  [preloadLevels] with no call in flight before it: once every
    call it started has resumed, in whatever order the imports settled,
    each listed level that was cached is still the same object, each
    other listed level is cached exactly if the source has it and it
    passes validation, and the entries of levels that are not listed are
    as they were.  The preload as a whole resolves exactly when every
    listed level ends up cached; when it is rejected, the levels that
    could be loaded are cached all the same. *)
Theorem preload_caches_every_loadable_level :
  ∀ source levelIds schedule l l' reports,
    cacheSound source (cache l) → inFlight l = [] →
    preloadLevels source levelIds schedule l = (l', reports) →
    inFlight l' = [] →
    (∀ levelId, levelId ∈ levelIds →
       getCachedLevel levelId (cache l') =
         match getCachedLevel levelId (cache l) with
         | Some data => Some data
         | None => loadable source levelId
         end)
    ∧ (∀ levelId, levelId ∉ levelIds →
         getCachedLevel levelId (cache l') = getCachedLevel levelId (cache l))
    ∧ (preloadResolves reports = true ↔
         ∀ levelId, levelId ∈ levelIds → is_Some (getCachedLevel levelId (cache l'))).
Proof.
  intros source levelIds schedule l l' reports Hs Hidle Hpre Hdone.
  unfold preloadLevels in Hpre. rewrite steps_app in Hpre.
  destruct (steps source (map Call levelIds) l) as [l1 rs1] eqn:E1. simpl in Hpre.
  destruct (steps source (map Settle schedule) l1) as [l2 rs2] eqn:E2.
  simpl in Hpre. injection Hpre as <- <-.
  destruct (calls_spec _ _ _ _ _ E1) as (Hc1 & Hin1 & Hres1).
  assert (Hs1 : cacheSound source (cache l1)) by (rewrite Hc1; exact Hs).
  destruct (drain_spec _ _ _ _ _ Hs1 E2) as (HA & HB & HC & HD).
  destruct (steps_cache _ _ _ _ _ Hs1 E2) as [_ Hmono].
  rewrite Hc1 in HA, Hmono. unfold getCachedLevel.
  assert (Hflight : ∀ k, k ∈ inFlight l1 ↔ k ∈ levelIds ∧ cache l !! k = None).
  { intros k. rewrite Hin1, Hidle. split; [intros [H|H]; [inversion H | exact H] | auto]. }
  assert (Hnone : ∀ k, k ∉ inFlight l2).
  { intros k. rewrite Hdone. intros H. inversion H. }
  assert (Hone : ∀ k, k ∈ levelIds →
            cache l2 !! k = match cache l !! k with
                            | Some data => Some data
                            | None => loadable source k
                            end).
  { intros k Hk. destruct (cache l !! k) as [d|] eqn:Ek; [apply Hmono, Ek|].
    assert (Hkf : k ∈ inFlight l1) by (apply Hflight; auto).
    specialize (HC k Hkf (Hnone k)).
    destruct (loadable source k) as [d|] eqn:El; [exact HC|].
    destruct (cache l2 !! k) as [d|] eqn:E; [|reflexivity].
    destruct (HA k d E) as [H | [_ H]]; congruence. }
  split; [exact Hone|]. split.
  - intros k Hk. destruct (cache l2 !! k) as [d|] eqn:E.
    + destruct (HA k d E) as [H | [H _]]; [congruence|].
      apply Hflight in H as [H _]. contradiction.
    + destruct (cache l !! k) as [d|] eqn:Ek; [|reflexivity].
      rewrite (Hmono k d Ek) in E. discriminate.
  - unfold preloadResolves in *. rewrite forallb_app, Hres1. simpl. split.
    + intros Hall k Hk. rewrite (Hone k Hk).
      destruct (cache l !! k) as [d|] eqn:Ek; [eauto|].
      assert (Hkf : k ∈ inFlight l1) by (apply Hflight; auto).
      specialize (HC k Hkf (Hnone k)).
      destruct (loadable source k) as [d|]; [eauto|].
      destruct HC as [e He]. apply list_elem_of_In in He.
      apply (proj1 (forallb_forall _ _) Hall) in He. discriminate.
    + intros Hall. apply forallb_forall. intros r Hr. apply list_elem_of_In in Hr.
      destruct r as [[[k [d|message]]|] e]; try reflexivity.
      exfalso. destruct (HD k message e Hr) as [Hkf Hl].
      apply Hflight in Hkf as [Hk Hck].
      destruct (Hall k Hk) as [d Hd]. rewrite (Hone k Hk), Hck, Hl in Hd. discriminate.
Qed.

(** The property on a preload of wind_01 and wind_03 (which fails
    validation), wind_01 being listed twice and the imports settling
    last to first. *)
Lemma preload_caches_every_loadable_level_witness :
  getCachedLevel "wind_01"
    (cache (fst (preloadLevels windSource ["wind_01"; "wind_03"; "wind_01"]%string
                   [2; 1; 0]%nat emptyLoader)))
    = Some wind_01
  ∧ preloadResolves
      (snd (preloadLevels windSource ["wind_01"; "wind_03"; "wind_01"]%string
              [2; 1; 0]%nat emptyLoader)) = false.
Proof.
  destruct (preload_caches_every_loadable_level windSource
              ["wind_01"; "wind_03"; "wind_01"]%string [2; 1; 0]%nat emptyLoader
              _ _ (cacheSound_empty windSource) eq_refl
              (surjective_pairing _) eq_refl) as (Hone & _ & Hall).
  split.
  - rewrite Hone by left. reflexivity.
  - destruct (preloadResolves _) eqn:E; [|reflexivity].
    destruct (proj1 Hall eq_refl "wind_03"%string) as [d Hd].
    + right. left.
    + rewrite Hone in Hd by (right; left). discriminate.
Defined.

End LoaderProps.

(* ===================================================================== *)
(** ** Further properties of the event bus *)
(* ===================================================================== *)

Module BusProps.
Import EventBus Listeners EventBusProps.

Lemma filter_all {A} (P : A → Prop) `{∀ a, Decision (P a)} (l : list A) :
  (∀ a, a ∈ l → P a) → filter P l = l.
Proof.
  induction l as [|a l IH]; intros Hall; [reflexivity|].
  rewrite filter_cons_True by (apply Hall; left).
  f_equal. apply IH. intros b Hb. apply Hall. right. exact Hb.
Qed.

(** A body keeps the bus free of duplicates when the emissions it
    starts do. *)
Lemma wellFormed_runBody emitNow body :
  (∀ e d ev r, wellFormed ev → emitNow e d ev = Some r → wellFormed (busAfter r)) →
  ∀ events r,
    wellFormed events → runBody emitNow body events = Some r → wellFormed (busAfter r).
Proof.
  intros Hemit. induction body as [|step body IH]; intros events r Hwf.
  - intros H. injection H as <-. exact Hwf.
  - destruct step as [e cb | e cb | e d |]; cbn [runBody].
    + apply IH, wellFormed_on, Hwf.
    + apply IH, wellFormed_off, Hwf.
    + destruct (emitNow e d events) as [[ev1 log1 [|]]|] eqn:E; [| |discriminate].
      * pose proof (Hemit _ _ _ _ Hwf E) as Hwf1. simpl in Hwf1.
        destruct (runBody emitNow body ev1) as [[ev2 log2 c]|] eqn:E2; [|discriminate].
        intros H. injection H as <-. apply (IH _ _ Hwf1 E2).
      * intros H. injection H as <-. apply (Hemit _ _ _ _ Hwf E).
    + intros H. injection H as <-. exact Hwf.
Qed.

Lemma wellFormed_forEach program fuel : ∀ event data index events r,
  wellFormed events →
  forEach fuel program event data index events = Some r →
  wellFormed (busAfter r) ∧ Forall (λ c, snd c = data) (calls (invoked r)).
Proof.
  induction fuel as [|fuel IH]; intros event data index events r Hwf; [discriminate|].
  cbn [forEach].
  destruct (default [] (events !! event) !! index) as [[cb|]|].
  - cbv zeta.
    set (emitNow := λ e d ev,
           match ev !! e with
           | Some _ => forEach fuel program e d 0 ev
           | None => Some (mkEmission ev [] Returned)
           end).
    assert (Hemit : ∀ e d ev r0, wellFormed ev → emitNow e d ev = Some r0 →
              wellFormed (busAfter r0)).
    { intros e d ev r0 Hev. unfold emitNow. destruct (ev !! e).
      - intros H. apply (IH _ _ _ _ _ Hev H).
      - intros H. injection H as <-. exact Hev. }
    destruct (runBody emitNow (program cb) events) as [[ev1 during [|]]|] eqn:E;
      [| |discriminate].
    + pose proof (wellFormed_runBody emitNow _ Hemit _ _ Hwf E) as Hwf1. simpl in Hwf1.
      destruct (forEach fuel program event data (S index) ev1) as [[ev2 log c]|] eqn:E2;
        [|discriminate].
      intros H. injection H as <-.
      destruct (IH _ _ _ _ _ Hwf1 E2) as [Hw Hc].
      split; [exact Hw|]. constructor; [reflexivity | exact Hc].
    + intros H. injection H as <-.
      split; [apply (wellFormed_runBody emitNow _ Hemit _ _ Hwf E)|].
      repeat constructor.
  - apply IH, Hwf.
  - intros H. injection H as <-. split; [exact Hwf | constructor].
Qed.

Lemma wellFormed_removeAllListeners event events :
  wellFormed events → wellFormed (removeAllListeners event events).
Proof.
  intros Hwf. destruct event as [[|c rest]|]; simpl; try apply wellFormed_empty.
  intros e s H. apply lookup_delete_Some in H as [_ H]. apply (Hwf _ _ H).
Qed.

(** X12.  [removeAllListeners(event)] with a name that is not empty
    leaves no listener for that event and the listeners of every other
    event as they were; without a name, or with the empty string (which
    is falsy), it leaves no listener at all.  An [emit] for an event
    whose listeners were removed calls nobody and leaves the bus as it
    is, whatever the callbacks of the bus would do.  On a bus that has
    no callback registered twice, neither [removeAllListeners] nor an
    [emit], whatever its callbacks do (they may register, remove, emit
    and throw), leaves one registered twice, and every call an [emit]
    makes carries the payload it was given. *)
Theorem removeAllListeners_silences :
  (∀ events event e,
      event ≠ EmptyString →
      registered e (removeAllListeners (Some event) events) =
        if decide (e = event) then [] else registered e events)
  ∧ (∀ events e,
      registered e (removeAllListeners None events) = []
      ∧ registered e (removeAllListeners (Some EmptyString) events) = [])
  ∧ (∀ events event fuel program data,
      emit fuel program event data (removeAllListeners (Some event) events) =
        Some (mkEmission (removeAllListeners (Some event) events) [] Returned)
      ∧ emit fuel program event data (removeAllListeners None events) =
          Some (mkEmission ∅ [] Returned))
  ∧ (∀ events event, wellFormed events → wellFormed (removeAllListeners event events))
  ∧ (∀ events fuel program event data r,
      wellFormed events →
      emit fuel program event data events = Some r →
      wellFormed (busAfter r) ∧ ∀ cb d, (cb, d) ∈ calls (invoked r) → d = data).
Proof.
  split; [|split; [|split; [|split]]].
  - intros events event e Hne. destruct event as [|c rest]; [contradiction|].
    unfold registered. simpl.
    destruct (decide (e = String c rest)) as [->|Hd].
    + rewrite lookup_delete_eq. reflexivity.
    + rewrite lookup_delete_ne by (intros E; apply Hd; symmetry; exact E). reflexivity.
  - intros events e. unfold registered. simpl. rewrite lookup_empty. split; reflexivity.
  - intros events event fuel program data. split.
    + unfold emit. destruct event as [|c rest]; simpl.
      * rewrite lookup_empty. reflexivity.
      * rewrite lookup_delete_eq. reflexivity.
    + unfold emit. simpl. rewrite lookup_empty. reflexivity.
  - intros events event. apply wellFormed_removeAllListeners.
  - intros events fuel program event data r Hwf. unfold emit.
    destruct (events !! event) as [s|].
    + intros H. destruct (wellFormed_forEach _ _ _ _ _ _ _ Hwf H) as [Hw Hc].
      split; [exact Hw|]. intros cb d Hin.
      rewrite Forall_forall in Hc. apply (Hc _ Hin).
    + intros H. injection H as <-. split; [exact Hwf|].
      intros cb d Hin. inversion Hin.
Qed.

(** The property on the bus with two listeners, and on an emission
    whose first callback emits another event itself. *)
Lemma removeAllListeners_silences_witness :
  registered "level-completed" (removeAllListeners (Some "level-completed"%string)
                                  (on "player-died" 3%nat twoListeners)) = []
  ∧ registered "player-died" (removeAllListeners (Some "level-completed"%string)
                                (on "player-died" 3%nat twoListeners)) = [3%nat]
  ∧ wellFormed (removeAllListeners (Some "level-completed"%string) twoListeners)
  ∧ ∃ r, emit 5 announcer "level-completed" 7%positive twoEvents = Some r
         ∧ invoked r =
             [Invoked 1%nat 7%positive
                [Invoked 2%nat 9%positive []; Invoked 3%nat 9%positive []]]
         ∧ wellFormed (busAfter r).
Proof.
  destruct removeAllListeners_silences as (Hone & _ & _ & Hwf & Hemit).
  split; [|split; [|split]].
  - rewrite Hone by discriminate. reflexivity.
  - rewrite Hone by discriminate. reflexivity.
  - apply Hwf. unfold twoListeners.
    repeat apply wellFormed_on. apply wellFormed_empty.
  - destruct (emit 5 announcer "level-completed" 7%positive twoEvents) as [r|] eqn:E;
      [|vm_compute in E; discriminate].
    exists r. split; [reflexivity|]. split.
    + vm_compute in E. injection E as <-. reflexivity.
    + apply (Hemit twoEvents 5%nat announcer "level-completed"%string 7%positive r);
        [|exact E].
      unfold twoEvents. repeat apply wellFormed_on. apply wellFormed_empty.
Defined.

(** X13.  Subscribing and unsubscribing undo each other: [off] after
    [on] of a callback that was not registered gives back the listeners
    as they were, in the same order.  The other way round they do not:
    [on] after [off] of a registered callback moves it behind every other
    listener of the event.  Unsubscribing a callback that is not
    registered, or from an event that has no listeners, changes no list
    of listeners. *)
Theorem off_undoes_on :
  ∀ events event cb,
    (cb ∉ registered event events →
       registered event (off event cb (on event cb events)) = registered event events
       ∧ registered event (off event cb events) = registered event events)
    ∧ registered event (on event cb (off event cb events)) =
        filter (λ c, c ≠ cb) (registered event events) ++ [cb]
    ∧ (∀ e, e ≠ event →
         registered e (off event cb (on event cb events)) = registered e events
         ∧ registered e (on event cb (off event cb events)) = registered e events).
Proof.
  intros events event cb. split; [|split].
  - intros Hnot.
    assert (Hsame : filter (λ c, c ≠ cb) (registered event events) = registered event events).
    { apply filter_all. intros c Hc ->. contradiction. }
    split.
    + rewrite registered_off, registered_on.
      destruct (decide (cb ∈ registered event events)); [contradiction|].
      rewrite filter_app, Hsame.
      rewrite filter_cons_False by (intros H; apply H; reflexivity).
      apply app_nil_r.
    + rewrite registered_off. exact Hsame.
  - rewrite registered_on, registered_off.
    destruct (decide (cb ∈ filter (λ c, c ≠ cb) (registered event events))) as [Hin|_];
      [|reflexivity].
    apply list_elem_of_filter in Hin as [Hne _]. exfalso. apply Hne. reflexivity.
  - intros e Hne.
    assert (Hne' : event ≠ e) by (intros E; apply Hne; symmetry; exact E).
    rewrite registered_off_ne, registered_on_ne, registered_on_ne, registered_off_ne
      by exact Hne'.
    split; reflexivity.
Qed.

(** The property on a third listener of the bus with two. *)
Lemma off_undoes_on_witness :
  registered "level-completed"
    (off "level-completed" 3%nat (on "level-completed" 3%nat twoListeners))
    = [1%nat; 2%nat]
  ∧ registered "level-completed"
      (on "level-completed" 1%nat (off "level-completed" 1%nat twoListeners))
      = [2%nat; 1%nat].
Proof.
  destruct (off_undoes_on twoListeners "level-completed"%string 3%nat) as (Hundo & _).
  destruct (off_undoes_on twoListeners "level-completed"%string 1%nat) as (_ & Hmove & _).
  split.
  - destruct Hundo as [-> _]; [|reflexivity].
    vm_compute. intros H. repeat (apply elem_of_cons in H as [H|H]; [discriminate|]).
    inversion H.
  - rewrite Hmove. reflexivity.
Defined.

(** *** Listeners that remove themselves *)

Lemma remove_idem cb s : remove cb (remove cb s) = remove cb s.
Proof.
  induction s as [|e s IH]; [reflexivity|]. simpl. rewrite IH. f_equal.
  destruct (decide (e = Some cb)) as [->|Hne].
  - destruct (decide (None = Some cb)); [discriminate | reflexivity].
  - destruct (decide (e = Some cb)); [contradiction | reflexivity].
Qed.

Lemma remove_absent cb s : cb ∉ members s → remove cb s = s.
Proof.
  induction s as [|e s IH]; intros Hnot; [reflexivity|]. simpl.
  destruct (decide (e = Some cb)) as [->|Hne].
  - exfalso. apply Hnot. unfold members. simpl. left.
  - f_equal. apply IH. intros Hin. apply Hnot.
    destruct e as [c|]; unfold members in *; simpl; [right|]; exact Hin.
Qed.

(** In a set without duplicates, removing the callback of a slot empties
    that slot and no other. *)
Lemma remove_at s : ∀ index cb,
  NoDup (members s) → s !! index = Some (Some cb) →
  remove cb s = <[index := None]> s.
Proof.
  induction s as [|e s IH]; intros index cb Hnd Hl; [discriminate|].
  destruct index as [|index]; simpl in *.
  - injection Hl as ->.
    destruct (decide (Some cb = Some cb)); [|contradiction].
    f_equal. apply remove_absent.
    unfold members in Hnd. simpl in Hnd. apply NoDup_cons in Hnd as [Hnot _]. exact Hnot.
  - assert (Hin : cb ∈ members s).
    { unfold members. apply list_elem_of_omap. exists (Some cb).
      split; [apply list_elem_of_lookup; eauto | reflexivity]. }
    destruct (decide (e = Some cb)) as [->|Hne].
    + unfold members in Hnd. simpl in Hnd. apply NoDup_cons in Hnd as [Hnot _].
      contradiction.
    + f_equal. apply IH; [|exact Hl].
      destruct e as [c|]; unfold members in *; simpl in Hnd;
        [apply NoDup_cons in Hnd as [_ Hnd]|]; exact Hnd.
Qed.

Lemma off_default event cb events :
  default [] (off event cb events !! event) = remove cb (default [] (events !! event)).
Proof. rewrite off_lookup. destruct (events !! event); reflexivity. Qed.

Lemma removesOnlyItself_registers event cb (body : list Reentry) :
  Forall (λ r, r = DoOff event cb ∨ ∃ e, registers r = Some e ∧ e ≠ event) body →
  Forall (λ r, is_Some (registers r)) body.
Proof.
  intros H. eapply Forall_impl; [exact H|].
  intros r [-> | (e & Hr & _)]; simpl; eauto.
Qed.

Lemma afterBody_removesOnlyItself event cb body : ∀ events,
  Forall (λ r, r = DoOff event cb ∨ ∃ e, registers r = Some e ∧ e ≠ event) body →
  default [] (afterBody body events !! event) =
    if decide (DoOff event cb ∈ body) then remove cb (default [] (events !! event))
    else default [] (events !! event).
Proof.
  induction body as [|r body IH]; intros events Hself.
  - simpl. destruct (decide (DoOff event cb ∈ [])) as [H|_]; [inversion H | reflexivity].
  - inversion Hself as [|? ? Hr Hrest]; subst.
    change (afterBody (r :: body) events) with (afterBody body (afterBody [r] events)).
    rewrite (IH _ Hrest). destruct Hr as [-> | Hother].
    + change (afterBody [DoOff event cb] events) with (off event cb events).
      rewrite off_default, remove_idem.
      destruct (decide (DoOff event cb ∈ DoOff event cb :: body)) as [_|Hn];
        [|exfalso; apply Hn; left].
      destruct (decide (DoOff event cb ∈ body)); reflexivity.
    + rewrite (afterBody_other [r] event events) by (constructor; [exact Hother | constructor]).
      destruct (decide (DoOff event cb ∈ body)) as [Hin|Hnin].
      * destruct (decide (DoOff event cb ∈ r :: body)) as [_|Hn];
          [reflexivity | exfalso; apply Hn; right; exact Hin].
      * destruct (decide (DoOff event cb ∈ r :: body)) as [Hin'|_]; [|reflexivity].
        apply elem_of_cons in Hin' as [<- | Hin']; [|contradiction].
        exfalso. destruct Hother as (e & He & Hne). injection He as <-.
        apply Hne. reflexivity.
Qed.

Lemma members_drop_elem (s : CallbackSet) index cb :
  cb ∈ members (drop index s) → cb ∈ members s.
Proof.
  unfold members. rewrite !list_elem_of_omap. intros (e & He & Hid).
  exists e. split; [|exact Hid].
  apply list_elem_of_lookup in He as [i Hi]. rewrite lookup_drop in Hi.
  apply list_elem_of_lookup. eauto.
Qed.

Lemma forEach_removesOnlyItself program event data fuel : ∀ index events,
  NoDup (registered event events) →
  (∀ cb, cb ∈ members (drop index (default [] (events !! event))) →
     removesOnlyItself program event cb) →
  (slots event events - index < fuel)%nat →
  ∃ events',
    forEach fuel program event data index events =
      Some (mkEmission events'
              (map (λ cb, Invoked cb data [])
                 (members (drop index (default [] (events !! event)))))
              Returned)
    ∧ default [] (events' !! event) =
        take index (default [] (events !! event))
        ++ map (slotAfter program event) (drop index (default [] (events !! event))).
Proof.
  induction fuel as [|fuel IH]; intros index events Hnd Hself Hfuel; [lia|].
  cbn [forEach]. unfold slots, registered in *.
  set (s := default [] (events !! event)) in *.
  destruct (s !! index) as [[cb|]|] eqn:E.
  - pose proof (drop_S _ _ _ E) as Hdrop.
    assert (Hcb : removesOnlyItself program event cb).
    { apply Hself. rewrite Hdrop. unfold members. simpl. left. }
    pose proof (afterBody_removesOnlyItself event cb (program cb) events Hcb) as Hbody.
    fold s in Hbody. rewrite (remove_at s index cb Hnd E) in Hbody.
    cbv zeta.
    rewrite (runBody_registers _ (program cb) events
               (removesOnlyItself_registers _ _ _ Hcb)).
    set (events1 := afterBody (program cb) events) in *.
    set (s1 := default [] (events1 !! event)) in *.
    assert (Hlen : length s1 = length s).
    { rewrite Hbody. destruct (decide _); [apply length_insert | reflexivity]. }
    assert (Hafter : drop (S index) s1 = drop (S index) s).
    { rewrite Hbody. destruct (decide _); [|reflexivity].
      apply drop_insert_lt. lia. }
    assert (Hbefore : take index s1 = take index s).
    { rewrite Hbody. destruct (decide _); [|reflexivity].
      apply take_insert_ge. lia. }
    assert (Hslot : s1 !! index = Some (slotAfter program event (Some cb))).
    { rewrite Hbody. unfold slotAfter, staysOn.
      destruct (decide (DoOff event cb ∈ program cb)) as [Hin|Hnin].
      - rewrite bool_decide_eq_false_2 by (intros H; apply H; exact Hin).
        apply list_lookup_insert_eq. apply (lookup_lt_Some _ _ _ E).
      - rewrite bool_decide_eq_true_2 by exact Hnin. exact E. }
    assert (Hnd1 : NoDup (members s1)).
    { rewrite Hbody. destruct (decide _); [|exact Hnd].
      rewrite <- (remove_at s index cb Hnd E), members_remove.
      apply NoDup_filter, Hnd. }
    destruct (IH (S index) events1) as (events' & Hrun & Hev).
    + exact Hnd1.
    + fold s1. rewrite Hafter. intros c Hc. apply Hself.
      rewrite Hdrop. unfold members in *. simpl. right. exact Hc.
    + fold s1. pose proof (lookup_lt_Some _ _ _ E). lia.
    + exists events'. rewrite Hrun. fold s1 in Hev |- *. rewrite Hafter in *.
      split; [rewrite Hdrop; reflexivity|].
      rewrite Hev, (take_S_r _ _ _ Hslot), Hbefore, Hdrop.
      rewrite <- app_assoc. reflexivity.
  - pose proof (drop_S _ _ _ E) as Hdrop.
    destruct (IH (S index) events) as (events' & Hrun & Hev).
    + exact Hnd.
    + fold s. intros c Hc. apply Hself. rewrite Hdrop. exact Hc.
    + fold s. pose proof (lookup_lt_Some _ _ _ E). lia.
    + exists events'. rewrite Hrun. fold s in Hev |- *.
      split; [rewrite Hdrop; reflexivity|].
      rewrite Hev, (take_S_r _ _ _ E), Hdrop, <- app_assoc. reflexivity.
  - exists events. fold s. split.
    + rewrite drop_ge by (apply lookup_ge_None, E). reflexivity.
    + rewrite drop_ge by (apply lookup_ge_None, E).
      rewrite take_ge by (apply lookup_ge_None, E). simpl. symmetry. apply app_nil_r.
Qed.

Lemma members_slotAfter program event s :
  members (map (slotAfter program event) s) =
    filter (λ cb, staysOn program event cb = true) (members s).
Proof.
  induction s as [|[cb|] s IH]; [reflexivity| |exact IH].
  unfold members in *. simpl.
  destruct (staysOn program event cb) eqn:E; simpl.
  - rewrite filter_cons_True by exact E. f_equal. exact IH.
  - rewrite filter_cons_False by (rewrite E; discriminate). exact IH.
Qed.

(** X14.  Listeners that unsubscribe themselves while they are called
    (one-shot listeners) do not disturb an emission: on a bus without
    duplicates, if each listener of the event returns normally, emits
    nothing and does nothing to the event's registrations but remove
    itself, [emit] terminates and returns normally, calls every listener
    registered when it started exactly once, in registration order and
    with the payload, and afterwards the listeners of the event are those
    that did not remove themselves, in their old order.  (A listener that
    throws is outside this: [emit] catches nothing, and the listeners
    after it are not called.) *)
Theorem emit_with_one_shot_listeners :
  ∀ program event data fuel events,
    wellFormed events →
    (∀ cb, cb ∈ registered event events → removesOnlyItself program event cb) →
    (slots event events < fuel)%nat →
    ∃ events',
      emit fuel program event data events =
        Some (mkEmission events'
                (map (λ cb, Invoked cb data []) (registered event events)) Returned)
      ∧ registered event events' =
          filter (λ cb, staysOn program event cb = true) (registered event events)
      ∧ wellFormed events'.
Proof.
  intros program event data fuel events Hwf Hself Hfuel.
  pose proof (wellFormed_registered events event Hwf) as Hnd.
  unfold emit. destruct (events !! event) as [s|] eqn:E.
  - destruct (forEach_removesOnlyItself program event data fuel 0 events Hnd)
      as (events' & Hrun & Hev).
    + intros cb Hcb. apply Hself. rewrite drop_0 in Hcb. exact Hcb.
    + lia.
    + exists events'. rewrite Hrun. rewrite drop_0, take_0 in *.
      split; [reflexivity|]. split.
      * unfold registered at 1. rewrite Hev. apply members_slotAfter.
      * apply (wellFormed_forEach _ _ _ _ _ _ _ Hwf Hrun).
  - exists events. unfold registered. rewrite E. simpl.
    split; [reflexivity|]. split; [reflexivity | exact Hwf].
Qed.

(** The property on two listeners of which the first listens once. *)
Lemma emit_with_one_shot_listeners_witness :
  ∃ events',
    emit 3 once "level-completed" 7%positive twoListeners =
      Some (mkEmission events'
              [Invoked 1%nat 7%positive []; Invoked 2%nat 7%positive []] Returned)
    ∧ registered "level-completed" events' = [2%nat].
Proof.
  destruct (emit_with_one_shot_listeners once "level-completed"%string 7%positive
              3%nat twoListeners) as (events' & Hrun & Hreg & _).
  - unfold twoListeners. repeat apply wellFormed_on. apply wellFormed_empty.
  - intros cb _. unfold removesOnlyItself, once.
    destruct cb as [|[|cb]]; repeat constructor.
  - vm_compute. lia.
  - exists events'. split; [exact Hrun | exact Hreg].
Defined.

End BusProps.

(* ===================================================================== *)
(** ** Properties of whole sessions of the scene *)
(* ===================================================================== *)

Module PlayProps.
Import MainScene Play MainSceneProps.

(** *** Counters *)

Lemma onOverlap_counts o sc :
  deaths (sceneAfter (onOverlap o) sc) =
    deaths sc + (if isHazardOverlap o then 1 else 0)
  ∧ coinCount (sceneAfter (onOverlap o) sc) =
      coinCount sc + (if isCoinOverlap o then 1 else 0).
Proof.
  destruct sc as [p cj cc d wz hs sx sy ht]; destruct p; destruct ht.
  destruct o; simpl; split; lia.
Qed.

Lemma overlapCallbacks_counts os : ∀ sc,
  deaths (sceneAfter (overlapCallbacks os) sc) =
    deaths sc + Z.of_nat (length (filter isHazardOverlap os))
  ∧ coinCount (sceneAfter (overlapCallbacks os) sc) =
      coinCount sc + Z.of_nat (length (filter isCoinOverlap os)).
Proof.
  induction os as [|o os IH]; intros sc.
  - change (sceneAfter (overlapCallbacks []) sc) with sc.
    rewrite !filter_nil. simpl. split; lia.
  - unfold overlapCallbacks. cbn [foldr]. fold (overlapCallbacks os).
    rewrite sceneAfter_bind.
    destruct (IH (sceneAfter (onOverlap o) sc)) as [-> ->].
    destruct (onOverlap_counts o sc) as [-> ->].
    destruct o.
    + rewrite filter_cons_False by exact id. rewrite filter_cons_True by exact I.
      cbn [length isHazardOverlap isCoinOverlap]. rewrite Nat2Z.inj_succ. split; lia.
    + rewrite filter_cons_True by exact I. rewrite filter_cons_False by exact id.
      cbn [length isHazardOverlap isCoinOverlap]. rewrite Nat2Z.inj_succ. split; lia.
Qed.

Lemma updateWindZones_frame delta sc :
  let sc' := sceneAfter (updateWindZones delta) sc in
  coinCount sc' = coinCount sc ∧ deaths sc' = deaths sc ∧ hints sc' = hints sc
  ∧ canJump sc' = canJump sc ∧ hintText sc' = hintText sc
  ∧ x (player sc') = x (player sc) ∧ y (player sc') = y (player sc)
  ∧ velocityX (player sc') = velocityX (player sc)
  ∧ velocityY (player sc') = velocityY (player sc)
  ∧ touchingDown (player sc') = touchingDown (player sc).
Proof.
  destruct (updateWindZones_spec delta sc) as [(sc1 & (ax & ay & ->) & ->) _].
  simpl. repeat split.
Qed.

Lemma frame_counts f sc :
  deaths (sceneAfter (frame f) sc) =
    deaths sc + Z.of_nat (length (filter isHazardOverlap (overlaps f)))
  ∧ coinCount (sceneAfter (frame f) sc) =
      coinCount sc + Z.of_nat (length (filter isCoinOverlap (overlaps f)))
  ∧ hints (sceneAfter (frame f) sc) = hints sc.
Proof.
  rewrite frame_scene.
  destruct (checkHints_frame (afterWind f sc)) as (_ & _ & -> & -> & _ & -> & _).
  unfold afterWind.
  destruct (updateWindZones_frame (delta f) (afterMovement f sc)) as (-> & -> & -> & _).
  unfold afterMovement.
  destruct (handlePlayerMovement_frame (cursors f) (afterPhysics f sc))
    as (_ & _ & _ & -> & -> & _ & -> & _).
  unfold afterPhysics.
  destruct (overlapCallbacks_counts (overlaps f) (withPlayer (body f) sc)) as [-> ->].
  destruct (overlapCallbacks_frame (overlaps f) (withPlayer (body f) sc))
    as (_ & _ & _ & -> & _).
  repeat split.
Qed.

Lemma map_zone_frame f sc :
  map zone (windZones (sceneAfter (frame f) sc)) = map zone (windZones sc).
Proof.
  destruct (frame_windZones f sc) as (-> & _). rewrite map_map.
  apply map_ext. intros wd. apply windZoneCallback_timer.
Qed.

(** X15.  The counters of the scene count overlap callbacks and nothing
    else: after any session the death count is the initial one plus the
    number of hazard overlaps reported, and the coin count the initial
    one plus the number of coin overlaps reported; [update] never changes
    either.  The hints, the spawn point and the definitions of the wind
    zones are never changed. *)
Theorem counters_count_overlaps :
  ∀ frames sc,
    deaths (finalScene frames sc) = deaths sc + hazardsIn frames
    ∧ coinCount (finalScene frames sc) = coinCount sc + coinsIn frames
    ∧ hints (finalScene frames sc) = hints sc
    ∧ spawnX (finalScene frames sc) = spawnX sc
    ∧ spawnY (finalScene frames sc) = spawnY sc
    ∧ map zone (windZones (finalScene frames sc)) = map zone (windZones sc).
Proof.
  induction frames as [|f rest IH]; intros sc.
  - unfold hazardsIn, coinsIn. simpl. repeat split; lia.
  - rewrite finalScene_cons.
    destruct (IH (sceneAfter (frame f) sc)) as (-> & -> & -> & -> & -> & ->).
    destruct (frame_counts f sc) as (-> & -> & ->).
    destruct (frame_windZones f sc) as (_ & -> & ->).
    rewrite map_zone_frame.
    unfold hazardsIn, coinsIn, overlapsIn. cbn [map concat].
    rewrite !filter_app, !length_app, !Nat2Z.inj_add.
    repeat split; lia.
Qed.

(** *** Velocity and position *)

Lemma handlePlayerMovement_velocityX cur sc :
  velocityX (player (sceneAfter (handlePlayerMovement cur) sc)) =
    (if isDown (left cur) then - PLAYER_SPEED
     else if isDown (right cur) then PLAYER_SPEED else 0)
  ∧ acceleration (player (sceneAfter (handlePlayerMovement cur) sc)) =
      acceleration (player sc)
  ∧ filter isSetAcceleration (callsOf (handlePlayerMovement cur) sc) = [].
Proof.
  unfold isUp, handlePlayerMovement.
  destruct cur as [[l] [r] [u]]; destruct sc as [p cj cc d wz hs sx sy ht];
    destruct p as [px py vx vy ax ay td]; simpl.
  destruct l, r, u, td, cj; repeat split; reflexivity.
Qed.

Lemma onOverlap_motion o sc :
  velocityY (player (sceneAfter (onOverlap o) sc)) =
    (if isHazardOverlap o then 0 else velocityY (player sc))
  ∧ acceleration (player (sceneAfter (onOverlap o) sc)) = acceleration (player sc)
  ∧ filter isSetAcceleration (callsOf (onOverlap o) sc) = [].
Proof.
  destruct sc as [p cj cc d wz hs sx sy ht]; destruct p; destruct ht.
  destruct o; simpl; repeat split; reflexivity.
Qed.

Lemma overlapCallbacks_motion os : ∀ sc,
  velocityY (player (sceneAfter (overlapCallbacks os) sc)) =
    (if hazardHit os then 0 else velocityY (player sc))
  ∧ acceleration (player (sceneAfter (overlapCallbacks os) sc)) = acceleration (player sc)
  ∧ filter isSetAcceleration (callsOf (overlapCallbacks os) sc) = [].
Proof.
  induction os as [|o os IH]; intros sc.
  - repeat split; reflexivity.
  - unfold overlapCallbacks. cbn [foldr]. fold (overlapCallbacks os).
    rewrite sceneAfter_bind, callsOf_bind, filter_app.
    destruct (IH (sceneAfter (onOverlap o) sc)) as (-> & -> & ->).
    destruct (onOverlap_motion o sc) as (-> & -> & ->).
    repeat split. destruct o; simpl; [reflexivity|].
    destruct (hazardHit os); reflexivity.
Qed.

Lemma checkHints_accelCalls sc : filter isSetAcceleration (callsOf checkHints sc) = [].
Proof.
  unfold checkHints, callsOf, mbind, method_bind, get; simpl.
  destruct (_ && _); [|reflexivity].
  destruct (JS.truthy_string _); reflexivity.
Qed.

(** X16.  Where a frame leaves the sprite.  The horizontal velocity is
    set in every frame from the keys alone, and the left key wins over
    the right one; the vertical velocity is the jump velocity when the
    jump fires, and otherwise what the physics left, or 0 after a
    respawn; the scene moves the sprite only by respawning it at the
    spawn point.  A player who is hit by a hazard while on the ground with
    the jump key pressed jumps from the spawn point in the same frame. *)
Theorem frame_sets_the_velocity :
  ∀ f sc,
    velocityX (player (sceneAfter (frame f) sc)) =
      (if isDown (left (cursors f)) then - PLAYER_SPEED
       else if isDown (right (cursors f)) then PLAYER_SPEED else 0)
    ∧ velocityY (player (sceneAfter (frame f) sc)) =
        (if jumpFires f sc then JUMP_VELOCITY
         else if hazardHit (overlaps f) then 0 else velocityY (body f))
    ∧ x (player (sceneAfter (frame f) sc)) =
        (if hazardHit (overlaps f) then spawnX sc else x (body f))
    ∧ y (player (sceneAfter (frame f) sc)) =
        (if hazardHit (overlaps f) then spawnY sc else y (body f))
    ∧ touchingDown (player (sceneAfter (frame f) sc)) = touchingDown (body f).
Proof.
  intros f sc. rewrite frame_scene.
  destruct (checkHints_frame (afterWind f sc)) as (-> & _).
  unfold afterWind.
  destruct (updateWindZones_frame (delta f) (afterMovement f sc))
    as (_ & _ & _ & _ & _ & -> & -> & -> & -> & ->).
  unfold afterMovement.
  destruct (handlePlayerMovement_velocityX (cursors f) (afterPhysics f sc)) as (-> & _).
  rewrite handlePlayerMovement_velocityY, jumpCondition_frame.
  destruct (handlePlayerMovement_frame (cursors f) (afterPhysics f sc))
    as (-> & -> & -> & _).
  destruct (afterPhysics_facts f sc) as (-> & _ & _ & _ & _ & -> & ->).
  unfold afterPhysics.
  destruct (overlapCallbacks_motion (overlaps f) (withPlayer (body f) sc)) as (-> & _).
  repeat split.
Qed.

(** *** Wind *)

Lemma zoneStep_blows delta sc wd :
  snd (zoneStep delta sc wd) =
    if blows delta (x (player sc)) (y (player sc)) wd then forceCalls (zone wd) else [].
Proof.
  unfold zoneStep, windZoneCallback, blows, windActive, forceCalls.
  destruct (inZone _ _ _); simpl; [|reflexivity].
  destruct (type _); [reflexivity|].
  destruct (pulseDuration _) as [p|]; simpl; [|reflexivity].
  destruct (p =? 0); simpl; [reflexivity|].
  destruct (JS.lt _ _); reflexivity.
Qed.

Lemma blowing_cons delta px py wd zs :
  blowing delta px py (wd :: zs) =
    if blows delta px py wd then wd :: blowing delta px py zs
    else blowing delta px py zs.
Proof.
  unfold blowing. destruct (blows delta px py wd) eqn:E.
  - apply filter_cons_True, E.
  - apply filter_cons_False. rewrite E. discriminate.
Qed.

Lemma forEachWindZone_acceleration delta zs : ∀ sc,
  acceleration (player (sceneAfter (forEachWindZone delta zs) sc)) =
    match last (blowing delta (x (player sc)) (y (player sc)) zs) with
    | Some wd => force (zone wd)
    | None => acceleration (player sc)
    end.
Proof.
  induction zs as [|wd rest IH]; intros sc; [reflexivity|].
  cbn [forEachWindZone]. rewrite !sceneAfter_bind.
  change (valueOf (get (λ s, x (player s))) sc) with (x (player sc)).
  change (sceneAfter (get (λ s, x (player s))) sc) with sc.
  change (valueOf (get (λ s, y (player s))) sc) with (y (player sc)).
  change (sceneAfter (get (λ s, y (player s))) sc) with sc.
  fold (zoneStep delta sc wd).
  set (sc1 := sceneAfter (callAll (snd (zoneStep delta sc wd))) sc).
  change (acceleration (player (sceneAfter (forEachWindZone delta rest) sc1)) =
          match last (blowing delta (x (player sc)) (y (player sc)) (wd :: rest)) with
          | Some wd0 => force (zone wd0)
          | None => acceleration (player sc)
          end).
  rewrite IH, blowing_cons. unfold sc1. rewrite zoneStep_blows.
  destruct (blows delta (x (player sc)) (y (player sc)) wd).
  - rewrite callAll_forceCalls.
    change (x (player (withAcceleration _ _ sc))) with (x (player sc)).
    change (y (player (withAcceleration _ _ sc))) with (y (player sc)).
    destruct (blowing delta (x (player sc)) (y (player sc)) rest) as [|wd' rest'] eqn:E.
    + reflexivity.
    + change (last (wd :: wd' :: rest')) with (last (wd' :: rest')).
      destruct (last (wd' :: rest')) eqn:El; [reflexivity|].
      apply last_None in El. discriminate.
  - reflexivity.
Qed.

Lemma updateWindZones_acceleration delta sc :
  acceleration (player (sceneAfter (updateWindZones delta) sc)) =
    match last (blowing delta (x (player sc)) (y (player sc)) (windZones sc)) with
    | Some wd => force (zone wd)
    | None => acceleration (player sc)
    end.
Proof.
  rewrite <- forEachWindZone_acceleration.
  unfold updateWindZones. rewrite !sceneAfter_bind. reflexivity.
Qed.

Lemma wind_calls zs (g : WindZoneData → bool) :
  filter isSetAcceleration
    (concat (map (λ wd, if g wd then forceCalls (zone wd) else []) zs)) =
    concat (map (λ wd, forceCalls (zone wd)) (filter (λ wd, g wd = true) zs)).
Proof.
  induction zs as [|wd rest IH]; [reflexivity|].
  cbn [map concat]. rewrite filter_app, IH.
  destruct (g wd) eqn:E.
  - rewrite filter_cons_True by exact E. reflexivity.
  - rewrite filter_cons_False by (rewrite E; discriminate). reflexivity.
Qed.

Lemma frame_accelCalls f sc :
  filter isSetAcceleration (callsOf (frame f) sc) =
    concat (map (λ wd, forceCalls (zone wd))
              (blowing (delta f) (frameX f sc) (frameY f sc) (windZones sc))).
Proof.
  destruct (afterPhysics_facts f sc) as (_ & _ & HW & _ & _ & HX & HY).
  destruct (handlePlayerMovement_frame (cursors f) (afterPhysics f sc))
    as (HX' & HY' & _ & _ & _ & HW' & _).
  fold (afterMovement f sc) in HX', HY', HW'.
  rewrite HX in HX'. rewrite HY in HY'. rewrite HW in HW'.
  rewrite frame_calls, !filter_app.
  destruct (overlapCallbacks_motion (overlaps f) (withPlayer (body f) sc))
    as (_ & _ & ->).
  destruct (handlePlayerMovement_velocityX (cursors f) (afterPhysics f sc))
    as (_ & _ & ->).
  rewrite checkHints_accelCalls, app_nil_r. simpl.
  destruct (updateWindZones_spec (delta f) (afterMovement f sc)) as [_ ->].
  rewrite HW'.
  erewrite map_ext; [|intros wd; apply zoneStep_blows].
  rewrite HX', HY'. apply wind_calls.
Qed.

Lemma frame_acceleration f sc :
  acceleration (player (sceneAfter (frame f) sc)) =
    match last (blowing (delta f) (frameX f sc) (frameY f sc) (windZones sc)) with
    | Some wd => force (zone wd)
    | None => acceleration (body f)
    end.
Proof.
  destruct (afterPhysics_facts f sc) as (_ & _ & HW & _ & _ & HX & HY).
  destruct (handlePlayerMovement_frame (cursors f) (afterPhysics f sc))
    as (HX' & HY' & _ & _ & _ & HW' & _).
  fold (afterMovement f sc) in HX', HY', HW'.
  rewrite HX in HX'. rewrite HY in HY'. rewrite HW in HW'.
  rewrite frame_scene.
  destruct (checkHints_frame (afterWind f sc)) as (-> & _).
  unfold afterWind. rewrite updateWindZones_acceleration, HX', HY', HW'.
  unfold afterMovement.
  destruct (handlePlayerMovement_velocityX (cursors f) (afterPhysics f sc))
    as (_ & -> & _).
  unfold afterPhysics.
  destruct (overlapCallbacks_motion (overlaps f) (withPlayer (body f) sc))
    as (_ & -> & _).
  reflexivity.
Qed.

(** X17.  The wind of a frame.  When [update] runs, the zones that blow
    are those that contain the player and are constant, or pulsed with a
    pulse duration that is not 0 and in the first half of their cycle.
    The only acceleration calls of the frame are the two calls of each
    blowing zone, in the order of the level file, so the last blowing
    zone decides the acceleration; when no zone blows the scene makes no
    acceleration call at all and the acceleration of the sprite stays
    what it was: leaving a zone does not reset it. *)
Theorem last_blowing_zone_wins :
  ∀ f sc,
    let zs := blowing (delta f) (frameX f sc) (frameY f sc) (windZones sc) in
    acceleration (player (sceneAfter (frame f) sc)) =
      match last zs with
      | Some wd => force (zone wd)
      | None => acceleration (body f)
      end
    ∧ filter isSetAcceleration (callsOf (frame f) sc) =
        concat (map (λ wd, forceCalls (zone wd)) zs).
Proof.
  intros f sc zs. unfold zs. split.
  - apply frame_acceleration.
  - apply frame_accelCalls.
Qed.

(** *** Zones that never blow *)

Lemma inZone_negative z px py :
  width z < 0 ∨ height z < 0 → inZone z px py = false.
Proof.
  intros Hneg. unfold inZone.
  destruct (Z.leb_spec (2 * zx z - width z) (2 * px)); [|reflexivity].
  destruct (Z.leb_spec (2 * px) (2 * zx z + width z)); [|reflexivity].
  destruct (Z.leb_spec (2 * zy z - height z) (2 * py)); [|reflexivity].
  destruct (Z.leb_spec (2 * py) (2 * zy z + height z)); [|reflexivity].
  lia.
Qed.

Lemma inert_never_blows delta px py wd :
  inert (zone wd) = true → 0 <= pulseTimer wd + delta →
  blows delta px py wd = false.
Proof.
  unfold inert, blows. intros Hin Ht.
  apply orb_true_iff in Hin as [Hin | Hin].
  - rewrite inZone_negative; [reflexivity|].
    apply orb_true_iff in Hin as [H | H]; apply Z.ltb_lt in H; auto.
  - apply andb_false_iff. right.
    destruct (type (zone wd)); [discriminate|].
    destruct (pulseDuration (zone wd)) as [p|]; [|reflexivity].
    apply Z.leb_le in Hin. unfold windActive, JS.rem, JS.lt.
    destruct (p =? 0) eqn:E0; [reflexivity|]. apply Z.eqb_neq in E0. simpl.
    destruct (p * 2 =? 0) eqn:E2; [reflexivity|]. apply Z.eqb_neq in E2.
    apply Z.ltb_ge.
    pose proof (Z.rem_nonneg (pulseTimer wd + delta) (p * 2) E2 Ht). lia.
Qed.

Lemma quietZones_frame f sc :
  0 <= delta f → quietZones sc → quietZones (sceneAfter (frame f) sc).
Proof.
  intros Hd Hq. unfold quietZones in *.
  destruct (frame_windZones f sc) as (-> & _).
  apply Forall_fmap. eapply Forall_impl; [exact Hq|].
  intros wd [Hin Ht]. simpl.
  destruct (windZoneCallback_timer (delta f) (frameX f sc) (frameY f sc) wd) as [-> ->].
  split; [exact Hin|].
  destruct (inZone _ _ _); [|lia].
  destruct (type _); [lia|]. destruct (JS.truthy _); lia.
Qed.

Lemma quietZones_blowing f sc :
  0 <= delta f → quietZones sc →
  blowing (delta f) (frameX f sc) (frameY f sc) (windZones sc) = [].
Proof.
  intros Hd Hq. unfold quietZones, blowing in *.
  induction Hq as [|wd rest [Hin Ht] _ IH]; [reflexivity|].
  rewrite filter_cons_False; [exact IH|].
  rewrite inert_never_blows by (exact Hin || lia). discriminate.
Qed.

Lemma quietZones_run frames : ∀ sc,
  Forall (λ f, 0 <= delta f) frames → quietZones sc →
  Forall (λ r, filter isSetAcceleration (snd r) = []) (run frames sc).
Proof.
  induction frames as [|f rest IH]; intros sc Hd Hq.
  - constructor.
  - inversion Hd as [|? ? Hf Hrest]; subst.
    constructor.
    + simpl. rewrite frame_accelCalls, (quietZones_blowing f sc Hf Hq). reflexivity.
    + apply (IH (sceneAfter (frame f) sc) Hrest (quietZones_frame f sc Hf Hq)).
Qed.

(** X18.  Wind zones that never blow.  A zone with a negative width or
    height contains no point, and a pulsed zone without a pulse duration,
    or with one that is 0 or negative, never reaches its acceleration
    calls.  In a level all of whose zones are of this kind, with frame
    deltas that are not negative, no frame of any session makes an
    acceleration call, and each frame leaves the acceleration of the
    sprite as the physics handed it over. *)
Theorem inert_zones_never_blow :
  ∀ spawn zones hs frames,
    Forall (λ z, inert z = true) zones →
    Forall (λ f, 0 <= delta f) frames →
    Forall (λ r, filter isSetAcceleration (snd r) = [])
      (run frames (createScene spawn zones hs))
    ∧ ∀ k f, frames !! k = Some f →
        acceleration
          (player (finalScene (take (S k) frames) (createScene spawn zones hs)))
        = acceleration (body f).
Proof.
  intros spawn zones hs frames Hz Hd.
  assert (Hq : quietZones (createScene spawn zones hs)).
  { unfold quietZones, createScene. simpl. apply Forall_fmap.
    eapply Forall_impl; [exact Hz|]. intros z Hin. simpl. split; [exact Hin | lia]. }
  split; [apply quietZones_run; assumption|].
  revert Hq. generalize (createScene spawn zones hs) as sc.
  induction frames as [|f0 rest IH]; intros sc Hq k f Hk; [discriminate|].
  inversion Hd as [|? ? Hf Hrest]; subst.
  destruct k as [|k]; simpl in Hk.
  - injection Hk as ->. cbn [take]. rewrite take_0.
    change (finalScene [f] sc) with (sceneAfter (frame f) sc).
    rewrite frame_scene.
    destruct (checkHints_frame (afterWind f sc)) as (-> & _).
    unfold afterWind. rewrite updateWindZones_acceleration.
    destruct (afterPhysics_facts f sc) as (_ & _ & HW & _ & _ & HX & HY).
    destruct (handlePlayerMovement_frame (cursors f) (afterPhysics f sc))
      as (HX' & HY' & _ & _ & _ & HW' & _).
    fold (afterMovement f sc) in HX', HY', HW'.
    rewrite HX', HY', HW', HX, HY, HW, (quietZones_blowing f sc Hf Hq). simpl.
    unfold afterMovement.
    destruct (handlePlayerMovement_velocityX (cursors f) (afterPhysics f sc))
      as (_ & -> & _).
    unfold afterPhysics.
    destruct (overlapCallbacks_motion (overlaps f) (withPlayer (body f) sc))
      as (_ & -> & _).
    reflexivity.
  - cbn [take]. rewrite finalScene_cons.
    apply (IH Hrest (sceneAfter (frame f0) sc) (quietZones_frame f0 sc Hf Hq) k f Hk).
Qed.

(** The property on two frames in a zone whose pulse duration is -500. *)
Lemma inert_zones_never_blow_witness :
  Forall (λ r, filter isSetAcceleration (snd r) = [])
    (run [standingInGust; standingInGust] stillAir).
Proof.
  apply (inert_zones_never_blow (400, 300) [backwards] []
           [standingInGust; standingInGust]).
  - repeat constructor.
  - repeat constructor; simpl; lia.
Defined.

End PlayProps.

(* ===================================================================== *)
(** ** From the scene to the progress store *)
(* ===================================================================== *)

Module PlaythroughProps.
Import Schema GameState MainScene Play Playthrough.
Import MainSceneProps PlayProps GameStateProps.

Lemma hazardsIn_snoc frames f :
  hazardsIn (frames ++ [f]) =
    hazardsIn frames + Z.of_nat (length (filter isHazardOverlap (overlaps f))).
Proof.
  unfold hazardsIn, overlapsIn. rewrite map_app, concat_app. cbn [map concat].
  rewrite app_nil_r, filter_app, length_app. lia.
Qed.

Lemma coinsIn_snoc frames f :
  coinsIn (frames ++ [f]) =
    coinsIn frames + Z.of_nat (length (filter isCoinOverlap (overlaps f))).
Proof.
  unfold coinsIn, overlapsIn. rewrite map_app, concat_app. cbn [map concat].
  rewrite app_nil_r, filter_app, length_app. lia.
Qed.

Lemma finalScene_counts frames : ∀ sc,
  MainScene.deaths (finalScene frames sc) = MainScene.deaths sc + hazardsIn frames
  ∧ coinCount (finalScene frames sc) = coinCount sc + coinsIn frames.
Proof.
  induction frames as [|f rest IH]; intros sc.
  - unfold hazardsIn, coinsIn. simpl. split; lia.
  - rewrite finalScene_cons.
    destruct (IH (sceneAfter (frame f) sc)) as (-> & ->).
    destruct (frame_counts f sc) as (-> & -> & _).
    unfold hazardsIn, coinsIn, overlapsIn. cbn [map concat].
    rewrite !filter_app, !length_app, !Nat2Z.inj_add. split; lia.
Qed.

Lemma atGoal_counts frames f sc :
  MainScene.deaths (atGoal frames f sc) = MainScene.deaths sc + hazardsIn (frames ++ [f])
  ∧ coinCount (atGoal frames f sc) = coinCount sc + coinsIn (frames ++ [f]).
Proof.
  unfold atGoal, afterPhysics.
  destruct (overlapCallbacks_counts (overlaps f) (withPlayer (body f) (finalScene frames sc)))
    as [-> ->].
  change (MainScene.deaths (withPlayer (body f) (finalScene frames sc)))
    with (MainScene.deaths (finalScene frames sc)).
  change (coinCount (withPlayer (body f) (finalScene frames sc)))
    with (coinCount (finalScene frames sc)).
  destruct (finalScene_counts frames sc) as [-> ->].
  rewrite hazardsIn_snoc, coinsIn_snoc. split; lia.
Qed.

(** X19.  What a playthrough records.  For a level whose id is not the
    empty string, selected in the menu and played from a new scene, the
    call of [reachGoal] passes to the store, and puts in the
    level-completed event, the time since the start, the number of coin
    overlaps and the number of hazard overlaps reported up to the
    physics step in which the goal is reached.  The store then has the
    level completed, its best time the smaller of the old one and this
    time, its best coin count the larger of the old one and this count,
    and the deaths added to the level's and to the global total; the
    records of other levels are not touched.  With no level id, or the
    empty one, [reachGoal] changes nothing and emits nothing. *)
Theorem playthrough_is_recorded :
  (∀ lid spawn zones hs startTime now frames f st,
      lid ≠ EmptyString →
      let coins := coinsIn (frames ++ [f]) in
      let died := hazardsIn (frames ++ [f]) in
      let st' := fst (playthrough lid spawn zones hs startTime now frames f st) in
      snd (playthrough lid spawn zones hs startTime now frames f st) =
        Some (mkLevelCompletionData lid (now - startTime) coins died)
      ∧ isLevelCompleted lid st' = true
      ∧ getBestTime lid st' = Some (min_with_null (getBestTime lid st) (now - startTime))
      ∧ getBestCollectibles lid st' = Z.max (getBestCollectibles lid st) coins
      ∧ levelDeaths lid st' = levelDeaths lid st + died
      ∧ getTotalCoinsCollected st' = getTotalCoinsCollected st + coins
      ∧ getTotalDeaths st' = getTotalDeaths st + died
      ∧ ∀ other, other ≠ lid → getLevelProgress other st' = getLevelProgress other st)
  ∧ (∀ startTime now sc st,
      reachGoal None startTime now sc st = (st, None)
      ∧ reachGoal (Some EmptyString) startTime now sc st = (st, None)).
Proof.
  split; [|intros; split; reflexivity].
  intros lid spawn zones hs startTime now frames f st Hne coins died st'.
  destruct lid as [|c rest]; [contradiction|].
  unfold st', playthrough, getSelectedLevel. cbn [setSelectedLevel selectedLevelId reachGoal].
  destruct (atGoal_counts frames f (createScene spawn zones hs)) as [-> ->].
  change (MainScene.deaths (createScene spawn zones hs)) with 0.
  change (coinCount (createScene spawn zones hs)) with 0.
  rewrite !Z.add_0_l. fold coins died. cbn [fst snd].
  split; [reflexivity|].
  unfold completeLevel, isLevelCompleted, getBestTime, getBestCollectibles, levelDeaths,
    getTotalCoinsCollected, getTotalDeaths, getLevelProgress, min_with_null.
  unfold currentProgress, setSelectedLevel.
  cbn [levelProgress totalCoinsCollected GameState.totalDeaths selectedLevelId].
  rewrite !lookup_insert_eq.
  cbn [completed bestTimeMs bestCollectibles Schema.totalDeaths timeMs picked
       Schema.deaths default].
  destruct (levelProgress st !! String c rest) as [p|];
    unfold Datatypes.id;
    cbn [default from_option freshProgress bestTimeMs bestCollectibles
         Schema.totalDeaths].
  - repeat split; try reflexivity.
    + destruct (bestTimeMs p); reflexivity.
    + intros other Ho. apply lookup_insert_ne. intros E. apply Ho. symmetry. exact E.
  - repeat split; try reflexivity.
    intros other Ho. apply lookup_insert_ne. intros E. apply Ho. symmetry. exact E.
Qed.

(** The property on the example session followed by a step with a third
    coin: three coins and one death recorded for wind_01. *)
Lemma playthrough_is_recorded_witness :
  snd (playthrough "wind_01" (400, 300) [gust] [] 1000 43000 shortSession lastStep
         initialState)
    = Some (mkLevelCompletionData "wind_01" 42000 3 1)
  ∧ getBestTime "wind_01"
      (fst (playthrough "wind_01" (400, 300) [gust] [] 1000 43000 shortSession lastStep
              initialState)) = Some 42000.
Proof.
  destruct playthrough_is_recorded as [H _].
  destruct (H "wind_01"%string (400, 300) [gust] [] 1000 43000 shortSession lastStep
              initialState) as (Hp & _ & Hb & _); [discriminate|].
  split; [rewrite Hp; reflexivity | rewrite Hb; reflexivity].
Defined.

End PlaythroughProps.

(* ===================================================================== *)
(** ** Properties of the overlay *)
(* ===================================================================== *)

Module HudProps.
Import Schema MainScene Play Hud.
Import MainSceneProps PlayProps.

(** *** The counters *)









(** *** formatTime *)

Lemma length_append s t :
  String.length (s +:+ t) = (String.length s + String.length t)%nat.
Proof.
  induction s as [|a s IH]; [reflexivity|].
  change (String a s +:+ t) with (String a (s +:+ t)). simpl. rewrite IH. reflexivity.
Qed.

Lemma append_inj_length s1 : ∀ s2 t1 t2,
  String.length s1 = String.length s2 → s1 +:+ t1 = s2 +:+ t2 → s1 = s2 ∧ t1 = t2.
Proof.
  induction s1 as [|a s1 IH]; intros [|b s2] t1 t2 Hlen Heq; try discriminate.
  - split; [reflexivity | exact Heq].
  - change (String a (s1 +:+ t1) = String b (s2 +:+ t2)) in Heq.
    injection Heq as -> Heq. simpl in Hlen. injection Hlen as Hlen.
    destruct (IH s2 t1 t2 Hlen Heq) as [-> ->]. split; reflexivity.
Qed.

(** The seconds field of each of the sixty values. *)
Lemma seconds_field n :
  (n < 60)%nat →
  String.length (padStart 2 "0" (pretty (Z.of_nat n))) = 2%nat
  ∧ readSeconds (padStart 2 "0" (pretty (Z.of_nat n))) = Z.of_nat n.
Proof.
  intros Hn.
  do 60 (destruct n as [|n]; [vm_compute; split; reflexivity|]). lia.
Qed.

Lemma seconds_field_Z s :
  0 <= s < 60 →
  String.length (padStart 2 "0" (pretty s)) = 2%nat
  ∧ readSeconds (padStart 2 "0" (pretty s)) = s.
Proof.
  intros Hs. rewrite <- (Z2Nat.id s) by lia. apply seconds_field. lia.
Qed.

Lemma formatTime_fields ms :
  0 <= ms →
  formatTime ms =
    pretty (ms / 60000) +:+ ":" +:+ padStart 2 "0" (pretty ((ms / 1000) mod 60))
  ∧ 0 <= (ms / 1000) mod 60 < 60.
Proof.
  intros Hms. unfold formatTime.
  assert (Hsec : 0 <= ms / 1000) by (apply Z.div_pos; lia).
  rewrite Z.rem_mod_nonneg by lia.
  rewrite Z.div_div by lia. change (1000 * 60) with 60000.
  split; [reflexivity | apply Z.mod_pos_bound; lia].
Qed.

(** X21.  [formatTime] shows the whole seconds of a time that is not
    negative as minutes, a colon and a seconds field of exactly two
    digits that reads back as the seconds within the minute; the minutes
    are not capped at 59.  Two times are shown alike exactly when they
    have the same number of whole seconds. *)
Theorem formatTime_shows_whole_seconds :
  (∀ ms, 0 <= ms →
      ∃ field,
        formatTime ms = pretty (ms / 60000) +:+ ":" +:+ field
        ∧ String.length field = 2%nat
        ∧ readSeconds field = (ms / 1000) mod 60)
  ∧ (∀ a b, 0 <= a → 0 <= b → (formatTime a = formatTime b ↔ a / 1000 = b / 1000)).
Proof.
  split.
  - intros ms Hms. destruct (formatTime_fields ms Hms) as [Hf Hr].
    destruct (seconds_field_Z _ Hr) as [Hlen Hread].
    eexists. split; [exact Hf|]. split; assumption.
  - intros a b Ha Hb. split.
    + intros Heq.
      destruct (formatTime_fields a Ha) as [Hfa Hra].
      destruct (formatTime_fields b Hb) as [Hfb Hrb].
      destruct (seconds_field_Z _ Hra) as [Hla Hsa].
      destruct (seconds_field_Z _ Hrb) as [Hlb Hsb].
      rewrite Hfa, Hfb in Heq.
      assert (Hlen : String.length (pretty (a / 60000)) = String.length (pretty (b / 60000))).
      { apply (f_equal String.length) in Heq.
        rewrite !length_append, Hla, Hlb in Heq. simpl in Heq. lia. }
      destruct (append_inj_length _ _ _ _ Hlen Heq) as [Hmin Hrest].
      apply pretty_Z_inj in Hmin.
      change (String ":" (padStart 2 "0" (pretty ((a / 1000) mod 60))) =
              String ":" (padStart 2 "0" (pretty ((b / 1000) mod 60)))) in Hrest.
      injection Hrest as Hrest.
      assert (Hsecs : (a / 1000) mod 60 = (b / 1000) mod 60).
      { rewrite <- Hsa, <- Hsb, Hrest. reflexivity. }
      replace (a / 60000) with (a / 1000 / 60) in Hmin
        by (rewrite Z.div_div by lia; reflexivity).
      replace (b / 60000) with (b / 1000 / 60) in Hmin
        by (rewrite Z.div_div by lia; reflexivity).
      rewrite (Z.div_mod (a / 1000) 60), (Z.div_mod (b / 1000) 60) by lia.
      rewrite Hmin, Hsecs. reflexivity.
    + intros Heq. unfold formatTime. rewrite Heq. reflexivity.
Qed.

(** The property at 65 seconds and at 61 minutes. *)
Lemma formatTime_shows_whole_seconds_witness :
  (∃ field, formatTime 65000 = "1:" +:+ field ∧ readSeconds field = 5)
  ∧ formatTime 3660000 = formatTime 3660999.
Proof.
  destruct formatTime_shows_whole_seconds as [Hshape Hsame].
  split.
  - destruct (Hshape 65000) as (field & Hf & _ & Hr); [lia|].
    exists field. split; [exact Hf | exact Hr].
  - apply Hsame; [lia | lia | reflexivity].
Defined.

End HudProps.

(* ===================================================================== *)
(** ** The pulsed wind is never switched off *)
(* ===================================================================== *)

Module WindProps.
Import MainScene Play MainSceneProps PlayProps.

(** In the off half of its cycle a pulsed zone does not blow. *)
Lemma off_half_blows_nothing delta px py wd p :
  pulseDuration (zone wd) = Some p → type (zone wd) = pulsed →
  windActive p (pulseTimer wd + delta) = false →
  blowing delta px py [wd] = [].
Proof.
  intros Hp Ht Hoff. unfold blowing.
  rewrite filter_cons_False; [reflexivity|].
  unfold blows. rewrite Ht, Hp, Hoff, andb_false_r, andb_false_r. discriminate.
Qed.

(** Claim C2 is right about when the force is switched on and the code
    is wrong about switching it off.  For a pulsed zone with pulse
    duration [p] and a tick that finds the player inside it in the off
    half of the cycle ([(pulseTimer % 2p) < p] is false for the timer
    with the frame's delta added), [updateWindZones] makes no
    acceleration call at all: the branch that applies the force has no
    counterpart that takes it away, and nothing else in the scene sets
    the acceleration.  So a sprite that carries the zone's force from an
    earlier on tick still carries it after this tick: the force is
    applied although [(pulseTimer mod 2p) >= p]. *)
Theorem pulsed_wind_is_never_switched_off :
  ∀ f sc wd p,
    windZones sc = [wd] →
    type (zone wd) = pulsed → pulseDuration (zone wd) = Some p →
    inZone (zone wd) (frameX f sc) (frameY f sc) = true →
    windActive p (pulseTimer wd + delta f) = false →
    acceleration (body f) = force (zone wd) →
    filter isSetAcceleration (callsOf (frame f) sc) = []
    ∧ acceleration (player (sceneAfter (frame f) sc)) = force (zone wd).
Proof.
  intros f sc wd p Hz Ht Hp _ Hoff Hacc.
  rewrite frame_accelCalls, frame_acceleration, Hz.
  rewrite (off_half_blows_nothing _ _ _ wd p Hp Ht Hoff).
  split; [reflexivity | exact Hacc].
Qed.

(** The failing input: the gust of pulse duration 500 and force 150,
    the player standing in it for 32 frames of 16 ms.  The 32nd tick
    brings the timer to 512, in the off half; it makes no acceleration
    call, and the sprite keeps the acceleration 150. *)
Lemma pulsed_wind_is_never_switched_off_witness :
  windZones endOfFirstPulse = [mkWindZoneData gust true 496]
  ∧ windActive 500 (496 + 16) = false
  ∧ filter isSetAcceleration
      (callsOf (frame (resting 16 endOfFirstPulse)) endOfFirstPulse) = []
  ∧ acceleration (player (sceneAfter (frame (resting 16 endOfFirstPulse)) endOfFirstPulse))
      = (150, 0).
Proof.
  assert (Hz : windZones endOfFirstPulse = [mkWindZoneData gust true 496])
    by (vm_compute; reflexivity).
  split; [exact Hz|]. split; [vm_compute; reflexivity|].
  apply (pulsed_wind_is_never_switched_off (resting 16 endOfFirstPulse) endOfFirstPulse
           (mkWindZoneData gust true 496) 500 Hz);
    vm_compute; reflexivity.
Defined.

End WindProps.

